(** * FIRRTL instance graph, instance path cache and LowerAnnotations

    A shallow embedding of
    - [lib/Dialect/FIRRTL/FIRRTLInstanceGraph.cpp]
      ([InstancePathCache::getAbsolutePaths], [appendInstance],
      [replaceInstance], [allUnder]) and
    - [lib/Dialect/FIRRTL/Transforms/LowerAnnotations.cpp]
      (the annotation table, [applyAnnotation], the driver loop and the
      wiring-problem planning of [runOnOperation]),
    followed by the properties of these functions. *)

From stdpp Require Import gmap list strings sets.

(** ** Outcomes of fallible code

    A C++ function either returns, or stops on a failed [assert] / [cast<>],
    or reads outside an array or through a null pointer.  Recursion and
    loops whose termination depends on the data are given a fuel argument;
    [OutOfFuel] is the only outcome that does not come from the source. *)

Inductive Failure : Type :=
| AssertionFailed   (* assert(...) or cast<...> on a value of the wrong kind *)
| InvalidAccess     (* index out of range, null or dangling pointer *)
| OutOfFuel.

Inductive Result (A : Type) : Type :=
| Ok (a : A)
| Fail (f : Failure).
Arguments Ok {A} a.
Arguments Fail {A} f.

#[global] Instance Result_ret : MRet Result := fun _ a => Ok a.
#[global] Instance Result_bind : MBind Result := fun _ _ k m =>
  match m with Ok a => k a | Fail f => Fail f end.

#[global] Instance Result_fmap : FMap Result := fun _ _ f m =>
  match m with Ok a => Ok (f a) | Fail e => Fail e end.

Definition assert (b : bool) : Result unit :=
  if b then Ok tt else Fail AssertionFailed.

(** ** SmallVector

    A vector is the list of its elements in index order; [push_back] and
    [pop_back_val] work at the far end. *)

Definition push_back {A} (v : list A) (x : A) : list A := v ++ [x].

Definition pop_back_val {A} (v : list A) : option (A * list A) :=
  match rev v with
  | [] => None
  | x :: r => Some (x, rev r)
  end.

(** ** The instance graph (data model)

    Operations of the IR are known by identity.  The graph has one
    [InstanceGraphNode] per module, so a node is named by the module it
    wraps ([getModule] is the identity on names) and the graph stores, for
    each node, the list [uses] of instance records that instantiate it. *)

Abbreviation Operation := nat.
Abbreviation InstanceOp := Operation.
Abbreviation Node := Operation.

Record InstanceRecord : Type := {
  getInstance : InstanceOp;   (* the instance operation *)
  getParent : Node;           (* the module that contains the instance *)
  getTarget : Node            (* the module that is instantiated *)
}.

#[global] Instance InstanceRecord_eq_dec : EqDecision InstanceRecord.
Proof. solve_decision. Defined.

Record InstanceGraph : Type := {
  nodeMap : gmap Node (list InstanceRecord);   (* node |-> its uses *)
  getTopLevelNode : Node
}.

(** [instanceGraph[op]]: the lookup asserts that the module has a node. *)
Definition lookup_node (g : InstanceGraph) (op : Node) : Result (list InstanceRecord) :=
  match nodeMap g !! op with
  | Some us => Ok us
  | None => Fail AssertionFailed
  end.

(** [node->uses()] through a node pointer. *)
Definition uses (g : InstanceGraph) (node : Node) : Result (list InstanceRecord) :=
  match nodeMap g !! node with
  | Some us => Ok us
  | None => Fail InvalidAccess
  end.

Definition noUses (us : list InstanceRecord) : bool :=
  match us with [] => true | _ => false end.

(** ** [allUnder]

    [seen.insert(mod).second] followed by [worklist.push_back(mod)]. *)
Definition visit (sw : gset Node * list Node) (m : Node) : gset Node * list Node :=
  if decide (m ∈ sw.1) then sw else ({[m]} ∪ sw.1, push_back sw.2 m).

Fixpoint allUnder_loop (fuel : nat) (g : InstanceGraph) (top : Node)
    (seen : gset Node) (worklist : list Node) : Result bool :=
  match fuel with
  | 0 => Fail OutOfFuel
  | S fuel =>
    match pop_back_val worklist with
    | None => Ok true
    | Some (node, worklist) =>
      _ ← assert (bool_decide (node ≠ top));
      us ← uses g node;
      (* If reach top-level node we're not covered by 'top', return. *)
      if noUses us then Ok false
      else
        (* Otherwise, walk upwards. *)
        let sw := foldl (fun sw use => visit sw (getParent use)) (seen, worklist) us in
        allUnder_loop fuel g top sw.1 sw.2
    end
  end.

Definition allUnder (fuel : nat) (g : InstanceGraph)
    (nodes : list InstanceRecord) (top : Node) : Result bool :=
  let seen : gset Node := {[top]} in
  let worklist : list Node := [] in
  let sw := foldl (fun sw n => visit sw (getParent n)) (seen, worklist) nodes in
  allUnder_loop fuel g top sw.1 sw.2.

(** Every node that an instance record names as its parent is in the graph. *)
Definition in_graph (g : InstanceGraph) (u : InstanceRecord) : Prop :=
  is_Some (nodeMap g !! getParent u).

Definition graph_closed (g : InstanceGraph) : Prop :=
  map_Forall (fun _ us => Forall (in_graph g) us) (nodeMap g).

#[global] Instance in_graph_dec g u : Decision (in_graph g u).
Proof. unfold in_graph. apply _. Defined.

#[global] Instance graph_closed_dec g : Decision (graph_closed g).
Proof. unfold graph_closed. apply _. Defined.

(** An upward walk: the nodes met from [m] up to a node without uses, each
    next node being the parent of a use of the previous one. *)
Inductive upPath (g : InstanceGraph) : Node → list Node → Prop :=
| upPath_root m :
    nodeMap g !! m = Some [] → upPath g m [m]
| upPath_step m us u l :
    nodeMap g !! m = Some us → u ∈ us →
    upPath g (getParent u) l → upPath g m (m :: l).

(** [top] lies on every upward walk that starts at the parent of a given
    instance record. *)
Definition dominates (g : InstanceGraph) (top : Node) (nodes : list InstanceRecord) : Prop :=
  ∀ n l, n ∈ nodes → upPath g (getParent n) l → top ∈ l.

(** Nodes met by walking upward from the parents of the given records
    without touching [top]. *)
Inductive avoiding (g : InstanceGraph) (top : Node) (nodes : list InstanceRecord)
    : Node → Prop :=
| avoiding_start n :
    n ∈ nodes → getParent n ≠ top → avoiding g top nodes (getParent n)
| avoiding_step m us u :
    avoiding g top nodes m → nodeMap g !! m = Some us → u ∈ us →
    getParent u ≠ top → avoiding g top nodes (getParent u).

(** What holds of [seen] and [worklist] at the head of the loop of
    [allUnder]: a node that is seen and not on the worklist has uses, and
    their parents are seen. *)
Record loop_inv (g : InstanceGraph) (top : Node) (nodes : list InstanceRecord)
    (seen : gset Node) (wl : list Node) : Prop := {
  inv_top : top ∈ seen;
  inv_wl : ∀ x, x ∈ wl → x ∈ seen ∧ x ≠ top;
  inv_reach : ∀ x, x ∈ seen → x ≠ top → avoiding g top nodes x;
  inv_done : ∀ x, x ∈ seen → x ≠ top → x ∉ wl →
     ∃ us, nodeMap g !! x = Some us ∧ us ≠ [] ∧ ∀ u, u ∈ us → getParent u ∈ seen;
  inv_nodes : ∀ n, n ∈ nodes → getParent n ∈ seen
}.

(** ** [InstancePathCache]: memory

    An [ArrayRef<T>] is a pointer with a length.  Path arrays and path-list
    arrays live in the cache's [BumpPtrAllocator]; the arena is modelled as
    the list of the arrays allocated so far, an array being named by its
    position in that list.  [Allocate] adds an array, [store] and [copy]
    overwrite cells of an array in place. *)

Definition Allocate {T} (dflt : T) (n : nat) (arena : list (list T)) : nat * list (list T) :=
  (length arena, arena ++ [replicate n dflt]).

(** [ptr[i] = v] *)
Definition store {T} (ptr i : nat) (v : T) (arena : list (list T)) : list (list T) :=
  alter (fun arr => <[i := v]> arr) ptr arena.

(** [std::copy(src.begin(), src.end(), ptr)] *)
Definition copy {T} (src : list T) (ptr : nat) (arena : list (list T)) : list (list T) :=
  alter (fun arr => src ++ drop (length src) arr) ptr arena.

(** [InstancePath = ArrayRef<InstanceOp>]; [pathData = None] is the null
    pointer of a default-constructed [ArrayRef]. *)
Record InstancePath : Type := {
  pathData : option nat;
  pathSize : nat
}.

#[global] Instance InstancePath_eq_dec : EqDecision InstancePath.
Proof. solve_decision. Defined.

(** [static InstancePath empty{}] of [getAbsolutePaths]. *)
Definition empty : InstancePath := {| pathData := None; pathSize := 0 |}.

Inductive PathsPtr : Type :=
| StaticEmpty            (* the address of the static [empty] *)
| InArena (ptr : nat).

#[global] Instance PathsPtr_eq_dec : EqDecision PathsPtr.
Proof. solve_decision. Defined.

(** [ArrayRef<InstancePath>] *)
Record PathList : Type := {
  listData : option PathsPtr;
  listSize : nat
}.

#[global] Instance PathList_eq_dec : EqDecision PathList.
Proof. solve_decision. Defined.

Record BumpPtrAllocator : Type := {
  instArrays : list (list InstanceOp);     (* from Allocate<InstanceOp> *)
  pathArrays : list (list InstancePath)    (* from Allocate<InstancePath> *)
}.

(** The elements an [ArrayRef] shows in the current memory. *)
Definition readPath (a : BumpPtrAllocator) (path : InstancePath) : list InstanceOp :=
  match pathData path with
  | None => []
  | Some ptr => take (pathSize path) (default [] (instArrays a !! ptr))
  end.

Definition readPaths (a : BumpPtrAllocator) (paths : PathList) : list InstancePath :=
  match listData paths with
  | None => []
  | Some StaticEmpty => take (listSize paths) [empty]
  | Some (InArena ptr) => take (listSize paths) (default [] (pathArrays a !! ptr))
  end.

(** The paths as sequences of instances. *)
Definition pathsValue (a : BumpPtrAllocator) (paths : PathList) : list (list InstanceOp) :=
  readPath a <$> readPaths a paths.

Record InstancePathCache : Type := {
  instanceGraph : InstanceGraph;
  absolutePathsCache : gmap Operation PathList;
  allocator : BumpPtrAllocator
}.

Definition setAllocator (c : InstancePathCache) (a : BumpPtrAllocator) : InstancePathCache :=
  {| instanceGraph := instanceGraph c;
     absolutePathsCache := absolutePathsCache c;
     allocator := a |}.

Definition setCache (c : InstancePathCache) (m : gmap Operation PathList) : InstancePathCache :=
  {| instanceGraph := instanceGraph c;
     absolutePathsCache := m;
     allocator := allocator c |}.

Definition setInstArrays (a : BumpPtrAllocator) (arena : list (list InstanceOp)) : BumpPtrAllocator :=
  {| instArrays := arena; pathArrays := pathArrays a |}.

Definition setPathArrays (a : BumpPtrAllocator) (arena : list (list InstancePath)) : BumpPtrAllocator :=
  {| instArrays := instArrays a; pathArrays := arena |}.

(** [allocator.Allocate<InstanceOp>(n)]; fresh storage is unspecified, its
    cells are taken to hold the null operation until they are written. *)
Definition AllocateInstanceOp (n : nat) (a : BumpPtrAllocator) : nat * BumpPtrAllocator :=
  let '(ptr, arena) := Allocate 0 n (instArrays a) in (ptr, setInstArrays a arena).

(** [allocator.Allocate<InstancePath>(n)] *)
Definition AllocateInstancePath (n : nat) (a : BumpPtrAllocator) : nat * BumpPtrAllocator :=
  let '(ptr, arena) := Allocate empty n (pathArrays a) in (ptr, setPathArrays a arena).

(** ** [InstancePathCache::appendInstance] *)
Definition appendInstance (path : InstancePath) (inst : InstanceOp)
    (c : InstancePathCache) : InstancePath * InstancePathCache :=
  let n := pathSize path + 1 in
  let '(newPath, a) := AllocateInstanceOp n (allocator c) in
  let a := setInstArrays a (copy (readPath a path) newPath (instArrays a)) in
  let a := setInstArrays a (store newPath (pathSize path) inst (instArrays a)) in
  ({| pathData := Some newPath; pathSize := n |}, setAllocator c a).

(** Moving a vector of paths into the bump allocator: an
    [Allocate<InstancePath>], a copy, and the [ArrayRef] over the result. *)
Definition moveToAllocator (paths : list InstancePath) (a : BumpPtrAllocator)
    : PathList * BumpPtrAllocator :=
  let '(ptr, a) := AllocateInstancePath (length paths) a in
  let a := setPathArrays a (copy paths ptr (pathArrays a)) in
  ({| listData := Some (InArena ptr); listSize := length paths |}, a).

(** A loop whose body can fail. *)
Fixpoint foldlR {A B} (f : A → B → Result A) (a : A) (l : list B) : Result A :=
  match l with
  | [] => Ok a
  | b :: l => a' ← f a b; foldlR f a' l
  end.

(** ** [InstancePathCache::getAbsolutePaths]

    The recursion follows the uses upward, so it ends on an acyclic graph;
    [fuel] bounds its depth.  A range-for over an [ArrayRef] is a loop over
    the elements the reference shows when the loop starts. *)
Fixpoint getAbsolutePaths (fuel : nat) (op : Operation) (c : InstancePathCache)
    : Result (PathList * InstancePathCache) :=
  match fuel with
  | 0 => Fail OutOfFuel
  | S fuel =>
    (* If we have reached the circuit root, we're done. *)
    if decide (op = getTopLevelNode (instanceGraph c)) then
      Ok ({| listData := Some StaticEmpty; listSize := 1 |}, c)
    else
      (* Fast path: hit the cache. *)
      match absolutePathsCache c !! op with
      | Some cached => Ok (cached, c)
      | None =>
        (* For each instance, collect the instance paths to its parent and
           append the instance itself to each. *)
        us ← lookup_node (instanceGraph c) op;
        '(extendedPaths, c) ←
          foldlR (fun '(extendedPaths, c) inst =>
                    '(instPaths, c) ← getAbsolutePaths fuel (getParent inst) c;
                    Ok (foldl (fun '(extendedPaths, c) path =>
                                 let '(newPath, c) :=
                                   appendInstance path (getInstance inst) c in
                                 (push_back extendedPaths newPath, c))
                              (extendedPaths, c)
                              (readPaths (allocator c) instPaths)))
                 ([], c) us;
        (* Move the list of paths into the bump allocator for later quick
           retrieval. *)
        let '(pathList, a) :=
          match extendedPaths with
          | [] => ({| listData := None; listSize := 0 |}, allocator c)
          | _ => moveToAllocator extendedPaths (allocator c)
          end in
        let c := setAllocator c a in
        (* DenseMap::insert keeps an entry that is already there. *)
        let c :=
          match absolutePathsCache c !! op with
          | Some _ => c
          | None => setCache c (<[op := pathList]> (absolutePathsCache c))
          end in
        Ok (pathList, c)
      end
  end.

(** ** [InstancePathCache::replaceInstance] *)

(** Modelled from the spec: [InstanceGraph::replaceInstance] is defined with
    the instance graph base class, outside these sources.  Per the spec it
    swaps the instance site for the new one and keeps every edge: each
    record that held [oldOp] holds [newOp]. *)
Definition InstanceGraph_replaceInstance (oldOp newOp : InstanceOp)
    (g : InstanceGraph) : InstanceGraph :=
  {| nodeMap :=
       fmap (M := list)
            (fun r => if decide (getInstance r = oldOp)
                      then {| getInstance := newOp; getParent := getParent r;
                              getTarget := getTarget r |}
                      else r)
         <$> nodeMap g;
     getTopLevelNode := getTopLevelNode g |}.

Definition instanceExists (a : BumpPtrAllocator) (oldOp : InstanceOp)
    (paths : PathList) : bool :=
  existsb (fun p => bool_decide (oldOp ∈ readPath a p)) (readPaths a paths).

(** The body of the loop over the paths of one entry. *)
Definition replaceInPath (oldOp newOp : InstanceOp)
    (acc : list InstancePath * BumpPtrAllocator) (path : InstancePath)
    : list InstancePath * BumpPtrAllocator :=
  let '(updatedPaths, a) := acc in
  match list_find (fun x => x = oldOp) (readPath a path) with
  | None =>
    (* path does not contain the oldOp, just copy it as is. *)
    (push_back updatedPaths path, a)
  | Some (i, _) =>
    let '(newPath, a) := AllocateInstanceOp (pathSize path) a in
    let a := setInstArrays a (copy (readPath a path) newPath (instArrays a)) in
    let a := setInstArrays a (store newPath i newOp (instArrays a)) in
    (push_back updatedPaths {| pathData := Some newPath; pathSize := pathSize path |}, a)
  end.

(** The body of the loop over the cache entries. *)
Definition replaceInEntry (oldOp newOp : InstanceOp)
    (st : gmap Operation PathList * BumpPtrAllocator)
    (entry : Operation * PathList)
    : gmap Operation PathList * BumpPtrAllocator :=
  let '(cache, a) := st in
  let '(op, paths) := entry in
  if negb (instanceExists a oldOp paths) then (cache, a)
  else
    let '(updatedPaths, a) :=
      foldl (replaceInPath oldOp newOp) ([], a) (readPaths a paths) in
    (* Move the list of paths into the bump allocator for later quick
       retrieval. *)
    let '(newList, a) := moveToAllocator updatedPaths a in
    (<[op := newList]> cache, a).

(** The entries of the [DenseMap] are visited once each, here in the order
    of [map_to_list]; the second of an entry is overwritten in place. *)
Definition replaceInstance (oldOp newOp : InstanceOp) (c : InstancePathCache)
    : InstancePathCache :=
  let g := InstanceGraph_replaceInstance oldOp newOp (instanceGraph c) in
  let '(cache, a) :=
    foldl (replaceInEntry oldOp newOp)
          (absolutePathsCache c, allocator c)
          (map_to_list (absolutePathsCache c)) in
  {| instanceGraph := g; absolutePathsCache := cache; allocator := a |}.

(** ** Statements about the cache *)

(** Every array of [a] is still there, unchanged, in [a']. *)
Definition extends (a a' : BumpPtrAllocator) : Prop :=
  instArrays a `prefix_of` instArrays a' ∧ pathArrays a `prefix_of` pathArrays a'.

(** The length a reference claims is the length it shows. *)
Definition valid_path (a : BumpPtrAllocator) (p : InstancePath) : Prop :=
  length (readPath a p) = pathSize p.

Definition valid_list (a : BumpPtrAllocator) (pl : PathList) : Prop :=
  length (readPaths a pl) = listSize pl ∧ Forall (valid_path a) (readPaths a pl).

(** No module instantiates itself, directly or through others: [rank]
    decreases from a module to the parent of each of its uses. *)
Definition acyclic (g : InstanceGraph) (rank : Node → nat) : Prop :=
  map_Forall (fun m us => m ≠ getTopLevelNode g →
                          Forall (fun u => rank (getParent u) < rank m) us)
             (nodeMap g).

(** The recursive definition of the absolute paths: the root has the empty
    path; any other module has, for each instance record that instantiates
    it, the paths of the parent module, each with the instance appended. *)
Definition extendAll (u : InstanceRecord) (ps : list (list InstanceOp)) : list (list InstanceOp) :=
  (fun p => p ++ [getInstance u]) <$> ps.

Definition path_equations (g : InstanceGraph) (paths : Node → list (list InstanceOp)) : Prop :=
  paths (getTopLevelNode g) = [[]]
  ∧ map_Forall (fun m us => m ≠ getTopLevelNode g →
                            paths m = us ≫= (fun u => extendAll u (paths (getParent u))))
               (nodeMap g).

(** The recursive definition, unfolded [depth] times. *)
Fixpoint absolutePathsTo (depth : nat) (g : InstanceGraph) (m : Node) : list (list InstanceOp) :=
  if decide (m = getTopLevelNode g) then [[]]
  else
    match depth with
    | 0 => []
    | S depth =>
      default [] (nodeMap g !! m)
        ≫= (fun u => extendAll u (absolutePathsTo depth g (getParent u)))
    end.

(** The cache belongs to [g] and each entry holds the paths of its module. *)
Definition cache_ok (g : InstanceGraph) (paths : Node → list (list InstanceOp))
    (c : InstancePathCache) : Prop :=
  instanceGraph c = g
  ∧ map_Forall (fun m pl => valid_list (allocator c) pl
                            ∧ pathsValue (allocator c) pl = paths m)
               (absolutePathsCache c).

#[global] Instance valid_path_dec a p : Decision (valid_path a p).
Proof. unfold valid_path. apply _. Defined.

#[global] Instance valid_list_dec a pl : Decision (valid_list a pl).
Proof. unfold valid_list. apply _. Defined.

#[global] Instance acyclic_dec g rank : Decision (acyclic g rank).
Proof. unfold acyclic. apply _. Defined.

#[global] Instance path_equations_dec g paths : Decision (path_equations g paths).
Proof. unfold path_equations. apply _. Defined.

(** A design with root 0, module 1 instantiated in 0 and module 2
    instantiated in 1 and, a second time, directly in 0. *)
Definition exampleGraph : InstanceGraph := {|
  nodeMap := {[ 0 := [];
                1 := [ {| getInstance := 10; getParent := 0; getTarget := 1 |} ];
                2 := [ {| getInstance := 11; getParent := 1; getTarget := 2 |};
                       {| getInstance := 12; getParent := 0; getTarget := 2 |} ] ]};
  getTopLevelNode := 0
|}.

(** A cache as its constructor leaves it. *)
Definition newCache (g : InstanceGraph) : InstancePathCache :=
  {| instanceGraph := g;
     absolutePathsCache := ∅;
     allocator := {| instArrays := []; pathArrays := [] |} |}.

(** [l] with [newOp] written over the first [oldOp], if there is one. *)
Definition substFirst (oldOp newOp : InstanceOp) (l : list InstanceOp) : list InstanceOp :=
  match list_find (fun x => x = oldOp) l with
  | Some (i, _) => <[i := newOp]> l
  | None => l
  end.

(** What [replaceInstance] does to one cached path: [p] under the memory
    [a] before the call, [p'] under the memory [a'] after it. *)
Definition path_replaced (oldOp newOp : InstanceOp) (a a' : BumpPtrAllocator)
    (p p' : InstancePath) : Prop :=
  readPath a' p' = substFirst oldOp newOp (readPath a p)
  ∧ pathSize p' = pathSize p
  ∧ (oldOp ∉ readPath a p → p' = p)
  ∧ (oldOp ∈ readPath a p →
     ∃ ptr, pathData p' = Some ptr ∧ length (instArrays a) ≤ ptr).

Definition holds (a : BumpPtrAllocator) (oldOp : InstanceOp) (pl : PathList) : Prop :=
  ∃ p, p ∈ readPaths a pl ∧ oldOp ∈ readPath a p.

(** What it does to one cache entry. *)
Definition entry_replaced (oldOp newOp : InstanceOp) (a a' : BumpPtrAllocator)
    (pl pl' : PathList) : Prop :=
  valid_list a' pl'
  ∧ Forall2 (path_replaced oldOp newOp a a') (readPaths a pl) (readPaths a' pl')
  ∧ (¬ holds a oldOp pl → pl' = pl)
  ∧ (holds a oldOp pl →
     ∃ ptr, listData pl' = Some (InArena ptr) ∧ length (pathArrays a) ≤ ptr).

Definition cache_valid (c : InstancePathCache) : Prop :=
  map_Forall (fun _ pl => valid_list (allocator c) pl) (absolutePathsCache c).

#[global] Instance cache_valid_dec c : Decision (cache_valid c).
Proof. unfold cache_valid. apply _. Defined.

(** The cache of [exampleGraph] after the paths of module 2 were asked for. *)
Definition exampleCache : InstancePathCache :=
  match getAbsolutePaths 3 2 (newCache exampleGraph) with
  | Ok (_, c) => c
  | Fail _ => newCache exampleGraph
  end.

(** The paths of a module that the cache holds, as sequences of instances. *)
Definition cachedPaths (c : InstancePathCache) (op : Operation) : option (list (list InstanceOp)) :=
  pathsValue (allocator c) <$> absolutePathsCache c !! op.

(** ** LowerAnnotations: attributes, targets and the IR

    An annotation is a [DictionaryAttr]: named attributes kept sorted by
    name.  Of the attribute kinds only those this file looks into are told
    apart. *)

Inductive Attribute : Type :=
| StringAttr (value : string)
| IntegerAttr (value : N)              (* 32 bit signless *)
| FlatSymbolRefAttr (sym : string)
| InnerRefAttr (module name : string)
| OtherAttr (id : nat).

#[global] Instance Attribute_eq_dec : EqDecision Attribute.
Proof. solve_decision. Defined.

Abbreviation NamedAttribute := (string * Attribute)%type.
Abbreviation DictionaryAttr := (list NamedAttribute).

(** [anno.getNamed(name)] *)
Fixpoint getNamed (anno : DictionaryAttr) (name : string) : option Attribute :=
  match anno with
  | [] => None
  | (k, v) :: anno => if decide (k = name) then Some v else getNamed anno name
  end.

(** [DictionaryAttr::get]: the entries, ordered by name. *)
Fixpoint insertNamed (na : NamedAttribute) (sorted : DictionaryAttr) : DictionaryAttr :=
  match sorted with
  | [] => [na]
  | na' :: rest =>
    if String.leb na.1 na'.1 then na :: sorted else na' :: insertNamed na rest
  end.

Definition DictionaryAttr_get (attrs : list NamedAttribute) : DictionaryAttr :=
  foldr insertNamed [] attrs.

Module OpKind.
Inductive t : Type :=
| CircuitOp | FModuleOp | FExtModuleOp | WireOp | NodeOp | RegOp | RegResetOp
| InstanceOp | MemOp | CombMemOp | MemoryPortOp | SeqMemOp | Other.

#[global] Instance eq_dec : EqDecision t.
Proof. solve_decision. Defined.
End OpKind.

Inductive AnnoTarget : Type :=
| OpAnnoTarget (op : Operation)
| PortAnnoTarget (op : Operation) (portNo : nat).

Definition getOp (ref : AnnoTarget) : Operation :=
  match ref with OpAnnoTarget op => op | PortAnnoTarget op _ => op end.

Record AnnoPathValue : Type := {
  instances : list InstanceOp;
  ref : AnnoTarget;
  fieldIdx : nat
}.

Definition isLocal (target : AnnoPathValue) : bool :=
  bool_decide (instances target = []).

(** The IR below the circuit, as far as this pass reads and writes it. *)
Record IR : Type := {
  kindOf : Operation → OpKind.t;
  getNumPorts : Operation → nat;
  getReferencedModule : InstanceOp → Operation;
  rawAnnotations : option (list DictionaryAttr);             (* on the circuit *)
  annotationsAttr : gmap Operation (list DictionaryAttr);    (* "annotations" *)
  portAnnotationsAttr : gmap Operation (list (list DictionaryAttr));
  hierPathOps : list (string * list Attribute);              (* symbol, namepath *)
  symbols : gset string                                      (* the symbol table *)
}.

Definition setAnnotationsAttr (ir : IR) (m : gmap Operation (list DictionaryAttr)) : IR :=
  {| kindOf := kindOf ir; getNumPorts := getNumPorts ir;
     getReferencedModule := getReferencedModule ir;
     rawAnnotations := rawAnnotations ir;
     annotationsAttr := m;
     portAnnotationsAttr := portAnnotationsAttr ir;
     hierPathOps := hierPathOps ir; symbols := symbols ir |}.

Definition setPortAnnotationsAttr (ir : IR) (m : gmap Operation (list (list DictionaryAttr))) : IR :=
  {| kindOf := kindOf ir; getNumPorts := getNumPorts ir;
     getReferencedModule := getReferencedModule ir;
     rawAnnotations := rawAnnotations ir;
     annotationsAttr := annotationsAttr ir;
     portAnnotationsAttr := m;
     hierPathOps := hierPathOps ir; symbols := symbols ir |}.

Definition removeRawAnnotations (ir : IR) : IR :=
  {| kindOf := kindOf ir; getNumPorts := getNumPorts ir;
     getReferencedModule := getReferencedModule ir;
     rawAnnotations := None;
     annotationsAttr := annotationsAttr ir;
     portAnnotationsAttr := portAnnotationsAttr ir;
     hierPathOps := hierPathOps ir; symbols := symbols ir |}.

Definition addHierPathOp (ir : IR) (sym : string) (namepath : list Attribute) : IR :=
  {| kindOf := kindOf ir; getNumPorts := getNumPorts ir;
     getReferencedModule := getReferencedModule ir;
     rawAnnotations := rawAnnotations ir;
     annotationsAttr := annotationsAttr ir;
     portAnnotationsAttr := portAnnotationsAttr ir;
     hierPathOps := push_back (hierPathOps ir) (sym, namepath);
     symbols := {[sym]} ∪ symbols ir |}.

(** Errors sent to the diagnostic engine, by the [emitError] that sends them. *)
Inductive Diagnostic : Type :=
| AnnotationWithoutClass (anno : DictionaryAttr)
| UnhandledAnnotation (anno : DictionaryAttr)
| UnableToResolveTarget (anno : DictionaryAttr)
| UnableToApplyAnnotation (anno : DictionaryAttr)
| NoTargetField (anno : DictionaryAttr)
| TargetNotString (anno : DictionaryAttr)
| CannotTokenize (rawPath : string)
| NonLocalNotAllowed (op : Operation) (anno : DictionaryAttr)
| OtherDiagnostic (message : string).

#[global] Instance Diagnostic_eq_dec : EqDecision Diagnostic.
Proof. solve_decision. Defined.

Inductive LogicalResult : Type := success | failure.

Definition failed (r : LogicalResult) : bool :=
  match r with failure => true | success => false end.

(** ** Wiring problems *)

Inductive FIRRTLType : Type :=
| BaseType (id : nat)        (* a FIRRTLBaseType *)
| RefType (base : nat).      (* RefType::get of that base type *)

#[global] Instance FIRRTLType_eq_dec : EqDecision FIRRTLType.
Proof. solve_decision. Defined.

(** A value; [parentModule] is
    [getDefiningOp()->getParentOfType<FModuleOp>()], which needs a defining
    operation. *)
Record Value : Type := {
  valueId : nat;
  getType : FIRRTLType;
  parentModule : option Operation
}.

#[global] Instance Value_eq_dec : EqDecision Value.
Proof. solve_decision. Defined.

Record WiringProblem : Type := {
  source : Value;
  sink : Value;
  newNameHint : string;
  isRefType : bool
}.

Inductive Direction : Type := In | Out.

#[global] Instance Direction_eq_dec : EqDecision Direction.
Proof. solve_decision. Defined.

Record PortInfo : Type := {
  portName : string;
  portType : FIRRTLType;
  direction : Direction
}.

#[global] Instance PortInfo_eq_dec : EqDecision PortInfo.
Proof. solve_decision. Defined.

Record ModuleModifications : Type := {
  portsToAdd : list (PortInfo * nat);
  connectionMap : gmap nat Value;
  uturns : list (Value * nat)
}.

Definition noModifications : ModuleModifications :=
  {| portsToAdd := []; connectionMap := ∅; uturns := [] |}.

(** [moduleModifications[mod]] makes the entry when it is missing. *)
Definition modificationsOf (mods : gmap Operation ModuleModifications)
    (m : Operation) : ModuleModifications :=
  default noModifications (mods !! m).

(** ** Name spaces

    [ModuleNamespace] and [Namespace::newName] are declared outside these
    sources; they are parameters. *)
Class NamespaceOps : Type := {
  Namespace : Type;
  ModuleNamespace : IR → Operation → Namespace;
  newName : Namespace → string → string * Namespace
}.

Section LowerAnnotations.
Context {namespaceOps : NamespaceOps}.

(** ** [ApplyState]

    [worklistAttrs] and [numAdded] are the two variables that the
    [addToWorklistFn] closure of [runOnOperation] holds by reference;
    [diagnostics] are the errors emitted so far. *)
Record ApplyState : Type := {
  circuit : Operation;
  ir : IR;
  diagnostics : list Diagnostic;
  worklistAttrs : list DictionaryAttr;
  numAdded : nat;
  instancePathCache : InstancePathCache;
  instPathToNLAMap : list (list Attribute * string);
  numReusedHierPaths : nat;
  wiringProblems : list WiringProblem;
  namespaces : gmap Operation Namespace
}.

Definition setIr (st : ApplyState) (x : IR) : ApplyState :=
  {| circuit := circuit st; ir := x; diagnostics := diagnostics st;
     worklistAttrs := worklistAttrs st; numAdded := numAdded st;
     instancePathCache := instancePathCache st;
     instPathToNLAMap := instPathToNLAMap st;
     numReusedHierPaths := numReusedHierPaths st;
     wiringProblems := wiringProblems st; namespaces := namespaces st |}.

Definition setDiagnostics (st : ApplyState) (x : list Diagnostic) : ApplyState :=
  {| circuit := circuit st; ir := ir st; diagnostics := x;
     worklistAttrs := worklistAttrs st; numAdded := numAdded st;
     instancePathCache := instancePathCache st;
     instPathToNLAMap := instPathToNLAMap st;
     numReusedHierPaths := numReusedHierPaths st;
     wiringProblems := wiringProblems st; namespaces := namespaces st |}.

Definition setWorklistAttrs (st : ApplyState) (x : list DictionaryAttr) : ApplyState :=
  {| circuit := circuit st; ir := ir st; diagnostics := diagnostics st;
     worklistAttrs := x; numAdded := numAdded st;
     instancePathCache := instancePathCache st;
     instPathToNLAMap := instPathToNLAMap st;
     numReusedHierPaths := numReusedHierPaths st;
     wiringProblems := wiringProblems st; namespaces := namespaces st |}.

Definition setNumAdded (st : ApplyState) (x : nat) : ApplyState :=
  {| circuit := circuit st; ir := ir st; diagnostics := diagnostics st;
     worklistAttrs := worklistAttrs st; numAdded := x;
     instancePathCache := instancePathCache st;
     instPathToNLAMap := instPathToNLAMap st;
     numReusedHierPaths := numReusedHierPaths st;
     wiringProblems := wiringProblems st; namespaces := namespaces st |}.

Definition setInstancePathCache (st : ApplyState) (x : InstancePathCache) : ApplyState :=
  {| circuit := circuit st; ir := ir st; diagnostics := diagnostics st;
     worklistAttrs := worklistAttrs st; numAdded := numAdded st;
     instancePathCache := x;
     instPathToNLAMap := instPathToNLAMap st;
     numReusedHierPaths := numReusedHierPaths st;
     wiringProblems := wiringProblems st; namespaces := namespaces st |}.

Definition setInstPathToNLAMap (st : ApplyState) (x : list (list Attribute * string)) : ApplyState :=
  {| circuit := circuit st; ir := ir st; diagnostics := diagnostics st;
     worklistAttrs := worklistAttrs st; numAdded := numAdded st;
     instancePathCache := instancePathCache st;
     instPathToNLAMap := x;
     numReusedHierPaths := numReusedHierPaths st;
     wiringProblems := wiringProblems st; namespaces := namespaces st |}.

Definition setNumReusedHierPaths (st : ApplyState) (x : nat) : ApplyState :=
  {| circuit := circuit st; ir := ir st; diagnostics := diagnostics st;
     worklistAttrs := worklistAttrs st; numAdded := numAdded st;
     instancePathCache := instancePathCache st;
     instPathToNLAMap := instPathToNLAMap st;
     numReusedHierPaths := x;
     wiringProblems := wiringProblems st; namespaces := namespaces st |}.

Definition setNamespaces (st : ApplyState) (x : gmap Operation Namespace) : ApplyState :=
  {| circuit := circuit st; ir := ir st; diagnostics := diagnostics st;
     worklistAttrs := worklistAttrs st; numAdded := numAdded st;
     instancePathCache := instancePathCache st;
     instPathToNLAMap := instPathToNLAMap st;
     numReusedHierPaths := numReusedHierPaths st;
     wiringProblems := wiringProblems st; namespaces := x |}.

(** Code that works on the [ApplyState] and can stop on an assertion. *)
Definition ApplyM (A : Type) : Type := ApplyState → Result (A * ApplyState).

#[global] Instance ApplyM_ret : MRet ApplyM := fun _ a st => Ok (a, st).
#[global] Instance ApplyM_bind : MBind ApplyM := fun _ _ k m st =>
  match m st with
  | Ok (a, st) => k a st
  | Fail f => Fail f
  end.

Definition getState : ApplyM ApplyState := fun st => Ok (st, st).
Definition modifyState (f : ApplyState → ApplyState) : ApplyM unit :=
  fun st => Ok (tt, f st).
Definition liftResult {A} (r : Result A) : ApplyM A := fun st =>
  match r with Ok a => Ok (a, st) | Fail f => Fail f end.

(** [mlir::emitError(loc) << ...] *)
Definition emitError (d : Diagnostic) : ApplyM unit :=
  modifyState (fun st => setDiagnostics st (push_back (diagnostics st) d)).

(** The [addToWorklist] lambda of [runOnOperation]. *)
Definition addToWorklist (anno : DictionaryAttr) : ApplyM unit :=
  modifyState (fun st => setWorklistAttrs (setNumAdded st (numAdded st + 1))
                           (push_back (worklistAttrs st) anno)).

(** Modelled from the spec: [ApplyState::getNamespace] is declared with
    [ApplyState], outside these sources.  Per the spec each module has one
    name-uniquing name space; it is made from the module when it is first
    asked for and kept. *)
Definition getNamespace (module : Operation) : ApplyM Namespace := fun st =>
  match namespaces st !! module with
  | Some ns => Ok (ns, st)
  | None =>
    let ns := ModuleNamespace (ir st) module in
    Ok (ns, setNamespaces st (<[module := ns]> (namespaces st)))
  end.

(** [state.getNamespace(module).newName(hint)] *)
Definition getNamespace_newName (module : Operation) (hint : string) : ApplyM string :=
  ns ← getNamespace module;
  let '(name, ns) := newName ns hint in
  _ ← modifyState (fun st => setNamespaces st (<[module := ns]> (namespaces st)));
  mret name.

Definition Resolver : Type := DictionaryAttr → ApplyM (option AnnoPathValue).
Definition Applier : Type := AnnoPathValue → DictionaryAttr → ApplyM LogicalResult.

(** The names of the annotation classes that [AnnotationDetails.h] defines. *)
Inductive AnnoClassName : Type :=
| extractGrandCentralClass | grandCentralHierarchyFileAnnoClass
| serializedViewAnnoClass | viewAnnoClass | companionAnnoClass | parentAnnoClass
| augmentedGroundTypeClass | dataTapsClass | dataTapsBlackboxClass
| referenceKeySourceClass | referenceKeyPortClass | internalKeySourceClass
| internalKeyPortClass | deletedKeyClass | literalKeyClass | memTapClass
| memTapSourceClass | memTapPortClass | memTapBlackboxClass
| signalDriverAnnoClass | signalDriverTargetAnnoClass
| signalDriverModuleAnnoClass | omirAnnoClass | omirTrackerAnnoClass
| omirFileAnnoClass | dontTouchAnnoClass | prefixModulesAnnoClass
| dutAnnoClass | extractSeqMemsAnnoClass | injectDUTHierarchyAnnoClass
| convertMemToRegOfVecAnnoClass | excludeMemToRegAnnoClass
| sitestBlackBoxAnnoClass | enumComponentAnnoClass | enumDefAnnoClass
| enumVecAnnoClass | forceNameAnnoClass | flattenAnnoClass | inlineAnnoClass
| noDedupAnnoClass | blackBoxInlineAnnoClass | dontObfuscateModuleAnnoClass
| verifBlackBoxAnnoClass | elaborationArtefactsDirectoryAnnoClass
| subCircuitsTargetDirectoryAnnoClass | retimeModulesFileAnnoClass
| retimeModuleAnnoClass | metadataDirectoryAttrName | moduleHierAnnoClass
| sitestTestHarnessBlackBoxAnnoClass | testBenchDirAnnoClass
| testHarnessHierAnnoClass | testHarnessPathAnnoClass
| prefixInterfacesAnnoClass | subCircuitDirAnnotation | extractAssertAnnoClass
| extractAssumeAnnoClass | extractCoverageAnnoClass
| dftTestModeEnableAnnoClass | runFIRRTLTransformAnnoClass
| mustDedupAnnoClass | addSeqMemPortAnnoClass | addSeqMemPortsFileAnnoClass
| extractClockGatesAnnoClass | fullAsyncResetAnnoClass
| ignoreFullAsyncResetAnnoClass | decodeTableAnnotation
| blackBoxTargetDirAnnoClass | traceNameAnnoClass | traceAnnoClass.

(** What this file uses and other files of the repository define: the
    class name strings, the target path parser and resolver, the appliers of
    Grand Central, OMIR and trace names, the parts of building a
    hierarchical path that touch symbols, and the rewriting of one module
    in the last phase of [runOnOperation]. *)
Class Externals : Type := {
  className : AnnoClassName → string;
  TokenAnnoTarget : Type;
  canonicalizeTarget : string → string;
  tokenizePath : string → option TokenAnnoTarget;
  resolveEntities : TokenAnnoTarget → ApplyM (option AnnoPathValue);
  applyGCTView : Applier;
  applyGCTDataTaps : Applier;
  applyGCTMemTaps : Applier;
  applyGCTSignalMappings : Applier;
  applyOMIR : Applier;
  applyTraceName : Applier;
  (* OpAnnoTarget(inst).getNLAReference(state.getNamespace(parent module)) *)
  getNLAReference : InstanceOp → ApplyM Attribute;
  (* target.ref.getModule().moduleNameAttr() *)
  moduleNameAttr : AnnoTarget → ApplyM string;
  (* the name under which symTbl.insert leaves the new op *)
  symTblInsert : string → ApplyM string;
  (* llvm::post_order(instanceGraph.getTopLevelNode()) *)
  post_order : InstanceGraph → list Node;
  (* lines 635-716: ports, connections and instance clones of one module *)
  updateModule : Operation → gmap Operation ModuleModifications →
                 ApplyM (gmap Operation ModuleModifications)
}.

End LowerAnnotations.

Section LowerAnnotationsPass.
Context {namespaceOps : NamespaceOps} {externals : Externals}.

(** A loop over a range whose body works on the [ApplyState]. *)
Fixpoint foldlM {A B} (f : A → B → ApplyM A) (a : A) (l : list B) : ApplyM A :=
  match l with
  | [] => mret a
  | b :: l => a' ← f a b; foldlM f a' l
  end.

(** [array[i]] *)
Definition elementAt {A} (array : list A) (i : nat) : Result A :=
  match array !! i with
  | Some x => Ok x
  | None => Fail InvalidAccess
  end.

(** [attr.cast<StringAttr>().getValue()] *)
Definition castStringAttr (attr : Attribute) : Result string :=
  match attr with
  | StringAttr s => Ok s
  | _ => Fail AssertionFailed
  end.

(** Get annotations or an empty set of annotations. *)
Definition getAnnotationsFrom (design : IR) (op : Operation) : list DictionaryAttr :=
  default [] (annotationsAttr design !! op).

(** Construct the annotation array with a new thing appended. *)
Definition appendArrayAttr (array : option (list DictionaryAttr)) (a : DictionaryAttr)
    : list DictionaryAttr :=
  match array with
  | None => [a]
  | Some old => push_back old a
  end.

(** Update an ArrayAttribute by replacing one entry. *)
Definition replaceArrayAttrElement {A} (array : list A) (elem : nat) (newVal : A)
    : Result (list A) :=
  if decide (elem < length array) then Ok (<[elem := newVal]> array)
  else Fail InvalidAccess.

(** Apply a new annotation to a resolved target. *)
Definition addAnnotation (ref : AnnoTarget) (fieldIdx : nat)
    (anno : list NamedAttribute) : ApplyM unit :=
  let annotation :=
    if decide (fieldIdx ≠ 0) then
      DictionaryAttr_get
        (push_back anno ("circt.fieldID", IntegerAttr (N.of_nat fieldIdx)))
    else DictionaryAttr_get anno in
  st ← getState;
  match ref with
  | OpAnnoTarget op =>
    let newAnno := appendArrayAttr (Some (getAnnotationsFrom (ir st) op)) annotation in
    modifyState (fun st => setIr st (setAnnotationsAttr (ir st)
                                       (<[op := newAnno]> (annotationsAttr (ir st)))))
  | PortAnnoTarget op portNo =>
    let emptyPortAttr := replicate (getNumPorts (ir st) op) [] in
    let portAnno :=
      match portAnnotationsAttr (ir st) !! op with
      | Some portAnno =>
        if decide (length portAnno ≠ getNumPorts (ir st) op) then emptyPortAttr
        else portAnno
      | None => emptyPortAttr
      end in
    old ← liftResult (elementAt portAnno portNo);
    portAnno ← liftResult (replaceArrayAttrElement portAnno portNo
                             (appendArrayAttr (Some old) annotation));
    modifyState (fun st => setIr st (setPortAnnotationsAttr (ir st)
                                       (<[op := portAnno]> (portAnnotationsAttr (ir st)))))
  end.

(** [instPathToNLAMap.find(instAttr)] *)
Fixpoint findNLA (map : list (list Attribute * string)) (instAttr : list Attribute)
    : option string :=
  match map with
  | [] => None
  | (k, sym) :: map => if decide (k = instAttr) then Some sym else findNLA map instAttr
  end.

(** Make an anchor for a non-local annotation. *)
Definition buildNLA (target : AnnoPathValue) : ApplyM string :=
  insts ← foldlM (fun insts inst =>
                    r ← getNLAReference inst; mret (push_back insts r))
                 [] (instances target);
  name ← moduleNameAttr (ref target);
  let instAttr := push_back insts (FlatSymbolRefAttr name) in
  st ← getState;
  (* Re-use NLA for this path if already created. *)
  match findNLA (instPathToNLAMap st) instAttr with
  | Some sym =>
    _ ← modifyState (fun st => setNumReusedHierPaths st (numReusedHierPaths st + 1));
    mret sym
  | None =>
    (* Create the NLA *)
    sym ← symTblInsert "nla";
    _ ← modifyState (fun st => setIr st (addHierPathOp (ir st) sym instAttr));
    _ ← modifyState (fun st =>
           setInstPathToNLAMap st
             (match findNLA (instPathToNLAMap st) instAttr with
              | Some _ => instPathToNLAMap st
              | None => push_back (instPathToNLAMap st) (instAttr, sym)
              end));
    mret sym
  end.

Definition scatterNonLocalPath (target : AnnoPathValue) : ApplyM string :=
  buildNLA target.

(** *** Standard utility resolvers *)

(** [AnnoPathValue(state.circuit)] *)
Definition circuitTarget (st : ApplyState) : AnnoPathValue :=
  {| instances := []; ref := OpAnnoTarget (circuit st); fieldIdx := 0 |}.

(** Always resolve to the circuit, ignoring the annotation. *)
Definition noResolve : Resolver := fun anno =>
  st ← getState; mret (Some (circuitTarget st)).

(** Implementation of standard resolution. *)
Definition stdResolveImpl (rawPath : string) : ApplyM (option AnnoPathValue) :=
  let pathStr := canonicalizeTarget rawPath in
  match tokenizePath pathStr with
  | None => _ ← emitError (CannotTokenize rawPath); mret None
  | Some tokens => resolveEntities tokens
  end.

(** (SFC) FIRRTL SingleTargetAnnotation resolver. *)
Definition stdResolve : Resolver := fun anno =>
  match getNamed anno "target" with
  | None => _ ← emitError (NoTargetField anno); mret None
  | Some (StringAttr rawPath) => stdResolveImpl rawPath
  | Some _ => _ ← emitError (TargetNotString anno); mret None
  end.

(** Resolves with target, if it exists.  If not, resolves to the circuit. *)
Definition tryResolve : Resolver := fun anno =>
  match getNamed anno "target" with
  | Some target => rawPath ← liftResult (castStringAttr target); stdResolveImpl rawPath
  | None => st ← getState; mret (Some (circuitTarget st))
  end.

(** *** Standard utility appliers *)

(** An applier which puts the annotation on the target and drops the
    'target' field from the annotation. *)
Definition applyWithoutTargetImpl (target : AnnoPathValue) (anno : DictionaryAttr)
    (allowNonLocal : bool) : ApplyM LogicalResult :=
  if negb allowNonLocal && negb (isLocal target) then
    _ ← emitError (NonLocalNotAllowed (getOp (ref target)) anno);
    mret failure
  else
    newAnnoAttrs ←
      foldlM (fun newAnnoAttrs (na : NamedAttribute) =>
                if decide (na.1 ≠ "target") then mret (push_back newAnnoAttrs na)
                else if negb (isLocal target) then
                  sym ← scatterNonLocalPath target;
                  mret (push_back newAnnoAttrs ("circt.nonlocal", FlatSymbolRefAttr sym))
                else mret newAnnoAttrs)
             [] anno;
    _ ← addAnnotation (ref target) (fieldIdx target) newAnnoAttrs;
    mret success.

(** [target.isOpOfType<T, Tr...>()] *)
Definition isOpOfType (design : IR) (target : AnnoPathValue) (kinds : list OpKind.t) : bool :=
  match ref target with
  | OpAnnoTarget op => bool_decide (kindOf design op ∈ kinds)
  | PortAnnoTarget _ _ => false
  end.

(** [applyWithoutTarget<allowNonLocal, allowPortAnnoTarget, T, Tr...>] *)
Definition applyWithoutTargetOn (allowNonLocal allowPortAnnoTarget : bool)
    (kinds : list OpKind.t) : Applier := fun target anno =>
  st ← getState;
  match ref target with
  | PortAnnoTarget _ _ =>
    if negb allowPortAnnoTarget then mret failure
    else applyWithoutTargetImpl target anno allowNonLocal
  | OpAnnoTarget _ =>
    if negb (isOpOfType (ir st) target kinds) then mret failure
    else applyWithoutTargetImpl target anno allowNonLocal
  end.

(** [applyWithoutTarget<allowNonLocal>] *)
Definition applyWithoutTarget (allowNonLocal : bool) : Applier := fun target anno =>
  applyWithoutTargetImpl target anno allowNonLocal.

(** Just drop the annotation. *)
Definition drop : Applier := fun target anno => mret success.

(** *** Driving table *)

Record AnnoRecord : Type := {
  resolver : Resolver;
  applier : Applier
}.

Definition NoTargetAnnotation : AnnoRecord :=
  {| resolver := noResolve;
     applier := applyWithoutTargetOn false false [OpKind.CircuitOp] |}.

Definition rec (r : Resolver) (a : Applier) : AnnoRecord :=
  {| resolver := r; applier := a |}.

Definition annotationRecords : list (string * AnnoRecord) :=
  let C := className in
  let OnNL := applyWithoutTarget true in
  let Local := applyWithoutTarget false in
  [ (* Testing Annotation *)
    ("circt.test", rec stdResolve OnNL);
    ("circt.testLocalOnly", rec stdResolve Local);
    ("circt.testNT", rec noResolve Local);
    ("circt.missing", rec tryResolve OnNL);
    (* Grand Central Views/Interfaces Annotations *)
    (C extractGrandCentralClass, NoTargetAnnotation);
    (C grandCentralHierarchyFileAnnoClass, NoTargetAnnotation);
    (C serializedViewAnnoClass, rec noResolve applyGCTView);
    (C viewAnnoClass, rec noResolve applyGCTView);
    (C companionAnnoClass, rec stdResolve Local);
    (C parentAnnoClass, rec stdResolve Local);
    (C augmentedGroundTypeClass, rec stdResolve OnNL);
    (* Grand Central Data Tap Annotations *)
    (C dataTapsClass, rec noResolve applyGCTDataTaps);
    (C dataTapsBlackboxClass, rec stdResolve OnNL);
    (C referenceKeySourceClass, rec stdResolve OnNL);
    (C referenceKeyPortClass, rec stdResolve OnNL);
    (C internalKeySourceClass, rec stdResolve OnNL);
    (C internalKeyPortClass, rec stdResolve OnNL);
    (C deletedKeyClass, rec stdResolve OnNL);
    (C literalKeyClass, rec stdResolve OnNL);
    (* Grand Central Mem Tap Annotations *)
    (C memTapClass, rec noResolve applyGCTMemTaps);
    (C memTapSourceClass, rec stdResolve OnNL);
    (C memTapPortClass, rec stdResolve OnNL);
    (C memTapBlackboxClass, rec stdResolve OnNL);
    (* Grand Central Signal Mapping Annotations *)
    (C signalDriverAnnoClass, rec noResolve applyGCTSignalMappings);
    (C signalDriverTargetAnnoClass, rec stdResolve OnNL);
    (C signalDriverModuleAnnoClass, rec stdResolve OnNL);
    (* OMIR Annotations *)
    (C omirAnnoClass, rec noResolve applyOMIR);
    (C omirTrackerAnnoClass, rec stdResolve OnNL);
    (C omirFileAnnoClass, NoTargetAnnotation);
    (* Miscellaneous Annotations *)
    (C dontTouchAnnoClass,
     rec stdResolve
         (applyWithoutTargetOn true true
            [OpKind.WireOp; OpKind.NodeOp; OpKind.RegOp; OpKind.RegResetOp;
             OpKind.InstanceOp; OpKind.MemOp; OpKind.CombMemOp;
             OpKind.MemoryPortOp; OpKind.SeqMemOp]));
    (C prefixModulesAnnoClass,
     rec stdResolve
         (applyWithoutTargetOn true false
            [OpKind.FModuleOp; OpKind.FExtModuleOp; OpKind.InstanceOp]));
    (C dutAnnoClass,
     rec stdResolve (applyWithoutTargetOn false false [OpKind.FModuleOp]));
    (C extractSeqMemsAnnoClass, NoTargetAnnotation);
    (C injectDUTHierarchyAnnoClass, NoTargetAnnotation);
    (C convertMemToRegOfVecAnnoClass, NoTargetAnnotation);
    (C excludeMemToRegAnnoClass,
     rec stdResolve
         (applyWithoutTargetOn true false [OpKind.MemOp; OpKind.CombMemOp]));
    (C sitestBlackBoxAnnoClass, NoTargetAnnotation);
    (C enumComponentAnnoClass, rec noResolve drop);
    (C enumDefAnnoClass, rec noResolve drop);
    (C enumVecAnnoClass, rec noResolve drop);
    (C forceNameAnnoClass,
     rec stdResolve
         (applyWithoutTargetOn true false [OpKind.FModuleOp; OpKind.FExtModuleOp]));
    (C flattenAnnoClass,
     rec stdResolve (applyWithoutTargetOn false false [OpKind.FModuleOp]));
    (C inlineAnnoClass,
     rec stdResolve (applyWithoutTargetOn false false [OpKind.FModuleOp]));
    (C noDedupAnnoClass,
     rec stdResolve
         (applyWithoutTargetOn false false [OpKind.FModuleOp; OpKind.FExtModuleOp]));
    (C blackBoxInlineAnnoClass,
     rec stdResolve (applyWithoutTargetOn false false [OpKind.FExtModuleOp]));
    (C dontObfuscateModuleAnnoClass,
     rec stdResolve (applyWithoutTargetOn false false [OpKind.FModuleOp]));
    (C verifBlackBoxAnnoClass,
     rec stdResolve (applyWithoutTargetOn false false [OpKind.FExtModuleOp]));
    (C elaborationArtefactsDirectoryAnnoClass, NoTargetAnnotation);
    (C subCircuitsTargetDirectoryAnnoClass, NoTargetAnnotation);
    (C retimeModulesFileAnnoClass, NoTargetAnnotation);
    (C retimeModuleAnnoClass,
     rec stdResolve
         (applyWithoutTargetOn false false [OpKind.FModuleOp; OpKind.FExtModuleOp]));
    (C metadataDirectoryAttrName, NoTargetAnnotation);
    (C moduleHierAnnoClass, NoTargetAnnotation);
    (C sitestTestHarnessBlackBoxAnnoClass, NoTargetAnnotation);
    (C testBenchDirAnnoClass, NoTargetAnnotation);
    (C testHarnessHierAnnoClass, NoTargetAnnotation);
    (C testHarnessPathAnnoClass, NoTargetAnnotation);
    (C prefixInterfacesAnnoClass, NoTargetAnnotation);
    (C subCircuitDirAnnotation, NoTargetAnnotation);
    (C extractAssertAnnoClass, NoTargetAnnotation);
    (C extractAssumeAnnoClass, NoTargetAnnotation);
    (C extractCoverageAnnoClass, NoTargetAnnotation);
    (C dftTestModeEnableAnnoClass, rec stdResolve OnNL);
    (C runFIRRTLTransformAnnoClass, rec noResolve drop);
    (C mustDedupAnnoClass, NoTargetAnnotation);
    (C addSeqMemPortAnnoClass, NoTargetAnnotation);
    (C addSeqMemPortsFileAnnoClass, NoTargetAnnotation);
    (C extractClockGatesAnnoClass, NoTargetAnnotation);
    (C fullAsyncResetAnnoClass, rec stdResolve OnNL);
    (C ignoreFullAsyncResetAnnoClass,
     rec stdResolve (applyWithoutTargetOn true false [OpKind.FModuleOp]));
    (C decodeTableAnnotation, rec noResolve drop);
    (C blackBoxTargetDirAnnoClass, NoTargetAnnotation);
    (C traceNameAnnoClass, rec stdResolve applyTraceName);
    (C traceAnnoClass, rec stdResolve OnNL) ].

(** [annotationRecords.find(annoStr)]: a [StringMap] built from the list
    keeps, for a key listed twice, the entry listed first. *)
Fixpoint findRecord (records : list (string * AnnoRecord)) (annoStr : string)
    : option AnnoRecord :=
  match records with
  | [] => None
  | (k, r) :: records =>
    if decide (k = annoStr) then Some r else findRecord records annoStr
  end.

(** Lookup a record for a given annotation class.  Optionally, returns the
    record for "circuit.missing" if the record doesn't exist. *)
Definition getAnnotationHandler (annoStr : string) (ignoreUnhandledAnno : bool)
    : option AnnoRecord :=
  match findRecord annotationRecords annoStr with
  | Some r => Some r
  | None =>
    if ignoreUnhandledAnno then findRecord annotationRecords "circt.missing"
    else None
  end.

Definition isAnnoClassLowered (className : string) : bool :=
  bool_decide (is_Some (findRecord annotationRecords className)).

(** *** Pass infrastructure *)

Record LowerAnnotationsPass : Type := {
  ignoreUnhandledAnno : bool;
  ignoreClasslessAnno : bool;
  (* statistics *)
  numRawAnnotations : nat;
  numAddedAnnos : nat;
  numAnnos : nat;
  numUnhandled : nat;
  numReusedHierPathOps : nat;
  (* signalPassFailure() was called *)
  passFailed : bool
}.

(** [createLowerFIRRTLAnnotationsPass] *)
Definition createLowerFIRRTLAnnotationsPass
    (ignoreUnhandledAnnotations ignoreClasslessAnnotations : bool)
    : LowerAnnotationsPass :=
  {| ignoreUnhandledAnno := ignoreUnhandledAnnotations;
     ignoreClasslessAnno := ignoreClasslessAnnotations;
     numRawAnnotations := 0; numAddedAnnos := 0; numAnnos := 0;
     numUnhandled := 0; numReusedHierPathOps := 0; passFailed := false |}.

Definition incrNumUnhandled (pass : LowerAnnotationsPass) : LowerAnnotationsPass :=
  {| ignoreUnhandledAnno := ignoreUnhandledAnno pass;
     ignoreClasslessAnno := ignoreClasslessAnno pass;
     numRawAnnotations := numRawAnnotations pass;
     numAddedAnnos := numAddedAnnos pass; numAnnos := numAnnos pass;
     numUnhandled := numUnhandled pass + 1;
     numReusedHierPathOps := numReusedHierPathOps pass;
     passFailed := passFailed pass |}.

(** "Try to apply the annotation": the last part of [applyAnnotation]. *)
Definition applyRecord (record : AnnoRecord) (anno : DictionaryAttr)
    : ApplyM LogicalResult :=
  target ← resolver record anno;
  match target with
  | None => _ ← emitError (UnableToResolveTarget anno); mret failure
  | Some target =>
    r ← applier record target anno;
    if failed r then _ ← emitError (UnableToApplyAnnotation anno); mret failure
    else mret success
  end.

Definition applyAnnotation (pass : LowerAnnotationsPass) (anno : DictionaryAttr)
    : ApplyM (LogicalResult * LowerAnnotationsPass) :=
  (* Lookup the class *)
  match
    match getNamed anno "class" with
    | Some annoClass => Some (castStringAttr annoClass)
    | None => if ignoreClasslessAnno pass then Some (Ok "circt.missing") else None
    end
  with
  | None => _ ← emitError (AnnotationWithoutClass anno); mret (failure, pass)
  | Some annoClassVal =>
    annoClassVal ← liftResult annoClassVal;
    (* See if we handle the class *)
    match getAnnotationHandler annoClassVal false with
    | Some record => r ← applyRecord record anno; mret (r, pass)
    | None =>
      let pass := incrNumUnhandled pass in
      if negb (ignoreUnhandledAnno pass) then
        _ ← emitError (UnhandledAnnotation anno); mret (failure, pass)
      else
        (* Try again, requesting the fallback handler. *)
        match getAnnotationHandler annoClassVal (ignoreUnhandledAnno pass) with
        | None => liftResult (Fail AssertionFailed)
        | Some record => r ← applyRecord record anno; mret (r, pass)
        end
    end
  end.

(** The [while (!worklistAttrs.empty())] loop of [runOnOperation].  An
    applier may push annotations, so the number of turns is not bounded by
    the list; [fuel] bounds it. *)
Fixpoint processWorklist (fuel : nat) (pass : LowerAnnotationsPass)
    (numFailures : nat) : ApplyM (nat * LowerAnnotationsPass) :=
  match fuel with
  | 0 => liftResult (Fail OutOfFuel)
  | S fuel =>
    st ← getState;
    match pop_back_val (worklistAttrs st) with
    | None => mret (numFailures, pass)
    | Some (attr, rest) =>
      _ ← modifyState (fun st => setWorklistAttrs st rest);
      '(r, pass) ← applyAnnotation pass attr;
      processWorklist fuel pass
        (if failed r then numFailures + 1 else numFailures)
    end
  end.

(** *** Wiring problems: grouping by module, LCA, ports to add *)

(** [cast<FModuleOp>(op)] *)
Definition castFModuleOp (design : IR) (op : Operation) : Result Operation :=
  if decide (kindOf design op = OpKind.FModuleOp) then Ok op
  else Fail AssertionFailed.

(** [value.getDefiningOp()->getParentOfType<FModuleOp>()] *)
Definition getParentModule (v : Value) : Result Operation :=
  match parentModule v with
  | Some m => Ok m
  | None => Fail InvalidAccess
  end.

(** [moduleModifications[module].connectionMap[index] = value] *)
Definition setConnection (mods : gmap Operation ModuleModifications)
    (module : Operation) (index : nat) (v : Value)
    : gmap Operation ModuleModifications :=
  let m := modificationsOf mods module in
  <[module := {| portsToAdd := portsToAdd m;
                 connectionMap := <[index := v]> (connectionMap m);
                 uturns := uturns m |}]> mods.

(** [moduleModifications[module].portsToAdd.push_back({port, index})] *)
Definition pushPort (mods : gmap Operation ModuleModifications)
    (module : Operation) (port : PortInfo) (index : nat)
    : gmap Operation ModuleModifications :=
  let m := modificationsOf mods module in
  <[module := {| portsToAdd := push_back (portsToAdd m) (port, index);
                 connectionMap := connectionMap m;
                 uturns := uturns m |}]> mods.

(** [instancePathCache.getAbsolutePaths(module)] on the cache of the state. *)
Definition cacheGetAbsolutePaths (fuel : nat) (module : Operation) : ApplyM PathList :=
  fun st =>
    match getAbsolutePaths fuel module (instancePathCache st) with
    | Ok (paths, c) => Ok (paths, setInstancePathCache st c)
    | Fail f => Fail f
    end.

(** The loop
    [while (!sources.empty() || sinks.empty()) { if (sources[0] != sinks[0]) break; ... }],
    on the instances the two [ArrayRef]s show; [drop_front] is [tail]. *)
Fixpoint lcaLoop (design : IR) (lca : Operation) (sources sinks : list InstanceOp)
    {struct sources} : Result (Operation * list InstanceOp * list InstanceOp) :=
  if negb (bool_decide (sources = [])) || bool_decide (sinks = []) then
    s0 ← elementAt sources 0;
    k0 ← elementAt sinks 0;
    if bool_decide (s0 ≠ k0) then Ok (lca, sources, sinks)
    else
      let newLCA := s0 in
      lca ← castFModuleOp design (getReferencedModule design newLCA);
      match sources with
      | [] => Fail InvalidAccess
      | _ :: sources => lcaLoop design lca sources (tail sinks)
      end
  else Ok (lca, sources, sinks).

(** The type of the ports of one problem. *)
Definition wiringPortType (problem : WiringProblem) : Result FIRRTLType :=
  if isRefType problem then
    (* RefType::get(cast<FIRRTLBaseType>(problem.source.getType())) *)
    match getType (source problem) with
    | BaseType b => Ok (RefType b)
    | RefType _ => Fail AssertionFailed
    end
  else Ok (getType (source problem)).

(** The body of the two loops that record the ports to add. *)
Definition recordPort (dir : Direction) (problem : WiringProblem) (index : nat)
    (mods : gmap Operation ModuleModifications) (inst : InstanceOp)
    : ApplyM (gmap Operation ModuleModifications) :=
  st ← getState;
  module ← liftResult (castFModuleOp (ir st) (getReferencedModule (ir st) inst));
  tpe ← liftResult (wiringPortType problem);
  name ← getNamespace_newName module (newNameHint problem);
  mret (pushPort mods module
          {| portName := name; portType := tpe; direction := dir |} index).

(** Record ports to add from LCA to source, LCA to sink: the loops over
    what is left of [sources] and of [sinks]. *)
Definition recordPorts (problem : WiringProblem) (index : nat)
    (mods : gmap Operation ModuleModifications) (sources sinks : list InstanceOp)
    : ApplyM (gmap Operation ModuleModifications) :=
  mods ← foldlM (recordPort Out problem index) mods sources;
  foldlM (recordPort In problem index) mods sinks.

(** The body of the loop over [llvm::enumerate(state.wiringProblems)]. *)
Definition groupProblem (fuel : nat) (mods : gmap Operation ModuleModifications)
    (entry : nat * WiringProblem) : ApplyM (gmap Operation ModuleModifications) :=
  let '(index, problem) := entry in
  (* Pre-populate source/sink module modifications connection values. *)
  sourceModule ← liftResult (getParentModule (source problem));
  let mods := setConnection mods sourceModule index (source problem) in
  sinkModule ← liftResult (getParentModule (sink problem));
  let mods := setConnection mods sinkModule index (sink problem) in
  sourcePaths ← cacheGetAbsolutePaths fuel sourceModule;
  _ ← liftResult (assert (bool_decide (listSize sourcePaths = 1)));
  sinkPaths ← cacheGetAbsolutePaths fuel sinkModule;
  _ ← liftResult (assert (bool_decide (listSize sinkPaths = 1)));
  (* Compute LCA between source and sink. *)
  st ← getState;
  let memory := allocator (instancePathCache st) in
  lca ← liftResult
          (castFModuleOp (ir st)
             (getTopLevelNode (instanceGraph (instancePathCache st))));
  sources ← liftResult (elementAt (readPaths memory sourcePaths) 0);
  sinks ← liftResult (elementAt (readPaths memory sinkPaths) 0);
  '(lca, sources, sinks) ←
    liftResult (lcaLoop (ir st) lca (readPath memory sources) (readPath memory sinks));
  recordPorts problem index mods sources sinks.

(** [llvm::enumerate] *)
Definition enumerate {A} (l : list A) : list (nat * A) := imap (fun i x => (i, x)) l.

(** The loop "Iterate over modules from leaves to roots, adding ports and
    connections"; what is done to a module that has modifications is
    [updateModule]. *)
Definition updateModules (mods : gmap Operation ModuleModifications)
    : ApplyM (gmap Operation ModuleModifications) :=
  st ← getState;
  foldlM (fun mods op =>
            st ← getState;
            fmodule ← liftResult (castFModuleOp (ir st) op);
            match mods !! fmodule with
            | None => mret mods
            | Some _ => updateModule fmodule mods
            end)
         mods (post_order (instanceGraph (instancePathCache st))).

Definition updateStatistics (pass : LowerAnnotationsPass) (annotations : list DictionaryAttr)
    (st : ApplyState) (numFailures : nat) : LowerAnnotationsPass :=
  {| ignoreUnhandledAnno := ignoreUnhandledAnno pass;
     ignoreClasslessAnno := ignoreClasslessAnno pass;
     numRawAnnotations := numRawAnnotations pass + length annotations;
     numAddedAnnos := numAddedAnnos pass + numAdded st;
     numAnnos := numAnnos pass + (numAdded st + length annotations);
     numUnhandled := numUnhandled pass;
     numReusedHierPathOps := numReusedHierPathOps pass + numReusedHierPaths st;
     (* if (numFailures) signalPassFailure(); *)
     passFailed := if decide (numFailures ≠ 0) then true else passFailed pass |}.

(** The state [runOnOperation] starts from: an empty worklist, a new
    [InstancePathCache] over the instance graph, a new [ApplyState]. *)
Definition initialState (circuitOp : Operation) (design : IR) (graph : InstanceGraph)
    : ApplyState :=
  {| circuit := circuitOp; ir := design; diagnostics := [];
     worklistAttrs := []; numAdded := 0;
     instancePathCache := newCache graph;
     instPathToNLAMap := []; numReusedHierPaths := 0;
     wiringProblems := []; namespaces := ∅ |}.

(** Populate the worklist in reverse order. *)
Definition populateWorklist (annotations : list DictionaryAttr) : ApplyM unit :=
  modifyState (fun st =>
    setWorklistAttrs st (foldl push_back (worklistAttrs st) (reverse annotations))).

(** This is the main entrypoint for the lowering pass.  [fuel] bounds the
    turns of the worklist loop and the depth of [getAbsolutePaths]. *)
Definition runOnOperation (fuel : nat) (pass : LowerAnnotationsPass)
    (circuitOp : Operation) (design : IR) (graph : InstanceGraph)
    : Result (LowerAnnotationsPass * ApplyState) :=
  match rawAnnotations design with
  | None => Ok (pass, initialState circuitOp design graph)
  | Some annotations =>
    let st := initialState circuitOp (removeRawAnnotations design) graph in
    '(pass, st) ←
      (_ ← populateWorklist annotations;
       '(numFailures, pass) ← processWorklist fuel pass 0;
       (* For all discovered Wiring Problems, record pending modifications
          to modules. *)
       st ← getState;
       mods ← foldlM (groupProblem fuel) ∅ (enumerate (wiringProblems st));
       _ ← updateModules mods;
       (* Update statistics *)
       st ← getState;
       mret (updateStatistics pass annotations st numFailures)) st;
    Ok (pass, st)
  end.

(** *** Notions used to state the properties of the wiring phase *)

(** The instance refers to an [FModuleOp], so the [cast<FModuleOp>] passes. *)
Definition isFModule (design : IR) (inst : InstanceOp) : Prop :=
  kindOf design (getReferencedModule design inst) = OpKind.FModuleOp.

#[global] Instance isFModule_dec design inst : Decision (isFModule design inst).
Proof. unfold isFModule. apply _. Defined.

(** The module the last instance of the common prefix refers to, or the
    module the loop starts from when the prefix is empty. *)
Definition lcaOf (design : IR) (top : Operation) (common : list InstanceOp) : Operation :=
  default top (last (getReferencedModule design <$> common)).


Definition isBaseType (t : FIRRTLType) : Prop :=
  match t with BaseType _ => True | RefType _ => False end.

#[global] Instance isBaseType_dec t : Decision (isBaseType t).
Proof. destruct t; apply _. Defined.



(** *** Notions used to state the properties of the driver *)

(** Running [m] leaves the worklist as it is: [m] enqueues nothing. *)
Definition keepsWorklist {A} (m : ApplyM A) : Prop :=
  ∀ st a st', m st = Ok (a, st') → worklistAttrs st' = worklistAttrs st.

(** No code of the other files enqueues an annotation. *)
Definition externalsKeepWorklist : Prop :=
  (∀ tokens, keepsWorklist (resolveEntities tokens))
  ∧ (∀ target anno, keepsWorklist (applyGCTView target anno))
  ∧ (∀ target anno, keepsWorklist (applyGCTDataTaps target anno))
  ∧ (∀ target anno, keepsWorklist (applyGCTMemTaps target anno))
  ∧ (∀ target anno, keepsWorklist (applyGCTSignalMappings target anno))
  ∧ (∀ target anno, keepsWorklist (applyOMIR target anno))
  ∧ (∀ target anno, keepsWorklist (applyTraceName target anno))
  ∧ (∀ inst, keepsWorklist (getNLAReference inst))
  ∧ (∀ ref, keepsWorklist (moduleNameAttr ref))
  ∧ (∀ name, keepsWorklist (symTblInsert name)).

Definition recordKeepsWorklist (r : AnnoRecord) : Prop :=
  (∀ anno, keepsWorklist (resolver r anno))
  ∧ (∀ target anno, keepsWorklist (applier r target anno)).

(** No assertion stops [applyAnnotation] on these annotations. *)
Definition applyReturns (annotations : list DictionaryAttr) : Prop :=
  ∀ anno pass st, anno ∈ annotations →
    ∃ res st', applyAnnotation pass anno st = Ok (res, st').

(** A run of the worklist loop, from the state at its head to the state in
    which the worklist is empty, with the annotations it popped, in the
    order in which it popped them, each with what [applyAnnotation] said. *)
Inductive processes :
    list (DictionaryAttr * LogicalResult) →
    LowerAnnotationsPass → ApplyState → LowerAnnotationsPass → ApplyState → Prop :=
| processes_done pass st :
    worklistAttrs st = [] → processes [] pass st pass st
| processes_step attr rest r trace pass pass1 pass' st st1 st' :
    pop_back_val (worklistAttrs st) = Some (attr, rest) →
    applyAnnotation pass attr (setWorklistAttrs st rest) = Ok ((r, pass1), st1) →
    processes trace pass1 st1 pass' st' →
    processes ((attr, r) :: trace) pass st pass' st'.

(** The annotations of a trace that failed. *)
Definition failures (trace : list (DictionaryAttr * LogicalResult)) : list DictionaryAttr :=
  (filter (fun e => failed e.2 = true) trace).*1.


(** The state with one more annotation on an operation. *)
Definition attached (st : ApplyState) (op : Operation) (annotation : DictionaryAttr)
    : ApplyState :=
  setIr st (setAnnotationsAttr (ir st)
              (<[op := push_back (getAnnotationsFrom (ir st) op) annotation]>
                 (annotationsAttr (ir st)))).

(** The record of "circt.missing", to which unknown classes fall back. *)
Definition missingRecord : AnnoRecord := rec tryResolve (applyWithoutTarget true).

End LowerAnnotationsPass.

(** ** Small designs to run the definitions on *)

(** Name spaces as lists of taken names; a taken hint gets a suffix. *)
Definition exampleNamespaceOps : NamespaceOps := {|
  Namespace := list string;
  ModuleNamespace := fun _ _ => [];
  newName := fun ns hint =>
    if decide (hint ∈ ns) then (hint +:+ "_0", (hint +:+ "_0") :: ns)
    else (hint, hint :: ns)
|}.

(** Root 0; 1 in 0 (site 20); 2 in 1 (site 21); 3 and 4 in 2 (sites 22, 23). *)
Definition wiringGraph : InstanceGraph := {|
  nodeMap := {[ 0 := [];
                1 := [ {| getInstance := 20; getParent := 0; getTarget := 1 |} ];
                2 := [ {| getInstance := 21; getParent := 1; getTarget := 2 |} ];
                3 := [ {| getInstance := 22; getParent := 2; getTarget := 3 |} ];
                4 := [ {| getInstance := 23; getParent := 2; getTarget := 4 |} ] ]};
  getTopLevelNode := 0
|}.

(** Operations 0 to 9 are modules, 100 is the circuit, the others are
    instances; the instances of [exampleGraph] and of [wiringGraph] refer
    to the modules the graphs say. *)
Definition exampleDesign : IR := {|
  kindOf := fun op =>
    if decide (op < 10) then OpKind.FModuleOp
    else if decide (op = 100) then OpKind.CircuitOp
    else OpKind.InstanceOp;
  getNumPorts := fun _ => 0;
  getReferencedModule := fun inst =>
    match inst with
    | 10 => 1 | 11 => 2 | 12 => 2
    | 20 => 1 | 21 => 2 | 22 => 3 | 23 => 4
    | _ => 0
    end;
  rawAnnotations := None;
  annotationsAttr := ∅;
  portAnnotationsAttr := ∅;
  hierPathOps := [];
  symbols := ∅
|}.

Definition exampleValue (id : nat) (module : Operation) : Value :=
  {| valueId := id; getType := BaseType 0; parentModule := Some module |}.

Definition exampleProblem (sourceModule sinkModule : Operation) : WiringProblem :=
  {| source := exampleValue 1 sourceModule;
     sink := exampleValue 2 sinkModule;
     newNameHint := "tap";
     isRefType := true |}.

Definition exampleState (graph : InstanceGraph) : @ApplyState exampleNamespaceOps :=
  initialState 100 exampleDesign graph.

(** What is left in [portsToAdd] of the modules 2, 3 and 4. *)
Definition portsPlanned (r : Result (gmap Operation ModuleModifications
                                     * @ApplyState exampleNamespaceOps))
    : Result (list (list (PortInfo * nat))) :=
  (fun x => (fun m => portsToAdd (modificationsOf x.1 m)) <$> [2; 3; 4]) <$> r.

(** A stand-in for the other files: one known class name, a target
    resolver that knows the top module, appliers that accept everything. *)
Definition exampleExternals : @Externals exampleNamespaceOps := {|
  className := fun _ => "firrtl.known";
  TokenAnnoTarget := string;
  canonicalizeTarget := fun s => s;
  tokenizePath := fun s => if decide (s = "") then None else Some s;
  resolveEntities := fun tokens =>
    if decide (tokens = "~Top|Top") then
      mret (Some {| instances := []; ref := OpAnnoTarget 0; fieldIdx := 0 |})
    else
      _ ← emitError (OtherDiagnostic "cannot resolve"); mret None;
  applyGCTView := fun _ _ => mret success;
  applyGCTDataTaps := fun _ _ => mret success;
  applyGCTMemTaps := fun _ _ => mret success;
  applyGCTSignalMappings := fun _ _ => mret success;
  applyOMIR := fun _ _ => mret success;
  applyTraceName := fun _ _ => mret success;
  getNLAReference := fun _ => mret (InnerRefAttr "Top" "inst");
  moduleNameAttr := fun _ => mret "Top";
  symTblInsert := fun name => mret name;
  post_order := fun g => filter (fun m => m ∈ dom (nodeMap g)) [4; 3; 2; 1; 0];
  updateModule := fun _ mods => mret mods
|}.

Definition classAnno (class name : string) : DictionaryAttr :=
  [("class", StringAttr class); ("name", StringAttr name)].

(** Three annotations, the second of a class that has no handler. *)
Definition threeAnnotations : list DictionaryAttr :=
  [ classAnno "circt.testNT" "first";
    classAnno "foo.Unknown" "second";
    classAnno "circt.testNT" "third" ].

Definition designWith (annotations : list DictionaryAttr) : IR :=
  {| kindOf := kindOf exampleDesign; getNumPorts := getNumPorts exampleDesign;
     getReferencedModule := getReferencedModule exampleDesign;
     rawAnnotations := Some annotations;
     annotationsAttr := ∅; portAnnotationsAttr := ∅;
     hierPathOps := []; symbols := ∅ |}.

Definition strictPass : LowerAnnotationsPass := createLowerFIRRTLAnnotationsPass false false.
Definition tolerantPass : LowerAnnotationsPass := createLowerFIRRTLAnnotationsPass true true.

(** An annotation of an unknown class and one without a class, both without
    a target, and an annotation of an unknown class whose target does not
    resolve. *)
Definition unknownAnno : DictionaryAttr := classAnno "foo.Unknown" "second".
Definition classlessAnno : DictionaryAttr := [("name", StringAttr "nobody")].


(** ** Further notions for the instance graph *)

(** An instance chain from the top-level module down to a module, as the
    list of its instance sites: the top-level module has the empty chain,
    and a chain to the parent of a use of [m], followed by the instance of
    that use, is a chain to [m]. *)
Inductive instanceChain (g : InstanceGraph) : Node → list InstanceOp → Prop :=
| instanceChain_top :
    instanceChain g (getTopLevelNode g) []
| instanceChain_step m us u p :
    m ≠ getTopLevelNode g → nodeMap g !! m = Some us → u ∈ us →
    instanceChain g (getParent u) p →
    instanceChain g m (p ++ [getInstance u]).

(** The entries a state [c'] of the cache has and an earlier state [c] did
    not have: all of modules of rank at most [bound], none of the top-level
    module. *)
Definition gainedEntries (g : InstanceGraph) (rank : Node → nat) (bound : nat)
    (c c' : InstancePathCache) : Prop :=
  instanceGraph c' = g
  ∧ ∀ m, is_Some (absolutePathsCache c' !! m) →
         is_Some (absolutePathsCache c !! m)
         ∨ (rank m ≤ bound ∧ m ≠ getTopLevelNode g).

(** A module that instantiates itself: one of its uses has the module
    itself as parent. *)
Definition selfInstantiating (g : InstanceGraph) (m : Node) : Prop :=
  Exists (fun u => getParent u = m) (default [] (nodeMap g !! m)).

#[global] Instance selfInstantiating_dec g m : Decision (selfInstantiating g m).
Proof. unfold selfInstantiating. apply _. Defined.

(** A design in which module 1 instantiates itself. *)
Definition recursiveGraph : InstanceGraph := {|
  nodeMap := {[ 0 := [];
                1 := [ {| getInstance := 30; getParent := 0; getTarget := 1 |};
                       {| getInstance := 31; getParent := 1; getTarget := 1 |} ] ]};
  getTopLevelNode := 0
|}.

(** ** Further notions for LowerAnnotations *)

(** The named attributes of an annotation other than its 'target'. *)
Definition withoutTarget (anno : DictionaryAttr) : list NamedAttribute :=
  filter (fun na : NamedAttribute => na.1 ≠ "target") anno.


(** The dictionary [addAnnotation] makes of the attributes it is given. *)
Definition annotationOf (fieldIdx : nat) (anno : list NamedAttribute) : DictionaryAttr :=
  if decide (fieldIdx ≠ 0) then
    DictionaryAttr_get
      (push_back anno ("circt.fieldID", IntegerAttr (N.of_nat fieldIdx)))
  else DictionaryAttr_get anno.

Section LowerAnnotationsNotions.
Context {namespaceOps : NamespaceOps} {externals : Externals}.

(** The annotation has a class, a string, and the table has no record for
    it. *)
Definition unhandledClass (anno : DictionaryAttr) : bool :=
  match getNamed anno "class" with
  | Some (StringAttr cls) => negb (isAnnoClassLowered cls)
  | _ => false
  end.

(** The name path [buildNLA] makes for a target when the references to the
    instances are [refOf] and the module names [nameOf]. *)
Definition namepathOf (refOf : InstanceOp → Attribute) (nameOf : AnnoTarget → string)
    (target : AnnoPathValue) : list Attribute :=
  push_back (refOf <$> instances target) (FlatSymbolRefAttr (nameOf (ref target))).

(** Every module the update loop visits is an [FModuleOp]. *)
Definition allFModules (design : IR) (graph : InstanceGraph) : Prop :=
  Forall (fun op => kindOf design op = OpKind.FModuleOp) (post_order graph).

#[global] Instance allFModules_dec design graph : Decision (allFModules design graph).
Proof. unfold allFModules. apply _. Defined.

End LowerAnnotationsNotions.

(** An annotation whose target is not a string. *)
Definition numberTargetAnno : DictionaryAttr :=
  [("class", StringAttr "foo.Unknown"); ("target", IntegerAttr 7)].

(** An annotation with a target, a local target for it (field 2 of
    operation 1) and a non-local one (operation 2 under the instance 20). *)
Definition targetedAnno : DictionaryAttr :=
  [("class", StringAttr "circt.test"); ("name", StringAttr "probe");
   ("target", StringAttr "~Top|Top")].

Definition localTarget : AnnoPathValue :=
  {| instances := []; ref := OpAnnoTarget 1; fieldIdx := 2 |}.

Definition nonLocalTarget : AnnoPathValue :=
  {| instances := [20]; ref := OpAnnoTarget 2; fieldIdx := 0 |}.

(** The design of [exampleDesign] with module 3 an external module, no
    annotation to lower, and an instance graph with that module under the
    top. *)
Definition extDesign : IR := {|
  kindOf := fun op =>
    if decide (op = 3) then OpKind.FExtModuleOp else kindOf exampleDesign op;
  getNumPorts := getNumPorts exampleDesign;
  getReferencedModule := getReferencedModule exampleDesign;
  rawAnnotations := Some [];
  annotationsAttr := ∅; portAnnotationsAttr := ∅;
  hierPathOps := []; symbols := ∅
|}.

Definition extGraph : InstanceGraph := {|
  nodeMap := {[ 0 := [];
                3 := [ {| getInstance := 22; getParent := 0; getTarget := 3 |} ] ]};
  getTopLevelNode := 0
|}.

(** The state after [buildNLA] has made the anchor of [nonLocalTarget]. *)
Definition stateWithNLA : @ApplyState exampleNamespaceOps :=
  match @buildNLA exampleNamespaceOps exampleExternals nonLocalTarget
          (exampleState wiringGraph) with
  | Ok (_, st) => st
  | Fail _ => exampleState wiringGraph
  end.

(** What the worklist loop of a strict pass leaves of [threeAnnotations]. *)
Definition afterWorklist
    : (nat * LowerAnnotationsPass) * @ApplyState exampleNamespaceOps :=
  match (_ ← populateWorklist threeAnnotations;
         @processWorklist exampleNamespaceOps exampleExternals 5 strictPass 0)
          (initialState 100 (removeRawAnnotations (designWith threeAnnotations))
             wiringGraph) with
  | Ok r => r
  | Fail _ => ((0, strictPass), exampleState wiringGraph)
  end.

(** ** [findCircuitOp]

    The operation an instance graph is built on is the circuit or the
    builtin module around it.  [bodyOf] gives, for an [mlir::ModuleOp],
    the operations of its body, and nothing for any other operation. *)

(** [cast<CircuitOp>(operation)] *)
Definition castCircuitOp (design : IR) (operation : Operation) : Result Operation :=
  if decide (kindOf design operation = OpKind.CircuitOp) then Ok operation
  else Fail AssertionFailed.

Definition findCircuitOp (design : IR) (bodyOf : Operation → option (list Operation))
    (operation : Operation) : Result Operation :=
  match bodyOf operation with
  | Some body =>
    match list_find (fun op => kindOf design op = OpKind.CircuitOp) body with
    | Some (_, circuit) => Ok circuit
    | None => castCircuitOp design operation
    end
  | None => castCircuitOp design operation
  end.

(** The builtin module 200 around the circuit 100 of [exampleDesign]. *)
Definition exampleBodyOf (operation : Operation) : option (list Operation) :=
  if decide (operation = 200) then Some [300; 100; 101] else None.

(** ** [runOnOperation]: rewriting one module (lines 635 to 716)

    What the loop over the modules does to a module that has
    modifications, spelled out over the primitives of the IR that it
    calls; [updateModule] of [Externals] stands for it in the driver.  The
    primitives are parameters: they are defined with the operations, outside
    these sources. *)
Class ModuleEditor : Type := {
  Design : Type;
  (* fmodule.getNumPorts() *)
  numPorts : Design → Operation → nat;
  (* fmodule.insertPorts(newPorts) *)
  insertPorts : Operation → list (nat * PortInfo) → Design → Design;
  (* fmodule.getArgument(i) *)
  getArgument : Design → Operation → nat → Value;
  (* builder.create<RefSendOp>(src), at the end of the body of the module *)
  createRefSend : Operation → Value → Design → Value * Design;
  (* builder.create<RefResolveOp>(src) *)
  createRefResolve : Operation → Value → Design → Value * Design;
  (* builder.create<StrictConnectOp>(dest, src) *)
  createStrictConnect : Operation → Value → Value → Design → Design;
  (* useInst->getParentOfType<FModuleOp>() *)
  enclosingModuleOf : Design → InstanceOp → Operation;
  (* useInst.cloneAndInsertPorts(newPorts) *)
  cloneAndInsertPorts : InstanceOp → list (nat * PortInfo) → Design → InstanceOp * Design;
  (* useInst->replaceAllUsesWith(clonedInst.getResults().drop_back(n));
     useInst->erase() *)
  replaceAndErase : InstanceOp → InstanceOp → nat → Design → Design;
  (* clonedInst.getResult(i) *)
  getResult : Design → InstanceOp → nat → Value
}.

Section UpdateModule.
Context {editor : ModuleEditor}.

(** [value.getType().isa<RefType>()] *)
Definition isaRefType (v : Value) : bool :=
  match getType v with RefType _ => true | BaseType _ => false end.

(** The two vectors made from [modifications.portsToAdd]: every new port
    goes behind the ports the module has. *)
Definition newPortsOf (d : Design) (fmodule : Operation)
    (modifications : ModuleModifications) : list (nat * PortInfo) :=
  (fun tuple : PortInfo * nat => (numPorts d fmodule, tuple.1))
    <$> portsToAdd modifications.

Definition problemIndexOf (modifications : ModuleModifications) : list nat :=
  (fun tuple : PortInfo * nat => tuple.2) <$> portsToAdd modifications.

(** [moduleModifications[module].connectionMap[index]], read: a missing
    key gives the null [Value]. *)
Definition connectionOf (mods : gmap Operation ModuleModifications)
    (module : Operation) (index : nat) : option Value :=
  connectionMap (modificationsOf mods module) !! index.

(** "Wire up the port": the body of the loop over
    [llvm::zip(newPorts, problemIndex)]. *)
Definition wirePort (fmodule : Operation) (mods : gmap Operation ModuleModifications)
    (acc : nat * Design) (tuple : (nat * PortInfo) * nat) : Result (nat * Design) :=
  let '(portIdx, d) := acc in
  let '(portPair, index) := tuple in
  let src := connectionOf mods fmodule index in
  let dest := getArgument d fmodule portIdx in
  (* assert(src && "need to have an actual value") *)
  match src with
  | None => Fail AssertionFailed
  | Some src =>
    let '(src, dest) :=
      if decide (direction portPair.2 = In) then (dest, src) else (src, dest) in
    (* Create RefSend/RefResolve if necessary. *)
    let '(src, d) :=
      if isaRefType dest && negb (isaRefType src) then createRefSend fmodule src d
      else if negb (isaRefType dest) && isaRefType src then createRefResolve fmodule src d
      else (src, d) in
    Ok (S portIdx, createStrictConnect fmodule dest src d)
  end.

(** The body of the loop over the u-turns; a null [dest] cannot be
    connected. *)
Definition wireUturn (fmodule : Operation) (mods : gmap Operation ModuleModifications)
    (d : Design) (uturn : Value * nat) : Result Design :=
  let '(src, index) := uturn in
  match connectionOf mods fmodule index with
  | None => Fail InvalidAccess
  | Some dest => Ok (createStrictConnect fmodule src dest d)
  end.

(** [moduleModifications[module].uturns.push_back({value, index})] *)
Definition pushUturn (mods : gmap Operation ModuleModifications)
    (module : Operation) (v : Value) (index : nat)
    : gmap Operation ModuleModifications :=
  let m := modificationsOf mods module in
  <[module := {| portsToAdd := portsToAdd m;
                 connectionMap := connectionMap m;
                 uturns := push_back (uturns m) (v, index) |}]> mods.

(** "Record information in the moduleModifications structure for the
    module where this is instantiated": the body of the loop over
    [llvm::enumerate(problemIndex)]. *)
Definition recordResult (d : Design) (clonedInst : InstanceOp) (originalNumPorts : nat)
    (enclosingModule : Operation) (mods : gmap Operation ModuleModifications)
    (pair : nat * nat) : gmap Operation ModuleModifications :=
  let '(i, index) := pair in
  if decide (is_Some (connectionOf mods enclosingModule index)) then
    pushUturn mods enclosingModule (getResult d clonedInst (i + originalNumPorts)) index
  else
    setConnection mods enclosingModule index
      (getResult d clonedInst (i + originalNumPorts)).

(** The body of the loop over the uses of the module.  The records are
    those the use list shows when the loop starts; [replaceInstance]
    swaps the instance of a record and keeps the list. *)
Definition updateUse (newPorts : list (nat * PortInfo)) (problemIndex : list nat)
    (originalNumPorts : nat)
    (acc : gmap Operation ModuleModifications * Design * InstancePathCache)
    (inst : InstanceRecord)
    : gmap Operation ModuleModifications * Design * InstancePathCache :=
  let '(mods, d, cache) := acc in
  let useInst := getInstance inst in
  let enclosingModule := enclosingModuleOf d useInst in
  let '(clonedInst, d) := cloneAndInsertPorts useInst newPorts d in
  let cache := replaceInstance useInst clonedInst cache in
  (* RAUW needs to have the same number of output results for the instance. *)
  let d := replaceAndErase useInst clonedInst (length newPorts) d in
  let mods :=
    foldl (recordResult d clonedInst originalNumPorts enclosingModule)
          mods (enumerate problemIndex) in
  (mods, d, cache).

(** The body of the loop over the modules, from
    [auto modifications = moduleModifications[fmodule]] on. *)
Definition updateModuleBody (fmodule : Operation)
    (st : gmap Operation ModuleModifications * Design * InstancePathCache)
    : Result (gmap Operation ModuleModifications * Design * InstancePathCache) :=
  let '(mods, d, cache) := st in
  let modifications := modificationsOf mods fmodule in
  let newPorts := newPortsOf d fmodule modifications in
  let problemIndex := problemIndexOf modifications in
  let originalNumPorts := numPorts d fmodule in
  let portIdx := numPorts d fmodule in
  let d := insertPorts fmodule newPorts d in
  '(_, d) ← foldlR (wirePort fmodule mods) (portIdx, d) (zip newPorts problemIndex);
  d ← foldlR (wireUturn fmodule mods) d (uturns (modificationsOf mods fmodule));
  us ← lookup_node (instanceGraph cache) fmodule;
  Ok (foldl (updateUse newPorts problemIndex originalNumPorts) (mods, d, cache) us).

(** *** Notions used to state what the rewriting does *)

(** Every u-turn recorded for a module is for a problem that has a
    connection in that module. *)
Definition uturnsConnected (mods : gmap Operation ModuleModifications) : Prop :=
  map_Forall (fun _ m =>
                Forall (fun uturn : Value * nat =>
                          is_Some (connectionMap m !! uturn.2)) (uturns m))
             mods.

#[global] Instance uturnsConnected_dec mods : Decision (uturnsConnected mods).
Proof. unfold uturnsConnected. apply _. Defined.

(** Every port to add to the module is for a problem that has a connection
    in the module. *)
Definition portsConnected (mods : gmap Operation ModuleModifications)
    (fmodule : Operation) : Prop :=
  Forall (fun index => is_Some (connectionOf mods fmodule index))
         (problemIndexOf (modificationsOf mods fmodule)).

#[global] Instance portsConnected_dec mods fmodule : Decision (portsConnected mods fmodule).
Proof. unfold portsConnected, connectionOf. apply _. Defined.

(** The positions of [problemIndex] that [recordResult] turns into
    u-turns, given the problems [connected] so far: a problem met for the
    first time gets the connection, every later meeting is a u-turn. *)
Fixpoint uturnPositions (connected : gset nat) (pairs : list (nat * nat))
    : list (nat * nat) :=
  match pairs with
  | [] => []
  | (i, index) :: pairs =>
    if decide (index ∈ connected) then (i, index) :: uturnPositions connected pairs
    else uturnPositions ({[index]} ∪ connected) pairs
  end.

(** How the records of two states of [moduleModifications] compare: the
    ports to add are the same, connections and u-turns are only added. *)
Definition grown (mods mods' : gmap Operation ModuleModifications) : Prop :=
  ∀ m, portsToAdd (modificationsOf mods' m) = portsToAdd (modificationsOf mods m)
       ∧ connectionMap (modificationsOf mods m) ⊆ connectionMap (modificationsOf mods' m)
       ∧ uturns (modificationsOf mods m) `prefix_of` uturns (modificationsOf mods' m).

End UpdateModule.

(** A design for the editor: the ports of each module and the operations
    appended to the bodies, in order. *)
Inductive BodyOp : Type :=
| RefSendOp (module : Operation) (src : Value)
| RefResolveOp (module : Operation) (src : Value)
| StrictConnectOp (module : Operation) (dest src : Value).

Record ExampleIR : Type := {
  portsOf : gmap Operation (list PortInfo);
  bodyOps : list BodyOp
}.

Definition examplePortsOf (d : ExampleIR) (m : Operation) : list PortInfo :=
  default [] (portsOf d !! m).

(** Values are numbered apart: the argument [i] of module [m] is
    [100 * m + i], the result [i] of instance [inst] is
    [1000 + 10 * inst + i], the results of the operations made by the
    builder count from 3000.  The clone of instance [inst] is [inst + 40]. *)
Definition exampleEditor : ModuleEditor := {|
  Design := ExampleIR;
  numPorts := fun d m => length (examplePortsOf d m);
  insertPorts := fun m newPorts d =>
    {| portsOf := <[m := examplePortsOf d m ++ newPorts.*2]> (portsOf d);
       bodyOps := bodyOps d |};
  getArgument := fun d m i =>
    {| valueId := 100 * m + i;
       getType := default (BaseType 0) (portType <$> examplePortsOf d m !! i);
       parentModule := Some m |};
  createRefSend := fun m src d =>
    ({| valueId := 3000 + length (bodyOps d);
        getType := match getType src with BaseType b => RefType b | t => t end;
        parentModule := Some m |},
     {| portsOf := portsOf d; bodyOps := bodyOps d ++ [RefSendOp m src] |});
  createRefResolve := fun m src d =>
    ({| valueId := 3000 + length (bodyOps d);
        getType := match getType src with RefType b => BaseType b | t => t end;
        parentModule := Some m |},
     {| portsOf := portsOf d; bodyOps := bodyOps d ++ [RefResolveOp m src] |});
  createStrictConnect := fun m dest src d =>
    {| portsOf := portsOf d; bodyOps := bodyOps d ++ [StrictConnectOp m dest src] |};
  enclosingModuleOf := fun _ inst =>
    match inst with 20 => 0 | 21 => 1 | 22 => 2 | 23 => 2 | _ => 0 end;
  cloneAndInsertPorts := fun inst _ d => (inst + 40, d);
  replaceAndErase := fun _ _ _ d => d;
  getResult := fun d inst i =>
    {| valueId := 1000 + 10 * inst + i; getType := RefType 0;
       parentModule := None |}
|}.

Definition exampleIR : ExampleIR := {| portsOf := ∅; bodyOps := [] |}.

(** Module 3 of [wiringGraph] with one output port to add for problem 7,
    whose source is in the module. *)
Definition exampleMods : gmap Operation ModuleModifications :=
  {[ 3 := {| portsToAdd :=
               [ ({| portName := "tap"; portType := RefType 0; direction := Out |}, 7) ];
             connectionMap := {[ 7 := exampleValue 1 3 ]};
             uturns := [] |} ]}.

(** The path cache of [wiringGraph] with the paths of module 3, and what
    the rewriting of module 3 makes of [exampleMods]. *)
Definition wiringCache : InstancePathCache :=
  match getAbsolutePaths 5 3 (newCache wiringGraph) with
  | Ok (_, c) => c
  | Fail _ => newCache wiringGraph
  end.

Definition afterUpdate
    : gmap Operation ModuleModifications * ExampleIR * InstancePathCache :=
  match @updateModuleBody exampleEditor 3 (exampleMods, exampleIR, wiringCache) with
  | Ok r => r
  | Fail _ => (exampleMods, exampleIR, wiringCache)
  end.

(** The plan [groupProblem] makes for a problem from module 3 to module 4,
    and the three rewritings that follow it, from the leaves up. *)
Definition plannedMods : gmap Operation ModuleModifications :=
  match @groupProblem exampleNamespaceOps 5 ∅ (7, exampleProblem 3 4)
          (exampleState wiringGraph) with
  | Ok (mods, _) => mods
  | Fail _ => ∅
  end.

Definition afterLeaves (first second : Operation)
    : Result (gmap Operation ModuleModifications * ExampleIR * InstancePathCache) :=
  st ← @updateModuleBody exampleEditor first (plannedMods, exampleIR, wiringCache);
  st ← @updateModuleBody exampleEditor second st;
  @updateModuleBody exampleEditor 2 st.

(** * Properties *)

(** ** SmallVector *)

Lemma pop_back_val_push_back {A} (v : list A) (x : A) :
  pop_back_val (push_back v x) = Some (x, v).
Proof.
  unfold pop_back_val, push_back. rewrite rev_app_distr. simpl.
  by rewrite rev_involutive.
Qed.

Lemma pop_back_val_Some {A} (v r : list A) (x : A) :
  pop_back_val v = Some (x, r) → v = push_back r x.
Proof.
  unfold pop_back_val, push_back. intros H.
  destruct (rev v) as [|y t] eqn:E; [done|]. simplify_eq.
  rewrite <- (rev_involutive v), E. done.
Qed.

Lemma pop_back_val_None {A} (v : list A) :
  pop_back_val v = None → v = [].
Proof.
  unfold pop_back_val. intros H.
  destruct (rev v) eqn:E; [|done].
  by rewrite <- (rev_involutive v), E.
Qed.

(** ** [allUnder]: the marking step *)

Lemma size_difference_fresh (D seen : gset Node) (x : Node) :
  x ∈ D → x ∉ seen → size (D ∖ seen) = S (size (D ∖ ({[x]} ∪ seen))).
Proof.
  intros HD Hs.
  assert (D ∖ seen = {[x]} ∪ D ∖ ({[x]} ∪ seen)) as ->.
  { apply set_eq. intros y. rewrite elem_of_union, !elem_of_difference,
      elem_of_union, elem_of_singleton.
    destruct (decide (y = x)); naive_solver. }
  rewrite size_union by set_solver. by rewrite size_singleton.
Qed.

Lemma foldl_visit_parents {A} (f : A → Node) (sw : gset Node * list Node) (l : list A) :
  foldl (fun sw a => visit sw (f a)) sw l = foldl visit sw (f <$> l).
Proof. revert sw. induction l as [|a l IH]; intros sw; simpl; [done|]. apply IH. Qed.

Lemma foldl_visit_spec (ms : list Node) (seen : gset Node) (wl : list Node) :
  ∃ new,
    foldl visit (seen, wl) ms = (seen ∪ list_to_set ms, wl ++ new)
    ∧ (∀ x, x ∈ new ↔ x ∈ ms ∧ x ∉ seen)
    ∧ (∀ D : gset Node, (∀ x, x ∈ ms → x ∈ D) →
         length (wl ++ new) + size (D ∖ (seen ∪ list_to_set ms))
         = length wl + size (D ∖ seen)).
Proof.
  revert seen wl. induction ms as [|m ms IH]; intros seen wl.
  - exists []. simpl. rewrite app_nil_r, (right_id_L ∅ (∪)).
    split_and!; [done| |done]. intros x. rewrite !elem_of_nil. tauto.
  - simpl. unfold visit at 2. simpl. destruct (decide (m ∈ seen)) as [Hin|Hnin].
    + destruct (IH seen wl) as (new & Heq & Hnew & Hsz).
      exists new. split_and!.
      * rewrite Heq. f_equal. set_solver.
      * intros x. rewrite Hnew, elem_of_cons. naive_solver.
      * intros D HD.
        replace (seen ∪ ({[m]} ∪ list_to_set ms)) with (seen ∪ list_to_set ms)
          by set_solver.
        apply Hsz. intros x Hx. apply HD. by constructor.
    + destruct (IH ({[m]} ∪ seen) (push_back wl m)) as (new & Heq & Hnew & Hsz).
      exists (m :: new). split_and!.
      * rewrite Heq. unfold push_back. rewrite <- app_assoc. simpl.
        f_equal. set_solver.
      * intros x. rewrite !elem_of_cons, Hnew, elem_of_union, elem_of_singleton.
        destruct (decide (x = m)); naive_solver.
      * intros D HD.
        replace (seen ∪ ({[m]} ∪ list_to_set ms))
          with ({[m]} ∪ seen ∪ list_to_set ms) by set_solver.
        replace (wl ++ m :: new) with (push_back wl m ++ new)
          by (unfold push_back; by rewrite <- app_assoc).
        rewrite Hsz by (intros x Hx; apply HD; by constructor).
        unfold push_back. rewrite length_app. simpl.
        rewrite (size_difference_fresh D seen m); [lia| |done].
        apply HD. by constructor.
Qed.

(** ** [allUnder]: the traversal *)

Section allUnder_correct.
Variables (g : InstanceGraph) (top : Node) (nodes : list InstanceRecord).
Hypothesis Hclosed :
  ∀ m us u, nodeMap g !! m = Some us → u ∈ us → is_Some (nodeMap g !! getParent u).
Hypothesis Hnodes : ∀ n, n ∈ nodes → is_Some (nodeMap g !! getParent n).

#[local] Abbreviation avoiding := (avoiding g top nodes).
#[local] Abbreviation loop_inv := (loop_inv g top nodes).

Lemma avoiding_ne_top m : avoiding m → m ≠ top.
Proof. by destruct 1. Qed.

Lemma avoiding_in_graph m : avoiding m → is_Some (nodeMap g !! m).
Proof. destruct 1; eauto. Qed.

Lemma avoiding_upPath m l :
  avoiding m → upPath g m l → top ∉ l →
  ∃ n l', n ∈ nodes ∧ upPath g (getParent n) l' ∧ top ∉ l'.
Proof.
  intros Hav. revert l. induction Hav as [n Hn Hne|m us u Hav IH Hm Hu Hne];
    intros l Hp Hl.
  - eauto.
  - apply (IH (m :: l)).
    + by eapply upPath_step.
    + apply not_elem_of_cons. split; [|done].
      intros Heq. apply avoiding_ne_top in Hav. congruence.
Qed.

Lemma loop_inv_init :
  let sw := foldl (fun sw n => visit sw (getParent n)) ({[top]}, []) nodes in
  loop_inv sw.1 sw.2
  ∧ length sw.2 + size (dom (nodeMap g) ∖ sw.1) ≤ size (dom (nodeMap g)).
Proof.
  simpl. rewrite foldl_visit_parents.
  destruct (foldl_visit_spec (getParent <$> nodes) {[top]} [])
    as (new & -> & Hnew & Hsz). simpl.
  split; [split|].
  - set_solver.
  - intros x Hx. apply Hnew in Hx as [? ?]. set_solver.
  - intros x Hx Hne. apply elem_of_union in Hx as [Hx|Hx]; [set_solver|].
    apply elem_of_list_to_set, list_elem_of_fmap in Hx as (n & -> & Hn).
    by apply avoiding_start.
  - intros x Hx Hne Hnw. exfalso. apply Hnw, Hnew.
    apply elem_of_union in Hx as [Hx|Hx]; [set_solver|].
    apply elem_of_list_to_set in Hx. set_solver.
  - intros n Hn. apply elem_of_union_r, elem_of_list_to_set, list_elem_of_fmap. eauto.
  - specialize (Hsz (dom (nodeMap g))). simpl in Hsz. rewrite Hsz.
    + apply subseteq_size. set_solver.
    + intros x Hx. apply list_elem_of_fmap in Hx as (n & -> & Hn).
      apply elem_of_dom. auto.
Qed.

Lemma loop_inv_step seen wl wl' node us :
  loop_inv seen wl → wl = push_back wl' node →
  nodeMap g !! node = Some us → us ≠ [] →
  let sw := foldl (fun sw use => visit sw (getParent use)) (seen, wl') us in
  loop_inv sw.1 sw.2
  ∧ S (length sw.2 + size (dom (nodeMap g) ∖ sw.1))
    = length wl + size (dom (nodeMap g) ∖ seen).
Proof.
  intros [Itop Iwl Ireach Idone Inodes] -> Hus Hne. simpl.
  rewrite foldl_visit_parents.
  destruct (foldl_visit_spec (getParent <$> us) seen wl')
    as (new & -> & Hnew & Hsz). simpl.
  assert (Hnode : node ∈ seen ∧ node ≠ top).
  { apply Iwl. unfold push_back. set_solver. }
  destruct Hnode as [Hnode Hnt].
  split; [split|].
  - set_solver.
  - intros x Hx. apply elem_of_app in Hx as [Hx|Hx].
    + destruct (Iwl x) as [? ?]; [unfold push_back; set_solver|]. set_solver.
    + apply Hnew in Hx as [Hx Hxs]. split; [set_solver|]. by intros ->.
  - intros x Hx Hxt. apply elem_of_union in Hx as [Hx|Hx]; [by apply Ireach|].
    apply elem_of_list_to_set, list_elem_of_fmap in Hx as (u & -> & Hu).
    eapply avoiding_step; eauto.
  - intros x Hx Hxt Hxw.
    destruct (decide (x = node)) as [->|Hxn].
    { exists us. split_and!; [done..|]. intros u Hu.
      apply elem_of_union_r, elem_of_list_to_set, list_elem_of_fmap. eauto. }
    destruct (decide (x ∈ seen)) as [Hxs|Hxs].
    + destruct (Idone x Hxs Hxt) as (us' & ? & ? & Hpar).
      { unfold push_back. set_solver. }
      exists us'. split_and!; [done..|]. intros u Hu. apply elem_of_union_l. eauto.
    + exfalso. apply Hxw, elem_of_app. right. apply Hnew. set_solver.
  - intros n Hn. apply elem_of_union_l. eauto.
  - rewrite Hsz.
    + unfold push_back. rewrite length_app. simpl. lia.
    + intros x Hx. apply list_elem_of_fmap in Hx as (u & -> & Hu).
      apply elem_of_dom. eapply Hclosed; eauto.
Qed.

Lemma loop_inv_closed seen :
  loop_inv seen [] → ∀ x l, upPath g x l → x ∈ seen → top ∈ l.
Proof.
  intros [Itop Iwl Ireach Idone Inodes] x l Hp.
  induction Hp as [m Hm|m us u l Hm Hu Hp IH]; intros Hx.
  - destruct (decide (m = top)) as [->|Hne]; [set_solver|].
    destruct (Idone m Hx Hne) as (us & Hus & Hnil & _); [set_solver|].
    congruence.
  - destruct (decide (m = top)) as [->|Hne]; [set_solver|].
    destruct (Idone m Hx Hne) as (us' & Hus & _ & Hpar); [set_solver|].
    simplify_eq. apply elem_of_cons. right. apply IH. eauto.
Qed.

Lemma allUnder_loop_correct fuel seen wl :
  loop_inv seen wl →
  length wl + size (dom (nodeMap g) ∖ seen) < fuel →
  ∃ b, allUnder_loop fuel g top seen wl = Ok b
       ∧ if b then dominates g top nodes
         else ∃ n l, n ∈ nodes ∧ upPath g (getParent n) l ∧ top ∉ l.
Proof.
  revert seen wl. induction fuel as [|fuel IH]; intros seen wl Hinv Hfuel; [lia|].
  simpl. destruct (pop_back_val wl) as [[node wl']|] eqn:Hpop.
  - apply pop_back_val_Some in Hpop.
    assert (Hnode : node ∈ seen ∧ node ≠ top).
    { apply (inv_wl _ _ _ _ _ Hinv). subst wl. unfold push_back. set_solver. }
    destruct Hnode as [Hnode Hnt].
    rewrite bool_decide_true by done. simpl.
    pose proof (inv_reach _ _ _ _ _ Hinv node Hnode Hnt) as Hav.
    destruct (avoiding_in_graph node Hav) as [us Hus].
    unfold uses. rewrite Hus. simpl.
    destruct (noUses us) eqn:Eus.
    + exists false. split; [done|].
      destruct us; [|done].
      apply (avoiding_upPath node [node] Hav); [by constructor|set_solver].
    + destruct (loop_inv_step seen wl wl' node us Hinv Hpop Hus) as [Hinv' Hm].
      { by destruct us. }
      simpl in *. apply IH; [done|lia].
  - apply pop_back_val_None in Hpop. subst wl.
    exists true. split; [done|]. intros n l Hn Hp.
    eapply loop_inv_closed; eauto. by apply (inv_nodes _ _ _ _ _ Hinv).
Qed.

End allUnder_correct.

Lemma graph_closed_lookup g m us u :
  graph_closed g → nodeMap g !! m = Some us → u ∈ us →
  is_Some (nodeMap g !! getParent u).
Proof.
  intros Hc Hm Hu. specialize (Hc m us Hm). simpl in Hc.
  rewrite Forall_forall in Hc. by apply Hc.
Qed.

(** C5.  [allUnder] returns, and it returns [true] exactly when every upward
    walk from the parent of a given instance record to a node without uses
    passes through [top]; it returns [false] exactly when one such walk
    reaches a node without uses and has not met [top]. *)
Theorem allUnder_dominates (fuel : nat) (g : InstanceGraph)
    (nodes : list InstanceRecord) (top : Node) :
  graph_closed g →
  Forall (in_graph g) nodes →
  size (dom (nodeMap g)) < fuel →
  ∃ b, allUnder fuel g nodes top = Ok b
       ∧ (b = true ↔ dominates g top nodes)
       ∧ (b = false ↔
            ∃ n l, n ∈ nodes ∧ upPath g (getParent n) l ∧ top ∉ l).
Proof.
  intros Hclosed Hnodes Hfuel.
  pose proof (fun m us u => graph_closed_lookup g m us u Hclosed) as Hc.
  rewrite Forall_forall in Hnodes.
  destruct (loop_inv_init g top nodes Hc Hnodes) as [Hinv Hm].
  destruct (allUnder_loop_correct g top nodes Hc Hnodes fuel _ _ Hinv)
    as (b & Hrun & Hb); [simpl in *; lia|].
  exists b. split; [done|].
  assert (Hexcl : dominates g top nodes →
    ¬ ∃ n l, n ∈ nodes ∧ upPath g (getParent n) l ∧ top ∉ l).
  { intros Hdom (n & l & Hn & Hp & Hl). apply Hl. by eapply Hdom. }
  destruct b.
  - split; [done|]. split; [done|]. intros Hex. by destruct (Hexcl Hb).
  - split; [|done]. split; [done|]. intros Hdom. by destruct (Hexcl Hdom).
Qed.

Example allUnder_example_true :
  allUnder 4 exampleGraph
    [ {| getInstance := 11; getParent := 1; getTarget := 2 |} ] 0 = Ok true.
Proof. vm_compute. reflexivity. Qed.

Example allUnder_example_inner :
  allUnder 4 exampleGraph
    [ {| getInstance := 11; getParent := 1; getTarget := 2 |} ] 1 = Ok true.
Proof. vm_compute. reflexivity. Qed.

Example allUnder_example_false :
  allUnder 4 exampleGraph
    [ {| getInstance := 20; getParent := 2; getTarget := 3 |} ] 1 = Ok false.
Proof. vm_compute. reflexivity. Qed.

Lemma allUnder_dominates_witness :
  ∃ b, allUnder 4 exampleGraph
         [ {| getInstance := 20; getParent := 2; getTarget := 3 |} ] 1 = Ok b
       ∧ (b = true ↔ dominates exampleGraph 1
            [ {| getInstance := 20; getParent := 2; getTarget := 3 |} ])
       ∧ (b = false ↔
            ∃ n l, n ∈ [ {| getInstance := 20; getParent := 2; getTarget := 3 |} ]
                   ∧ upPath exampleGraph (getParent n) l ∧ 1 ∉ l).
Proof.
  apply allUnder_dominates.
  - apply (bool_decide_unpack _). vm_compute. exact I.
  - apply (bool_decide_unpack _). vm_compute. exact I.
  - vm_compute. lia.
Defined.

(** C10.  With no instance records [allUnder] returns [true]; and a record
    whose parent is [top] itself can be dropped from the list without
    changing the result, wherever it stands. *)
Theorem allUnder_empty_and_top_parent (fuel : nat) (g : InstanceGraph) (top : Node) :
  allUnder (S fuel) g [] top = Ok true
  ∧ (∀ (nodes1 nodes2 : list InstanceRecord) (inst : InstanceOp) (target : Node),
       allUnder fuel g
         (nodes1 ++ {| getInstance := inst; getParent := top; getTarget := target |}
                 :: nodes2) top
       = allUnder fuel g (nodes1 ++ nodes2) top)
  ∧ (∀ sites : list (InstanceOp * Node),
       allUnder (S fuel) g
         ((fun it => {| getInstance := it.1; getParent := top; getTarget := it.2 |})
            <$> sites) top
       = Ok true).
Proof.
  split; [done|]. split.
  - intros nodes1 nodes2 inst target. unfold allUnder.
    rewrite !foldl_app. simpl. f_equal; f_equal; f_equal.
    all: rewrite foldl_visit_parents.
    all: destruct (foldl_visit_spec (getParent <$> nodes1) {[top]} [])
      as (new & -> & _ & _).
    all: unfold visit; simpl; rewrite decide_True by set_solver; done.
  - intros sites. unfold allUnder.
    rewrite foldl_visit_parents.
    match goal with |- context [foldl visit _ ?ms] =>
      destruct (foldl_visit_spec ms {[top]} []) as (new & -> & Hnew & _)
    end. simpl.
    destruct new as [|x new]; [done|]. exfalso.
    destruct (proj1 (Hnew x)) as [Hx Hs]; [by constructor|].
    apply Hs. apply list_elem_of_fmap in Hx as (n & -> & Hn).
    apply list_elem_of_fmap in Hn as (it & -> & _). set_solver.
Qed.

Lemma bind_Ok {A B} (a : A) (k : A → Result B) : (Ok a ≫= k) = k a.
Proof. reflexivity. Qed.

Lemma bind_Fail {A B} (f : Failure) (k : A → Result B) : (Fail f ≫= k) = Fail f.
Proof. reflexivity. Qed.

(** ** The arena: allocation leaves what is there alone *)

#[global] Instance extends_refl : Reflexive extends.
Proof. intros a. by split. Qed.

#[global] Instance extends_trans : Transitive extends.
Proof. intros a b c [? ?] [? ?]. split; by etrans. Qed.

Lemma take_default_prefix {T} (n : nat) (arena arena' : list (list T)) (ptr : nat) :
  arena `prefix_of` arena' →
  length (take n (default [] (arena !! ptr))) = n →
  take n (default [] (arena' !! ptr)) = take n (default [] (arena !! ptr)).
Proof.
  intros Hpre Hlen. destruct (arena !! ptr) as [arr|] eqn:E.
  - by rewrite (prefix_lookup_Some _ _ _ _ E Hpre).
  - simpl in *. rewrite take_nil in Hlen. simpl in Hlen. subst n.
    by rewrite !take_0.
Qed.

Lemma readPath_extends a a' p :
  extends a a' → valid_path a p → readPath a' p = readPath a p.
Proof.
  intros [Hpre _] Hv. unfold valid_path, readPath in *.
  destruct (pathData p) as [ptr|]; [|done].
  by apply take_default_prefix.
Qed.

Lemma valid_path_extends a a' p :
  extends a a' → valid_path a p → valid_path a' p.
Proof.
  intros He Hv. unfold valid_path. by rewrite (readPath_extends a a').
Qed.

Lemma readPaths_extends a a' pl :
  extends a a' → length (readPaths a pl) = listSize pl →
  readPaths a' pl = readPaths a pl.
Proof.
  intros [_ Hpre] Hv. unfold readPaths in *.
  destruct (listData pl) as [[|ptr]|]; [done| |done].
  by apply take_default_prefix.
Qed.

Lemma Forall_valid_path_extends a a' ps :
  extends a a' → Forall (valid_path a) ps → Forall (valid_path a') ps.
Proof. intros He Hv. eapply Forall_impl; [done|]. intros p. by apply valid_path_extends. Qed.

Lemma fmap_readPath_extends a a' ps :
  extends a a' → Forall (valid_path a) ps →
  readPath a' <$> ps = readPath a <$> ps.
Proof.
  intros He Hv. apply list_fmap_ext. intros i p Hp.
  apply readPath_extends; [done|]. rewrite Forall_forall in Hv.
  apply Hv. by eapply list_elem_of_lookup_2.
Qed.

Lemma valid_list_extends a a' pl :
  extends a a' → valid_list a pl → valid_list a' pl.
Proof.
  intros He [Hl Hv]. unfold valid_list.
  rewrite (readPaths_extends a a') by done.
  split; [done|]. by eapply Forall_valid_path_extends.
Qed.

Lemma pathsValue_extends a a' pl :
  extends a a' → valid_list a pl → pathsValue a' pl = pathsValue a pl.
Proof.
  intros He [Hl Hv]. unfold pathsValue.
  rewrite (readPaths_extends a a') by done.
  by apply fmap_readPath_extends.
Qed.

Lemma Allocate_fill {T} (dflt : T) n (arena : list (list T)) (f g : list T → list T) :
  alter f (length arena) (alter g (length arena) (arena ++ [replicate n dflt]))
  = arena ++ [f (g (replicate n dflt))].
Proof.
  rewrite list_alter_alter_eq, alter_app_r_alt by lia.
  by rewrite Nat.sub_diag.
Qed.

Lemma Allocate_copy {T} (dflt : T) (src : list T) (arena : list (list T)) :
  copy src (length arena) (arena ++ [replicate (length src) dflt])
  = arena ++ [src].
Proof.
  unfold copy. rewrite alter_app_r_alt by lia. rewrite Nat.sub_diag. simpl.
  rewrite drop_ge by (by rewrite length_replicate). by rewrite app_nil_r.
Qed.

(** ** [appendInstance] *)

Lemma appendInstance_spec path inst c :
  valid_path (allocator c) path →
  ∃ ptr a',
    appendInstance path inst c
      = ({| pathData := Some ptr; pathSize := pathSize path + 1 |}, setAllocator c a')
    ∧ ptr = length (instArrays (allocator c))
    ∧ instArrays a' = instArrays (allocator c) ++ [readPath (allocator c) path ++ [inst]]
    ∧ pathArrays a' = pathArrays (allocator c).
Proof.
  intros Hv. unfold appendInstance, AllocateInstanceOp, Allocate. simpl.
  eexists _, _. split; [reflexivity|]. split; [done|]. simpl. split; [|done].
  unfold copy, store. rewrite Allocate_fill. f_equal. f_equal.
  match goal with |- context [readPath ?a1 path ++ _] =>
    assert (Hrd : readPath a1 path = readPath (allocator c) path);
    [|rewrite Hrd]
  end.
  { apply readPath_extends; [|done]. split; simpl; [by apply prefix_app_r|done]. }
  unfold valid_path in Hv.
  rewrite drop_replicate. rewrite Hv.
  replace (pathSize path + 1 - pathSize path) with 1 by lia. simpl.
  rewrite insert_app_r_alt by lia. rewrite Hv, Nat.sub_diag. done.
Qed.

Lemma moveToAllocator_spec paths a :
  ∃ ptr a',
    moveToAllocator paths a
      = ({| listData := Some (InArena ptr); listSize := length paths |}, a')
    ∧ ptr = length (pathArrays a)
    ∧ instArrays a' = instArrays a
    ∧ pathArrays a' = pathArrays a ++ [paths].
Proof.
  unfold moveToAllocator, AllocateInstancePath, Allocate. simpl.
  eexists _, _. split; [reflexivity|]. split; [done|]. split; [done|].
  simpl. apply Allocate_copy.
Qed.

#[local] Arguments appendInstance : simpl never.
#[local] Arguments moveToAllocator : simpl never.

Lemma appendInstance_loop inst ps : ∀ ext c,
  Forall (valid_path (allocator c)) ps →
  Forall (valid_path (allocator c)) ext →
  ∃ ext' c',
    foldl (fun '(extendedPaths, c) path =>
             let '(newPath, c) := appendInstance path inst c in
             (push_back extendedPaths newPath, c)) (ext, c) ps = (ext', c')
    ∧ instanceGraph c' = instanceGraph c
    ∧ absolutePathsCache c' = absolutePathsCache c
    ∧ extends (allocator c) (allocator c')
    ∧ Forall (valid_path (allocator c')) ext'
    ∧ readPath (allocator c') <$> ext'
      = (readPath (allocator c) <$> ext)
        ++ ((fun p => readPath (allocator c) p ++ [inst]) <$> ps).
Proof.
  induction ps as [|p ps IH]; intros ext c Hps Hext.
  - exists ext, c. simpl. rewrite app_nil_r. done.
  - apply Forall_cons in Hps as [Hp Hps]. cbn [foldl].
    destruct (appendInstance_spec p inst c Hp) as (ptr & a1 & -> & Hptr & Hinst & Hpath).
    assert (He1 : extends (allocator c) a1).
    { split; [rewrite Hinst; by apply prefix_app_r|by rewrite Hpath]. }
    set (p' := {| pathData := Some ptr; pathSize := pathSize p + 1 |}).
    assert (Hrd : readPath a1 p' = readPath (allocator c) p ++ [inst]).
    { unfold readPath. simpl. rewrite Hinst, Hptr.
      rewrite lookup_app_r by lia. rewrite Nat.sub_diag. simpl.
      apply take_ge. rewrite length_app. simpl. unfold valid_path in Hp.
      unfold readPath in Hp. lia. }
    destruct (IH (push_back ext p') (setAllocator c a1))
      as (ext' & c' & Hrun & Hg & Hc & He & Hv & Hval).
    { simpl. by eapply Forall_valid_path_extends. }
    { simpl. unfold push_back. apply Forall_app. split.
      - by eapply Forall_valid_path_extends.
      - apply Forall_singleton. unfold valid_path. rewrite Hrd.
        rewrite length_app. simpl. unfold valid_path in Hp. lia. }
    exists ext', c'. cbn [allocator setAllocator instanceGraph absolutePathsCache] in *.
    split_and!; [done..| by etrans |done|].
    rewrite Hval. unfold push_back. rewrite fmap_app. simpl.
    rewrite Hrd, <- app_assoc. simpl.
    rewrite (fmap_readPath_extends (allocator c) a1 ext) by done.
    f_equal. f_equal. apply list_fmap_ext. intros i q Hq.
    rewrite (readPath_extends (allocator c) a1); [done..|].
    rewrite Forall_forall in Hps. apply Hps. by eapply list_elem_of_lookup_2.
Qed.

(** ** [getAbsolutePaths] *)

Section getAbsolutePaths_correct.
Variable g : InstanceGraph.
Variable rank : Node → nat.
Variable paths : Node → list (list InstanceOp).

Hypothesis Hclosed : graph_closed g.
Hypothesis Hrank : ∀ m us u,
  m ≠ getTopLevelNode g → nodeMap g !! m = Some us → u ∈ us →
  rank (getParent u) < rank m.
Hypothesis Hroot : paths (getTopLevelNode g) = [[]].
Hypothesis Hstep : ∀ m us,
  m ≠ getTopLevelNode g → nodeMap g !! m = Some us →
  paths m = us ≫= (fun u => (fun p => p ++ [getInstance u]) <$> paths (getParent u)).

#[local] Abbreviation cache_ok := (cache_ok g paths).

Definition returns_paths (fuel : nat) : Prop :=
  ∀ op c, cache_ok c → is_Some (nodeMap g !! op) → rank op < fuel →
  ∃ pl c',
    getAbsolutePaths fuel op c = Ok (pl, c')
    ∧ cache_ok c'
    ∧ extends (allocator c) (allocator c')
    ∧ absolutePathsCache c ⊆ absolutePathsCache c'
    ∧ valid_list (allocator c') pl
    ∧ pathsValue (allocator c') pl = paths op.

Lemma cache_ok_extends c c' :
  cache_ok c → instanceGraph c' = instanceGraph c →
  absolutePathsCache c' = absolutePathsCache c →
  extends (allocator c) (allocator c') → cache_ok c'.
Proof.
  intros [Hg Hc] Hg' Hc' He. split; [congruence|]. rewrite Hc'.
  eapply map_Forall_impl; [done|]. intros m pl [Hv Hp]. simpl in *.
  split; [by eapply valid_list_extends|].
  by rewrite (pathsValue_extends (allocator c) (allocator c')).
Qed.

Lemma uses_loop fuel (IH : returns_paths fuel) (l : list InstanceRecord) : ∀ ext c,
  Forall (fun u => is_Some (nodeMap g !! getParent u) ∧ rank (getParent u) < fuel) l →
  cache_ok c →
  Forall (valid_path (allocator c)) ext →
  ∃ ext' c',
    foldlR (fun '(extendedPaths, c) inst =>
              '(instPaths, c) ← getAbsolutePaths fuel (getParent inst) c;
              Ok (foldl (fun '(extendedPaths, c) path =>
                           let '(newPath, c) :=
                             appendInstance path (getInstance inst) c in
                           (push_back extendedPaths newPath, c))
                        (extendedPaths, c)
                        (readPaths (allocator c) instPaths)))
           (ext, c) l = Ok (ext', c')
    ∧ cache_ok c'
    ∧ extends (allocator c) (allocator c')
    ∧ absolutePathsCache c ⊆ absolutePathsCache c'
    ∧ Forall (valid_path (allocator c')) ext'
    ∧ readPath (allocator c') <$> ext'
      = (readPath (allocator c) <$> ext)
        ++ (l ≫= (fun u => (fun p => p ++ [getInstance u]) <$> paths (getParent u))).
Proof.
  induction l as [|u l IHl]; intros ext c Hl Hc Hext.
  - exists ext, c. simpl. rewrite app_nil_r. done.
  - apply Forall_cons in Hl as [[Hin Hr] Hl]. cbn [foldlR].
    destruct (IH (getParent u) c Hc Hin Hr)
      as (pl & c1 & -> & Hc1 & He1 & Hsub1 & Hv1 & Hval1).
    rewrite !bind_Ok. cbn beta iota.
    destruct Hv1 as [Hlen1 Hv1].
    destruct (appendInstance_loop (getInstance u) (readPaths (allocator c1) pl)
                ext c1 Hv1) as (ext2 & c2 & -> & Hg2 & Hcache2 & He2 & Hv2 & Hval2).
    { by eapply Forall_valid_path_extends. }
    assert (Hc2 : cache_ok c2) by (by eapply cache_ok_extends).
    destruct (IHl ext2 c2 Hl Hc2 Hv2)
      as (ext' & c' & Hrun & Hc' & He' & Hsub' & Hv' & Hval').
    exists ext', c'. split; [done|]. split; [done|].
    split; [by repeat (etrans; [eassumption|])|].
    split; [etrans; [done|]; by rewrite <- Hcache2|].
    split; [done|].
    rewrite Hval', Hval2, <- app_assoc. cbn [mbind list_bind]. f_equal.
    { by apply fmap_readPath_extends. }
    f_equal. rewrite <- Hval1. unfold pathsValue.
    rewrite <- list_fmap_compose. done.
Qed.

Lemma cache_ok_insert c a' op pl :
  cache_ok c → extends (allocator c) a' →
  valid_list a' pl → pathsValue a' pl = paths op →
  cache_ok (setCache (setAllocator c a') (<[op := pl]> (absolutePathsCache c))).
Proof.
  intros Hc He Hv Hp.
  assert (Hc1 : cache_ok (setAllocator c a')) by (by eapply cache_ok_extends).
  destruct Hc1 as [Hg Hm]. split; [done|]. cbn in *.
  by apply map_Forall_insert_2.
Qed.

Lemma getAbsolutePaths_returns fuel : returns_paths fuel.
Proof.
  induction fuel as [|fuel IH]; intros op c Hc Hin Hr; [lia|].
  cbn [getAbsolutePaths]. destruct Hc as [Hg Hm]. rewrite Hg.
  destruct (decide (op = getTopLevelNode g)) as [->|Hne].
  { eexists _, c. split; [done|]. split; [done|]. split; [done|]. split; [done|].
    split; [|by rewrite Hroot]. split; [done|].
    apply Forall_singleton. done. }
  destruct (absolutePathsCache c !! op) as [cached|] eqn:Ecache.
  { exists cached, c. destruct (Hm op cached Ecache) as [Hv Hp]. done. }
  destruct Hin as [us Hus]. unfold lookup_node. rewrite Hus, bind_Ok.
  destruct (uses_loop fuel IH us [] c) as (ext & c1 & -> & Hc1 & He1 & Hsub1 & Hv1 & Hval1).
  { apply Forall_forall. intros u Hu. split.
    - by eapply graph_closed_lookup.
    - specialize (Hrank op us u Hne Hus Hu). lia. }
  { done. }
  { done. }
  rewrite bind_Ok. cbn beta iota. simpl in Hval1.
  rewrite <- (Hstep op us Hne Hus) in Hval1.
  assert (∃ pl a',
    (match ext with
     | [] => ({| listData := None; listSize := 0 |}, allocator c1)
     | _ => moveToAllocator ext (allocator c1)
     end) = (pl, a')
    ∧ extends (allocator c1) a' ∧ valid_list a' pl ∧ pathsValue a' pl = paths op)
    as (pl & a' & -> & He' & Hv' & Hp').
  { destruct ext as [|p0 ext0] eqn:Eext.
    - eexists _, _. split; [done|]. split; [done|]. split; [by split|].
      by rewrite <- Hval1.
    - rewrite <- Eext in *. clear Eext.
      destruct (moveToAllocator_spec ext (allocator c1))
        as (ptr & a' & -> & Hptr & Hinst & Hpath).
      assert (He' : extends (allocator c1) a').
      { split; [by rewrite Hinst|rewrite Hpath; by apply prefix_app_r]. }
      assert (Hrd : readPaths a' {| listData := Some (InArena ptr);
                                    listSize := length ext |} = ext).
      { unfold readPaths. simpl. rewrite Hpath, Hptr.
        rewrite lookup_app_r by lia. rewrite Nat.sub_diag. simpl.
        by apply take_ge. }
      eexists _, _. split; [done|]. split; [done|]. split.
      + split; rewrite Hrd; [done|]. by eapply Forall_valid_path_extends.
      + unfold pathsValue. rewrite Hrd.
        rewrite (fmap_readPath_extends (allocator c1) a') by done. done. }
  cbn [absolutePathsCache setAllocator].
  destruct (absolutePathsCache c1 !! op) eqn:Ecache1.
  - eexists pl, _. split; [done|].
    split; [by eapply cache_ok_extends|].
    split; [cbn; by etrans|]. done.
  - eexists pl, _. split; [done|].
    split; [by apply cache_ok_insert|].
    split; [cbn; by etrans|].
    split; [|done]. cbn. etrans; [done|]. by apply insert_subseteq.
Qed.

End getAbsolutePaths_correct.

Lemma acyclic_lookup g rank m us u :
  acyclic g rank → m ≠ getTopLevelNode g → nodeMap g !! m = Some us → u ∈ us →
  rank (getParent u) < rank m.
Proof.
  intros Ha Hne Hm Hu. specialize (Ha m us Hm Hne). simpl in Ha.
  rewrite Forall_forall in Ha. by apply Ha.
Qed.

Lemma absolutePathsTo_root depth g :
  absolutePathsTo depth g (getTopLevelNode g) = [[]].
Proof. destruct depth; simpl; by case_decide. Qed.

Lemma absolutePathsTo_S depth g m :
  m ≠ getTopLevelNode g →
  absolutePathsTo (S depth) g m
  = default [] (nodeMap g !! m)
      ≫= (fun u => extendAll u (absolutePathsTo depth g (getParent u))).
Proof. intros Hne. simpl. by case_decide. Qed.

Lemma absolutePathsTo_0 g m :
  m ≠ getTopLevelNode g → absolutePathsTo 0 g m = [].
Proof. intros Hne. simpl. by case_decide. Qed.

(** On an acyclic graph the recursive definition has a solution: unfold it
    as often as the rank of the module says. *)
Lemma absolutePathsTo_stable g rank :
  acyclic g rank → graph_closed g →
  ∀ depth m, is_Some (nodeMap g !! m) → rank m ≤ depth →
  absolutePathsTo depth g m = absolutePathsTo (rank m) g m.
Proof.
  intros Ha Hc depth. induction depth as [depth IH] using lt_wf_ind.
  intros m [us Hus] Hr.
  destruct (decide (m = getTopLevelNode g)) as [->|Hne].
  { by rewrite !absolutePathsTo_root. }
  destruct depth as [|depth].
  { by replace (rank m) with 0 by lia. }
  rewrite absolutePathsTo_S by done. rewrite Hus. simpl.
  destruct (rank m) as [|r] eqn:Er.
  { rewrite absolutePathsTo_0 by done.
    destruct us as [|u us']; [done|].
    assert (Hu : u ∈ u :: us') by (by constructor).
    pose proof (acyclic_lookup g rank m (u :: us') u Ha Hne Hus Hu) as Hlt.
    lia. }
  rewrite absolutePathsTo_S by done. rewrite Hus. simpl.
  apply Forall_bind_ext, Forall_forall. intros u Hu. unfold extendAll. f_equal.
  pose proof (acyclic_lookup g rank m us u Ha Hne Hus Hu) as Hlt.
  pose proof (graph_closed_lookup g m us u Hc Hus Hu) as Hin.
  rewrite (IH depth) by (done || lia).
  rewrite (IH r) by (done || lia). done.
Qed.

Lemma path_equations_solvable g rank :
  acyclic g rank → graph_closed g →
  path_equations g (fun m => absolutePathsTo (rank m) g m).
Proof.
  intros Ha Hc. split.
  { apply absolutePathsTo_root. }
  intros m us Hus Hne. simpl.
  destruct (rank m) as [|r] eqn:Er.
  { rewrite absolutePathsTo_0 by done.
    destruct us as [|u us']; [done|].
    assert (Hu : u ∈ u :: us') by (by constructor).
    pose proof (acyclic_lookup g rank m (u :: us') u Ha Hne Hus Hu) as Hlt.
    lia. }
  rewrite absolutePathsTo_S by done. rewrite Hus. simpl.
  apply Forall_bind_ext, Forall_forall. intros u Hu. unfold extendAll. f_equal.
  pose proof (acyclic_lookup g rank m us u Ha Hne Hus Hu) as Hlt.
  pose proof (graph_closed_lookup g m us u Hc Hus Hu) as Hin.
  apply absolutePathsTo_stable; [done..|lia].
Qed.

(** C1.  Let [paths] be the path sets the recursive definition gives: one
    empty path for the top-level module, and for any other module the paths
    of the parent of each of its uses, each with that use's instance
    appended, over all its uses in turn.  On an acyclic graph, for every
    module of the graph and from every cache that agrees with [paths],
    [getAbsolutePaths] returns a reference to exactly [paths op], leaves a
    cache that agrees with [paths], and changes no array that was there.  A
    module with no uses that is not the top-level module gets no path. *)
Theorem getAbsolutePaths_correct (g : InstanceGraph) (rank : Node → nat)
    (paths : Node → list (list InstanceOp))
    (fuel : nat) (op : Operation) (c : InstancePathCache) :
  graph_closed g →
  acyclic g rank →
  path_equations g paths →
  cache_ok g paths c →
  is_Some (nodeMap g !! op) →
  rank op < fuel →
  ∃ pl c',
    getAbsolutePaths fuel op c = Ok (pl, c')
    ∧ pathsValue (allocator c') pl = paths op
    ∧ (op = getTopLevelNode g → pathsValue (allocator c') pl = [[]])
    ∧ (op ≠ getTopLevelNode g →
       ∀ us, nodeMap g !! op = Some us →
       pathsValue (allocator c') pl
       = us ≫= (fun u => extendAll u (paths (getParent u))))
    ∧ (op ≠ getTopLevelNode g → nodeMap g !! op = Some [] →
       pathsValue (allocator c') pl = [])
    ∧ cache_ok g paths c'
    ∧ extends (allocator c) (allocator c').
Proof.
  intros Hclosed Hacyc [Hroot Heq] Hc Hin Hr.
  assert (Hstep : ∀ m us, m ≠ getTopLevelNode g → nodeMap g !! m = Some us →
    paths m = us ≫= (fun u => (fun p => p ++ [getInstance u])
                                <$> paths (getParent u))).
  { intros m us Hne Hus. by apply (Heq m us Hus). }
  destruct (getAbsolutePaths_returns g rank paths Hclosed
              (fun m us u Hne Hm Hu => acyclic_lookup g rank m us u Hacyc Hne Hm Hu)
              Hroot Hstep fuel op c Hc Hin Hr)
    as (pl & c' & Hrun & Hc' & He & Hsub & Hv & Hp).
  exists pl, c'. split; [done|]. split; [done|].
  split; [intros ->; by rewrite Hp|].
  split; [intros Hne us Hus; rewrite Hp; by apply Hstep|].
  split; [|done]. intros Hne Hus. rewrite Hp. by rewrite (Hstep op [] Hne Hus).
Qed.

Example getAbsolutePaths_example_chain :
  (fun r => pathsValue (allocator r.2) r.1) <$> getAbsolutePaths 3 1 (newCache exampleGraph)
  = Ok [[10]].
Proof. vm_compute. reflexivity. Qed.

Example getAbsolutePaths_example_twice :
  (fun r => pathsValue (allocator r.2) r.1) <$> getAbsolutePaths 3 2 (newCache exampleGraph)
  = Ok [[10; 11]; [12]].
Proof. vm_compute. reflexivity. Qed.

Lemma getAbsolutePaths_correct_witness :
  ∃ pl c',
    getAbsolutePaths 3 2 (newCache exampleGraph) = Ok (pl, c')
    ∧ pathsValue (allocator c') pl = absolutePathsTo 2 exampleGraph 2
    ∧ (2 = getTopLevelNode exampleGraph → pathsValue (allocator c') pl = [[]])
    ∧ (2 ≠ getTopLevelNode exampleGraph →
       ∀ us, nodeMap exampleGraph !! 2 = Some us →
       pathsValue (allocator c') pl
       = us ≫= (fun u => extendAll u (absolutePathsTo 2 exampleGraph (getParent u))))
    ∧ (2 ≠ getTopLevelNode exampleGraph → nodeMap exampleGraph !! 2 = Some [] →
       pathsValue (allocator c') pl = [])
    ∧ cache_ok exampleGraph (absolutePathsTo 2 exampleGraph) c'
    ∧ extends (allocator (newCache exampleGraph)) (allocator c').
Proof.
  apply (getAbsolutePaths_correct exampleGraph (fun m => m)
           (absolutePathsTo 2 exampleGraph) 3 2 (newCache exampleGraph)).
  - apply (bool_decide_unpack _). vm_compute. exact I.
  - apply (bool_decide_unpack _). vm_compute. exact I.
  - apply (bool_decide_unpack _). vm_compute. exact I.
  - split; [reflexivity|]. apply map_Forall_empty.
  - exists [ {| getInstance := 11; getParent := 1; getTarget := 2 |};
             {| getInstance := 12; getParent := 0; getTarget := 2 |} ].
    vm_compute. reflexivity.
  - lia.
Defined.

(** ** [replaceInstance] *)

Lemma substFirst_length oldOp newOp l :
  length (substFirst oldOp newOp l) = length l.
Proof.
  unfold substFirst. destruct (list_find _ l) as [[i x]|]; [|done].
  by rewrite length_insert.
Qed.

Lemma substFirst_absent oldOp newOp l :
  oldOp ∉ l → substFirst oldOp newOp l = l.
Proof.
  intros Hn. unfold substFirst.
  destruct (list_find _ l) as [[i x]|] eqn:E; [|done].
  apply list_find_Some in E as (Hi & -> & _).
  exfalso. apply Hn. by eapply list_elem_of_lookup_2.
Qed.

(** Position by position: the first [oldOp] becomes [newOp], every other
    cell keeps its value. *)
Lemma substFirst_lookup_first oldOp newOp l j :
  l !! j = Some oldOp → (∀ k, k < j → l !! k ≠ Some oldOp) →
  substFirst oldOp newOp l !! j = Some newOp.
Proof.
  intros Hj Hk. unfold substFirst.
  destruct (list_find _ l) as [[i x]|] eqn:E.
  - apply list_find_Some in E as (Hi & -> & Hfirst).
    assert (i = j) as ->.
    { destruct (decide (i < j)) as [Hlt|Hge]; [by destruct (Hk i Hlt)|].
      destruct (decide (j < i)) as [Hlt|Hge']; [|lia].
      by destruct (Hfirst j oldOp Hj Hlt). }
    by rewrite list_lookup_insert_eq by (by eapply lookup_lt_Some).
  - apply list_find_None in E. rewrite Forall_forall in E.
    destruct (E oldOp); [|done]. by eapply list_elem_of_lookup_2.
Qed.

Lemma substFirst_lookup_other oldOp newOp l j :
  l !! j ≠ Some oldOp ∨ (∃ k, k < j ∧ l !! k = Some oldOp) →
  substFirst oldOp newOp l !! j = l !! j.
Proof.
  intros Hj. unfold substFirst.
  destruct (list_find _ l) as [[i x]|] eqn:E; [|done].
  apply list_find_Some in E as (Hi & -> & Hfirst).
  rewrite list_lookup_insert_ne; [done|]. intros ->.
  destruct Hj as [Hj|(k & Hk & Hlk)]; [done|].
  by apply (Hfirst k oldOp Hlk Hk).
Qed.

Lemma replaceInPath_spec oldOp newOp upd a p :
  valid_path a p →
  ∃ p' a',
    replaceInPath oldOp newOp (upd, a) p = (push_back upd p', a')
    ∧ extends a a'
    ∧ pathArrays a' = pathArrays a
    ∧ valid_path a' p'
    ∧ path_replaced oldOp newOp a a' p p'.
Proof.
  intros Hv. unfold replaceInPath, path_replaced, substFirst.
  destruct (list_find _ (readPath a p)) as [[i x]|] eqn:E.
  - unfold AllocateInstanceOp, Allocate. cbn [setInstArrays instArrays pathArrays].
    eexists _, _. split; [reflexivity|].
    unfold copy, store. rewrite Allocate_fill.
    match goal with |- context [readPath ?a1 p ++ _] =>
      assert (Hrd : readPath a1 p = readPath a p); [|rewrite Hrd]
    end.
    { apply readPath_extends; [|done]. split; simpl; [by apply prefix_app_r|done]. }
    unfold valid_path in Hv. rewrite drop_replicate, Hv, Nat.sub_diag. simpl.
    rewrite app_nil_r.
    match goal with |- extends a ?a3 ∧ _ => set (A3 := a3) end.
    assert (Hi3 : instArrays A3 = instArrays a ++ [<[i:=newOp]> (readPath a p)])
      by done.
    assert (Hp3 : pathArrays A3 = pathArrays a) by done.
    clearbody A3.
    assert (Hread : readPath A3
      {| pathData := Some (length (instArrays a)); pathSize := pathSize p |}
      = <[i:=newOp]> (readPath a p)).
    { unfold readPath at 1. simpl. rewrite Hi3, lookup_app_r by lia.
      rewrite Nat.sub_diag. simpl. apply take_ge. rewrite length_insert. lia. }
    split; [split; [rewrite Hi3; by apply prefix_app_r|by rewrite Hp3]|].
    split; [done|]. split.
    { unfold valid_path. rewrite Hread, length_insert. done. }
    split; [done|]. split; [done|]. split.
    + intros Hn. exfalso. apply list_find_Some in E as (Hi & -> & _).
      apply Hn. by eapply list_elem_of_lookup_2.
    + intros _. eexists. split; [done|]. simpl. done.
  - eexists p, a. split; [done|]. split; [done|]. split; [done|].
    split; [done|]. split; [done|]. split; [done|]. split; [done|].
    intros Hin. exfalso. apply list_find_None in E. rewrite Forall_forall in E.
    by apply (E oldOp).
Qed.

Lemma extends_length_inst a a' :
  extends a a' → length (instArrays a) ≤ length (instArrays a').
Proof. intros [H _]. by apply prefix_length. Qed.

Lemma extends_length_path a a' :
  extends a a' → length (pathArrays a) ≤ length (pathArrays a').
Proof. intros [_ H]. by apply prefix_length. Qed.

Lemma path_replaced_later oldOp newOp a a1 a' p p' :
  path_replaced oldOp newOp a a1 p p' → valid_path a1 p' → extends a1 a' →
  path_replaced oldOp newOp a a' p p'.
Proof.
  intros (Hrd & Hsz & Habs & Hin) Hv He. split_and!; [|done..].
  by rewrite (readPath_extends a1 a').
Qed.

Lemma path_replaced_earlier oldOp newOp a0 a a' p p' :
  path_replaced oldOp newOp a a' p p' → valid_path a0 p → extends a0 a →
  path_replaced oldOp newOp a0 a' p p'.
Proof.
  intros (Hrd & Hsz & Habs & Hin) Hv He.
  rewrite (readPath_extends a0 a) in * by done. split_and!; [done..|].
  intros Ho. destruct (Hin Ho) as (ptr & ? & ?). exists ptr. split; [done|].
  pose proof (extends_length_inst a0 a He). lia.
Qed.

Lemma Forall2_path_replaced_earlier oldOp newOp a0 a a' ps qs :
  Forall (valid_path a0) ps → extends a0 a →
  Forall2 (path_replaced oldOp newOp a a') ps qs →
  Forall2 (path_replaced oldOp newOp a0 a') ps qs.
Proof.
  intros Hv He Hrep. induction Hrep as [|p q ps qs Hpq Hrep IH]; [constructor|].
  apply Forall_cons in Hv as [Hp Hv]. constructor; [|by apply IH].
  by eapply path_replaced_earlier.
Qed.

Lemma replaceInPath_loop oldOp newOp ps : ∀ upd a,
  Forall (valid_path a) ps → Forall (valid_path a) upd →
  ∃ new_ps a',
    foldl (replaceInPath oldOp newOp) (upd, a) ps = (upd ++ new_ps, a')
    ∧ extends a a'
    ∧ pathArrays a' = pathArrays a
    ∧ Forall (valid_path a') (upd ++ new_ps)
    ∧ Forall2 (path_replaced oldOp newOp a a') ps new_ps.
Proof.
  induction ps as [|p ps IH]; intros upd a Hps Hupd.
  - exists [], a. rewrite app_nil_r. simpl. split_and!; done.
  - apply Forall_cons in Hps as [Hp Hps]. cbn [foldl].
    destruct (replaceInPath_spec oldOp newOp upd a p Hp)
      as (p' & a1 & -> & He1 & Hpa1 & Hv1 & Hrep1).
    destruct (IH (push_back upd p') a1) as (new_ps & a' & -> & He & Hpa & Hv & Hrep).
    { by eapply Forall_valid_path_extends. }
    { unfold push_back. apply Forall_app. split;
        [by eapply Forall_valid_path_extends|by apply Forall_singleton]. }
    exists (p' :: new_ps), a'. unfold push_back in *. rewrite <- app_assoc in *.
    simpl in *. split; [done|]. split; [by etrans|]. split; [congruence|].
    split; [done|]. constructor.
    + by eapply path_replaced_later.
    + by eapply Forall2_path_replaced_earlier.
Qed.

Lemma instanceExists_holds a oldOp pl :
  instanceExists a oldOp pl = true ↔ holds a oldOp pl.
Proof.
  unfold instanceExists, holds. rewrite existsb_exists. split.
  - intros (p & Hp & Hd). exists p. split; [by apply list_elem_of_In|].
    by apply bool_decide_eq_true in Hd.
  - intros (p & Hp & Hd). exists p. split; [by apply list_elem_of_In|].
    by apply bool_decide_eq_true.
Qed.

Lemma entry_replaced_same oldOp newOp a pl :
  valid_list a pl → ¬ holds a oldOp pl → entry_replaced oldOp newOp a a pl pl.
Proof.
  intros Hv Hn. split; [done|]. split; [|split; [done|by intros ?]].
  apply Forall2_same_length_lookup. split; [done|].
  intros i p p' Hp Hp'. simplify_eq.
  assert (Hout : oldOp ∉ readPath a p).
  { intros Hin. apply Hn. exists p. split; [|done]. by eapply list_elem_of_lookup_2. }
  split; [by rewrite substFirst_absent|]. split; [done|]. split; [done|].
  by intros ?.
Qed.

Lemma replaceInEntry_spec oldOp newOp cache a op pl :
  valid_list a pl →
  ∃ cache' pl' a',
    replaceInEntry oldOp newOp (cache, a) (op, pl) = (cache', a')
    ∧ extends a a'
    ∧ entry_replaced oldOp newOp a a' pl pl'
    ∧ (cache' = cache ∧ pl' = pl ∨ cache' = <[op := pl']> cache).
Proof.
  intros Hv. unfold replaceInEntry.
  destruct (instanceExists a oldOp pl) eqn:Eex; cbn [negb].
  - apply instanceExists_holds in Eex.
    destruct Hv as [Hlen Hps].
    destruct (replaceInPath_loop oldOp newOp (readPaths a pl) [] a Hps)
      as (new_ps & a1 & -> & He1 & Hpa1 & Hv1 & Hrep); [done|]. cbn [app] in *.
    destruct (moveToAllocator_spec new_ps a1) as (ptr & a' & -> & Hptr & Hinst & Hpath).
    assert (He' : extends a1 a').
    { split; [by rewrite Hinst|rewrite Hpath; by apply prefix_app_r]. }
    set (pl' := {| listData := Some (InArena ptr); listSize := length new_ps |}).
    assert (Hrd : readPaths a' pl' = new_ps).
    { unfold readPaths. simpl. rewrite Hpath, Hptr.
      rewrite lookup_app_r by lia. rewrite Nat.sub_diag. simpl. by apply take_ge. }
    exists (<[op := pl']> cache), pl', a'. split; [done|]. split; [by etrans|].
    split; [|by right]. split.
    { split; rewrite Hrd; [done|]. by eapply Forall_valid_path_extends. }
    rewrite Hrd. split.
    { eapply Forall2_impl; [done|]. intros p p' Hpp'.
      (* the new paths are read the same after the list array is added *)
      destruct Hpp' as (Hr & Hs & Habs & Hin). split_and!; [|done..].
      rewrite <- Hr. unfold readPath. by rewrite Hinst. }
    split; [by intros ?|]. intros _. exists ptr. split; [done|].
    rewrite Hptr, Hpa1. done.
  - exists cache, pl, a. split; [done|]. split; [done|]. split; [|by left].
    apply entry_replaced_same; [done|]. intros Hh.
    apply instanceExists_holds in Hh. congruence.
Qed.


Lemma Forall2_path_replaced_later oldOp newOp a a1 a' ps qs :
  Forall (valid_path a1) qs → extends a1 a' →
  Forall2 (path_replaced oldOp newOp a a1) ps qs →
  Forall2 (path_replaced oldOp newOp a a') ps qs.
Proof.
  intros Hv He Hrep. induction Hrep as [|p q ps qs Hpq Hrep IH]; [constructor|].
  apply Forall_cons in Hv as [Hq Hv]. constructor; [|by apply IH].
  by eapply path_replaced_later.
Qed.

Lemma holds_extends a0 a oldOp pl :
  valid_list a0 pl → extends a0 a → holds a oldOp pl ↔ holds a0 oldOp pl.
Proof.
  intros [Hlen Hv] He. unfold holds.
  rewrite (readPaths_extends a0 a) by done. rewrite Forall_forall in Hv.
  split; intros (p & Hp & Hin); exists p; (split; [done|]).
  - by rewrite <- (readPath_extends a0 a) by auto.
  - by rewrite (readPath_extends a0 a) by auto.
Qed.

Lemma entry_replaced_frame oldOp newOp a0 a a1 a' pl pl' :
  valid_list a0 pl → extends a0 a → extends a1 a' →
  entry_replaced oldOp newOp a a1 pl pl' →
  entry_replaced oldOp newOp a0 a' pl pl'.
Proof.
  intros Hv0 He0 He1 (Hv1 & Hrep & Hsame & Hfresh).
  pose proof (holds_extends a0 a oldOp pl Hv0 He0) as Hh.
  split; [by eapply valid_list_extends|].
  split; [|split].
  - destruct Hv0 as [Hlen0 Hps0]. destruct Hv1 as [Hlen1 Hps1].
    rewrite (readPaths_extends a1 a') by done.
    rewrite (readPaths_extends a0 a) in Hrep by done.
    eapply Forall2_path_replaced_later; [done..|].
    by eapply Forall2_path_replaced_earlier.
  - intros Hn. apply Hsame. by rewrite Hh.
  - intros Hy. destruct Hfresh as (ptr & ? & ?); [by rewrite Hh|].
    exists ptr. split; [done|]. pose proof (extends_length_path a0 a He0). lia.
Qed.

Lemma replaceInEntry_loop oldOp newOp a0 (l : list (Operation * PathList)) :
  ∀ cache a,
  extends a0 a → NoDup l.*1 →
  Forall (fun e => valid_list a0 e.2 ∧ cache !! e.1 = Some e.2) l →
  ∃ cache' a',
    foldl (replaceInEntry oldOp newOp) (cache, a) l = (cache', a')
    ∧ extends a a'
    ∧ (∀ op, op ∉ l.*1 → cache' !! op = cache !! op)
    ∧ (∀ op pl, (op, pl) ∈ l →
       ∃ pl', cache' !! op = Some pl'
              ∧ entry_replaced oldOp newOp a0 a' pl pl').
Proof.
  induction l as [|[op pl] l IH]; intros cache a He Hnd Hl.
  - exists cache, a. split; [done|]. split; [done|]. split; [done|].
    intros op pl Hin. by apply elem_of_nil in Hin.
  - apply Forall_cons in Hl as [[Hv Hlk] Hl]. simpl in Hv, Hlk.
    rewrite fmap_cons in Hnd. apply NoDup_cons in Hnd as [Hnin Hnd]. simpl in Hnin.
    cbn [foldl].
    destruct (replaceInEntry_spec oldOp newOp cache a op pl)
      as (cache1 & pl1 & a1 & -> & He1 & Hrep1 & Hcache1).
    { by eapply valid_list_extends. }
    assert (Hother : ∀ op', op' ≠ op → cache1 !! op' = cache !! op').
    { intros op' Hne. destruct Hcache1 as [[-> _]| ->]; [done|].
      by rewrite lookup_insert_ne. }
    assert (Hthis : cache1 !! op = Some pl1).
    { destruct Hcache1 as [[-> ->]| ->]; [done|]. by rewrite lookup_insert_eq. }
    destruct (IH cache1 a1) as (cache' & a' & Hrun & He' & Hkeep & Hdone).
    { by etrans. }
    { done. }
    { rewrite Forall_forall in Hl |- *. intros [op' pl'] Hin.
      destruct (Hl _ Hin) as [? Hlk']. simpl in *. split; [done|].
      rewrite Hother; [done|]. intros ->. apply Hnin.
      apply list_elem_of_fmap. by exists (op, pl'). }
    exists cache', a'. split; [done|]. split; [by etrans|]. split.
    + intros op' Hn. rewrite fmap_cons in Hn. apply not_elem_of_cons in Hn as [Hne Hn].
      rewrite Hkeep by done. by apply Hother.
    + intros op' pl' Hin. apply elem_of_cons in Hin as [Heq|Hin].
      * simplify_eq. exists pl1. split; [by rewrite Hkeep|].
        by eapply entry_replaced_frame.
      * by apply Hdone.
Qed.

(** C2.  In a cache whose references are in range, after
    [replaceInstance oldOp newOp] every array that was in the arena is still
    there unchanged and the cache has the same keys.  An entry none of
    whose paths holds [oldOp] keeps its reference.  In an entry that holds
    it, the new list is a fresh array of the same length; position by
    position, a path that holds [oldOp] is a fresh array of the same length
    whose cells are those of the old path with [newOp] written at the
    position of the first [oldOp], and a path that does not hold it is the
    same reference, with the same cells. *)
Theorem replaceInstance_cache (oldOp newOp : InstanceOp) (c : InstancePathCache) :
  cache_valid c →
  let c' := replaceInstance oldOp newOp c in
  extends (allocator c) (allocator c')
  ∧ (∀ op, absolutePathsCache c !! op = None → absolutePathsCache c' !! op = None)
  ∧ (∀ op pl, absolutePathsCache c !! op = Some pl →
       ∃ pl', absolutePathsCache c' !! op = Some pl'
              ∧ entry_replaced oldOp newOp (allocator c) (allocator c') pl pl').
Proof.
  intros Hvalid. unfold replaceInstance.
  destruct (replaceInEntry_loop oldOp newOp (allocator c)
              (map_to_list (absolutePathsCache c))
              (absolutePathsCache c) (allocator c))
    as (cache' & a' & -> & He & Hkeep & Hdone).
  { done. }
  { apply NoDup_fst_map_to_list. }
  { apply Forall_forall. intros [op pl] Hin. apply elem_of_map_to_list in Hin.
    simpl. split; [|done]. by apply (Hvalid op pl). }
  simpl. split; [done|]. split.
  - intros op Hnone. rewrite Hkeep; [done|]. intros Hin.
    apply list_elem_of_fmap in Hin as ([op' pl] & -> & Hin).
    apply elem_of_map_to_list in Hin. simpl in *. congruence.
  - intros op pl Hlk. apply Hdone. by apply elem_of_map_to_list.
Qed.

Example replaceInstance_example_paths :
  cachedPaths exampleCache 2 = Some [[10; 11]; [12]]
  ∧ cachedPaths (replaceInstance 10 99 exampleCache) 2 = Some [[99; 11]; [12]]
  ∧ cachedPaths (replaceInstance 10 99 exampleCache) 1 = Some [[99]].
Proof. vm_compute. done. Qed.

(** An instance that no cached path holds: the entries keep their
    references and the arena its arrays. *)
Example replaceInstance_example_untouched :
  absolutePathsCache (replaceInstance 77 99 exampleCache) = absolutePathsCache exampleCache
  ∧ allocator (replaceInstance 77 99 exampleCache) = allocator exampleCache.
Proof. vm_compute. done. Qed.

Lemma replaceInstance_cache_witness :
  let c' := replaceInstance 10 99 exampleCache in
  extends (allocator exampleCache) (allocator c')
  ∧ (∀ op, absolutePathsCache exampleCache !! op = None →
           absolutePathsCache c' !! op = None)
  ∧ (∀ op pl, absolutePathsCache exampleCache !! op = Some pl →
       ∃ pl', absolutePathsCache c' !! op = Some pl'
              ∧ entry_replaced 10 99 (allocator exampleCache) (allocator c') pl pl').
Proof.
  apply (replaceInstance_cache 10 99 exampleCache).
  apply (bool_decide_unpack _). vm_compute. exact I.
Defined.

(** ** LowerAnnotations: the LCA loop *)

Section wiring.
Context {namespaceOps : NamespaceOps}.

Lemma applyM_bind_Ok {A B} (m : ApplyM A) (k : A → ApplyM B) st a st' :
  m st = Ok (a, st') → (m ≫= k) st = k a st'.
Proof. intros H. unfold mbind, ApplyM_bind. by rewrite H. Qed.

Lemma applyM_bind_Fail {A B} (m : ApplyM A) (k : A → ApplyM B) st f :
  m st = Fail f → (m ≫= k) st = Fail f.
Proof. intros H. unfold mbind, ApplyM_bind. by rewrite H. Qed.

Lemma lcaOf_cons design top s common :
  lcaOf design top (s :: common)
  = lcaOf design (getReferencedModule design s) common.
Proof.
  unfold lcaOf. rewrite fmap_cons, last_cons.
  by destruct (last (getReferencedModule design <$> common)).
Qed.

(** Where the two paths part before either ends, or the source path ends
    first, the loop does what is wanted of it. *)
Lemma lcaLoop_diverging design common : ∀ lca sources sinks,
  Forall (isFModule design) common →
  match sources, sinks with
  | s :: _, k :: _ => s ≠ k
  | [], _ :: _ => True
  | _, [] => False
  end →
  lcaLoop design lca (common ++ sources) (common ++ sinks)
  = Ok (lcaOf design lca common, sources, sinks).
Proof.
  induction common as [|c common IH]; intros lca sources sinks Hk Hd.
  - simpl. destruct sources as [|s sources], sinks as [|k sinks]; try done.
    simpl. by rewrite bool_decide_true.
  - apply Forall_cons in Hk as [Hc Hk]. rewrite lcaOf_cons.
    rewrite <- (IH (getReferencedModule design c) sources sinks Hk Hd).
    simpl. rewrite bool_decide_false by (by intros ?).
    unfold castFModuleOp. rewrite decide_True by done. done.
Qed.

(** C3.  The loop that consumes the common prefix of the two paths goes
    on while [!sources.empty() || sinks.empty()]: whenever the sink path is
    a prefix of the source path (the sink in the top-level module, in a
    module on the way to the source, or in the module of the source), the
    loop is entered with [sinks] empty and reads [sources[0]] and
    [sinks[0]] out of range, so such a problem gets no LCA and no chains. *)
Theorem lcaLoop_reads_past_the_sink_path (design : IR) (lca : Operation)
    (common rest : list InstanceOp) :
  Forall (isFModule design) common →
  lcaLoop design lca (common ++ rest) common = Fail InvalidAccess.
Proof.
  revert lca. induction common as [|c common IH]; intros lca Hk.
  - simpl. by destruct rest.
  - apply Forall_cons in Hk as [Hc Hk].
    simpl. rewrite bool_decide_false by (by intros ?).
    unfold castFModuleOp. rewrite decide_True by done. simpl. by apply IH.
Qed.

(** ** LowerAnnotations: the ports to add *)




Lemma modificationsOf_pushPort mods module port index m :
  modificationsOf (pushPort mods module port index) m
  = if decide (m = module)
    then {| portsToAdd := push_back (portsToAdd (modificationsOf mods m)) (port, index);
            connectionMap := connectionMap (modificationsOf mods m);
            uturns := uturns (modificationsOf mods m) |}
    else modificationsOf mods m.
Proof.
  unfold modificationsOf, pushPort. destruct (decide (m = module)) as [->|Hne].
  - by rewrite lookup_insert_eq.
  - by rewrite lookup_insert_ne.
Qed.




(** ** LowerAnnotations: exactly one path for the source and for the sink *)



End wiring.

(** The example of the specification: paths [s1, s2, s3] to the source and
    [s1, s2, s4] to the sink.  The common ancestor is the module of [s2];
    the module of [s3] gets an output port and the module of [s4] an input
    port. *)
Example lcaLoop_example :
  lcaLoop exampleDesign 0 [20; 21; 22] [20; 21; 23] = Ok (2, [22], [23]).
Proof. vm_compute. reflexivity. Qed.

Example groupProblem_example :
  portsPlanned (groupProblem 5 ∅ (7, exampleProblem 3 4) (exampleState wiringGraph))
  = Ok [ [];
         [ ({| portName := "tap"; portType := RefType 0; direction := Out |}, 7) ];
         [ ({| portName := "tap"; portType := RefType 0; direction := In |}, 7) ] ].
Proof. vm_compute. reflexivity. Qed.

(** A source deeper on the path of the sink: the source path ends last. *)
Example groupProblem_example_sink_above :
  portsPlanned (groupProblem 5 ∅ (7, exampleProblem 3 2) (exampleState wiringGraph))
  = Fail InvalidAccess.
Proof. vm_compute. reflexivity. Qed.

(** A sink deeper on the path of the source: the source path ends first. *)
Example groupProblem_example_source_above :
  portsPlanned (groupProblem 5 ∅ (7, exampleProblem 2 3) (exampleState wiringGraph))
  = Ok [ [];
         [ ({| portName := "tap"; portType := RefType 0; direction := In |}, 7) ];
         [] ].
Proof. vm_compute. reflexivity. Qed.

(** A sink in the top-level module. *)
Example groupProblem_example_sink_at_top :
  portsPlanned (groupProblem 5 ∅ (7, exampleProblem 1 0) (exampleState wiringGraph))
  = Fail InvalidAccess.
Proof. vm_compute. reflexivity. Qed.

(** Source and sink in one module. *)
Example groupProblem_example_same_module :
  portsPlanned (groupProblem 5 ∅ (7, exampleProblem 3 3) (exampleState wiringGraph))
  = Fail InvalidAccess.
Proof. vm_compute. reflexivity. Qed.

Lemma lcaLoop_reads_past_the_sink_path_witness :
  lcaLoop exampleDesign 0 ([20] ++ [21; 22]) [20] = Fail InvalidAccess.
Proof.
  apply (lcaLoop_reads_past_the_sink_path exampleDesign 0 [20] [21; 22]).
  apply (bool_decide_unpack _). vm_compute. exact I.
Defined.



(** ** LowerAnnotations: who touches the worklist *)

Section worklist_basics.
Context {namespaceOps : NamespaceOps} {externals : Externals}.

Lemma keepsWorklist_ret {A} (a : A) : keepsWorklist (mret a).
Proof. intros st a' st' H. by injection H as _ <-. Qed.

Lemma keepsWorklist_bind {A B} (m : ApplyM A) (k : A → ApplyM B) :
  keepsWorklist m → (∀ a, keepsWorklist (k a)) → keepsWorklist (m ≫= k).
Proof.
  intros Hm Hk st b st' H. unfold mbind, ApplyM_bind in H.
  destruct (m st) as [[a st1]|f] eqn:E; [|done].
  rewrite (Hk a st1 b st' H). by eapply Hm.
Qed.

Lemma keepsWorklist_getState : keepsWorklist getState.
Proof. intros st a st' H. by injection H as _ <-. Qed.

Lemma keepsWorklist_liftResult {A} (r : Result A) : keepsWorklist (liftResult r).
Proof. intros st a st' H. destruct r; [|done]. by injection H as _ <-. Qed.

Lemma keepsWorklist_modifyState (f : ApplyState → ApplyState) :
  (∀ st, worklistAttrs (f st) = worklistAttrs st) → keepsWorklist (modifyState f).
Proof. intros Hf st a st' H. injection H as _ <-. apply Hf. Qed.

Lemma keepsWorklist_emitError d : keepsWorklist (emitError d).
Proof. by apply keepsWorklist_modifyState. Qed.

Lemma keepsWorklist_foldlM {A B} (f : A → B → ApplyM A) (l : list B) :
  (∀ a b, keepsWorklist (f a b)) → ∀ a, keepsWorklist (foldlM f a l).
Proof.
  intros Hf. induction l as [|b l IH]; intros a; simpl.
  - apply keepsWorklist_ret.
  - apply keepsWorklist_bind; [apply Hf|apply IH].
Qed.

End worklist_basics.

Create HintDb keeps.
#[global] Hint Resolve keepsWorklist_ret keepsWorklist_getState
  keepsWorklist_liftResult keepsWorklist_emitError : keeps.

(** Walks through binds, loops and case distinctions; the leaves are
    closed from the hint database, before any definition is unfolded. *)
Ltac keeps :=
  repeat first
    [ solve [auto with keeps]
    | apply keepsWorklist_modifyState; by intros ?
    | apply keepsWorklist_bind; [|intros ?]
    | apply keepsWorklist_foldlM; intros ? ?
    | case_match ].

Section annotation_handlers.
Context {namespaceOps : NamespaceOps} {externals : Externals}.

Lemma keepsWorklist_addAnnotation ref fieldIdx anno :
  keepsWorklist (addAnnotation ref fieldIdx anno).
Proof. unfold addAnnotation. keeps. Qed.

#[local] Hint Resolve keepsWorklist_addAnnotation : keeps.

Section with_externals.
Hypothesis Hext : externalsKeepWorklist.

Lemma keepsWorklist_buildNLA target : keepsWorklist (buildNLA target).
Proof.
  destruct Hext as (_ & _ & _ & _ & _ & _ & _ & Href & Hname & Hsym).
  unfold buildNLA. keeps.
Qed.

#[local] Hint Resolve keepsWorklist_buildNLA : keeps.

Lemma keepsWorklist_applyWithoutTargetImpl target anno allowNonLocal :
  keepsWorklist (applyWithoutTargetImpl target anno allowNonLocal).
Proof. unfold applyWithoutTargetImpl, scatterNonLocalPath. keeps. Qed.

Lemma keepsWorklist_stdResolveImpl rawPath : keepsWorklist (stdResolveImpl rawPath).
Proof. destruct Hext as (Hres & _). unfold stdResolveImpl. keeps. Qed.

#[local] Hint Resolve keepsWorklist_applyWithoutTargetImpl
  keepsWorklist_stdResolveImpl : keeps.

Lemma keepsWorklist_noResolve anno : keepsWorklist (noResolve anno).
Proof. unfold noResolve. keeps. Qed.

Lemma keepsWorklist_stdResolve anno : keepsWorklist (stdResolve anno).
Proof. unfold stdResolve. keeps. Qed.

Lemma keepsWorklist_tryResolve anno : keepsWorklist (tryResolve anno).
Proof. unfold tryResolve. keeps. Qed.

Lemma keepsWorklist_applyWithoutTarget b target anno :
  keepsWorklist (applyWithoutTarget b target anno).
Proof. apply keepsWorklist_applyWithoutTargetImpl. Qed.

Lemma keepsWorklist_applyWithoutTargetOn b1 b2 kinds target anno :
  keepsWorklist (applyWithoutTargetOn b1 b2 kinds target anno).
Proof.
  unfold applyWithoutTargetOn. keeps.
Qed.

Lemma keepsWorklist_drop target anno : keepsWorklist (drop target anno).
Proof. unfold drop. keeps. Qed.

#[local] Hint Resolve keepsWorklist_noResolve keepsWorklist_stdResolve
  keepsWorklist_tryResolve keepsWorklist_applyWithoutTarget
  keepsWorklist_applyWithoutTargetOn keepsWorklist_drop : keeps.

Lemma annotationRecords_keepWorklist :
  Forall (fun e => recordKeepsWorklist e.2) annotationRecords.
Proof.
  destruct Hext as (_ & Hview & Htaps & Hmem & Hsig & Homir & Htrace & _).
  unfold annotationRecords. cbv zeta.
  repeat (apply Forall_cons; split;
    [split; simpl; intros; auto with keeps|]).
  constructor.
Qed.

Lemma findRecord_keepsWorklist annoStr record :
  findRecord annotationRecords annoStr = Some record → recordKeepsWorklist record.
Proof.
  pose proof annotationRecords_keepWorklist as Hall.
  induction Hall as [|[k r] records Hr Hall IH]; simpl; [done|].
  case_decide; [|done]. by intros [= <-].
Qed.

Lemma keepsWorklist_applyRecord record anno :
  recordKeepsWorklist record → keepsWorklist (applyRecord record anno).
Proof. intros [Hr Ha]. unfold applyRecord. keeps. Qed.

Lemma getAnnotationHandler_keepsWorklist annoStr ignore record :
  getAnnotationHandler annoStr ignore = Some record → recordKeepsWorklist record.
Proof.
  unfold getAnnotationHandler.
  destruct (findRecord annotationRecords annoStr) eqn:E.
  - intros [= <-]. by eapply findRecord_keepsWorklist.
  - destruct ignore; [|done]. apply findRecord_keepsWorklist.
Qed.

Lemma keepsWorklist_applyAnnotation pass anno :
  keepsWorklist (applyAnnotation pass anno).
Proof.
  unfold applyAnnotation.
  match goal with |- keepsWorklist (match ?x with _ => _ end) => destruct x end;
    [|keeps].
  apply keepsWorklist_bind; [keeps|intros cls].
  destruct (getAnnotationHandler cls false) as [record|] eqn:E1.
  { apply keepsWorklist_bind; [|intros ?; keeps].
    apply keepsWorklist_applyRecord. by eapply getAnnotationHandler_keepsWorklist. }
  destruct (negb _); [keeps|].
  destruct (getAnnotationHandler cls (ignoreUnhandledAnno (incrNumUnhandled pass)))
    as [record|] eqn:E2; [|keeps].
  apply keepsWorklist_bind; [|intros ?; keeps].
  apply keepsWorklist_applyRecord. by eapply getAnnotationHandler_keepsWorklist.
Qed.

End with_externals.

(** ** LowerAnnotations: [applyAnnotation] *)

(** What [applyAnnotation] does, case by case. *)
Lemma applyAnnotation_no_class_strict pass anno st :
  getNamed anno "class" = None → ignoreClasslessAnno pass = false →
  applyAnnotation pass anno st
  = Ok ((failure, pass),
        setDiagnostics st (push_back (diagnostics st) (AnnotationWithoutClass anno))).
Proof. intros Hc Hi. unfold applyAnnotation. by rewrite Hc, Hi. Qed.

Lemma applyAnnotation_no_class_tolerated pass anno st :
  getNamed anno "class" = None → ignoreClasslessAnno pass = true →
  applyAnnotation pass anno st
  = (r ← applyRecord missingRecord anno; mret (r, pass)) st.
Proof. intros Hc Hi. unfold applyAnnotation. by rewrite Hc, Hi. Qed.

Lemma applyAnnotation_known pass anno st cls record :
  getNamed anno "class" = Some (StringAttr cls) →
  findRecord annotationRecords cls = Some record →
  applyAnnotation pass anno st
  = (r ← applyRecord record anno; mret (r, pass)) st.
Proof.
  intros Hc Hr. unfold applyAnnotation. rewrite Hc. simpl.
  rewrite (applyM_bind_Ok _ _ st cls st) by done.
  unfold getAnnotationHandler. by rewrite Hr.
Qed.

Lemma applyAnnotation_unknown_strict pass anno st cls :
  getNamed anno "class" = Some (StringAttr cls) →
  findRecord annotationRecords cls = None →
  ignoreUnhandledAnno pass = false →
  applyAnnotation pass anno st
  = Ok ((failure, incrNumUnhandled pass),
        setDiagnostics st (push_back (diagnostics st) (UnhandledAnnotation anno))).
Proof.
  intros Hc Hr Hi. unfold applyAnnotation. rewrite Hc. simpl.
  rewrite (applyM_bind_Ok _ _ st cls st) by done.
  unfold getAnnotationHandler. rewrite Hr. simpl. by rewrite Hi.
Qed.

Lemma applyAnnotation_unknown_tolerated pass anno st cls :
  getNamed anno "class" = Some (StringAttr cls) →
  findRecord annotationRecords cls = None →
  ignoreUnhandledAnno pass = true →
  applyAnnotation pass anno st
  = (r ← applyRecord missingRecord anno; mret (r, incrNumUnhandled pass)) st.
Proof.
  intros Hc Hr Hi. unfold applyAnnotation. rewrite Hc. simpl.
  rewrite (applyM_bind_Ok _ _ st cls st) by done.
  unfold getAnnotationHandler. rewrite Hr. simpl. by rewrite Hi.
Qed.

Lemma applyAnnotation_class_not_string pass anno st attr :
  getNamed anno "class" = Some attr → (∀ cls, attr ≠ StringAttr cls) →
  applyAnnotation pass anno st = Fail AssertionFailed.
Proof.
  intros Hc Hn. unfold applyAnnotation. rewrite Hc.
  destruct attr; try done. by destruct (Hn value).
Qed.

(** The pass object changes in its count of unhandled annotations only. *)
Lemma applyAnnotation_pass pass anno st r pass' st' :
  applyAnnotation pass anno st = Ok ((r, pass'), st') →
  pass' = pass ∨ pass' = incrNumUnhandled pass.
Proof.
  unfold applyAnnotation. intros H.
  repeat match type of H with
  | (match ?x with _ => _ end) _ = _ => destruct x eqn:?
  | (_ ≫= _) _ = _ =>
      unfold mbind at 1, ApplyM_bind at 1 in H
  | match ?x with _ => _ end = _ => destruct x as [[? ?]|?] eqn:?
  | mret _ _ = _ => injection H as <- <- <-
  | _ => done
  end; auto.
Qed.



(** ** LowerAnnotations: the worklist loop *)

Lemma foldl_push_back {A} (l : list A) : ∀ v, foldl push_back v l = v ++ l.
Proof.
  induction l as [|x l IH]; intros v; simpl; [by rewrite app_nil_r|].
  rewrite IH. unfold push_back. by rewrite <- app_assoc.
Qed.

Lemma processWorklist_S fuel pass n st :
  processWorklist (S fuel) pass n st
  = match pop_back_val (worklistAttrs st) with
    | None => Ok ((n, pass), st)
    | Some (attr, rest) =>
      match applyAnnotation pass attr (setWorklistAttrs st rest) with
      | Ok ((r, pass1), st1) =>
        processWorklist fuel pass1 (if failed r then n + 1 else n) st1
      | Fail f => Fail f
      end
    end.
Proof.
  cbn [processWorklist]. unfold mbind at 1, ApplyM_bind at 1. simpl.
  destruct (pop_back_val (worklistAttrs st)) as [[attr rest]|]; [|done].
  unfold mbind at 1, ApplyM_bind at 1. simpl.
  unfold mbind at 1, ApplyM_bind at 1.
  by destruct (applyAnnotation pass attr (setWorklistAttrs st rest)) as [[[r p] s]|].
Qed.

Lemma failures_cons attr r trace :
  length (failures ((attr, r) :: trace))
  = (if failed r then 1 else 0) + length (failures trace).
Proof.
  unfold failures. rewrite !length_fmap, filter_cons. simpl.
  destruct r; simpl; by rewrite ?decide_True, ?decide_False by done.
Qed.

(** The loop ends only on an empty worklist, whatever [applyAnnotation]
    said on the way, and counts the failures. *)
Lemma processWorklist_processes fuel : ∀ pass n st n' pass' st',
  processWorklist fuel pass n st = Ok ((n', pass'), st') →
  ∃ trace,
    processes trace pass st pass' st'
    ∧ n' = n + length (failures trace)
    ∧ worklistAttrs st' = [].
Proof.
  induction fuel as [|fuel IH]; intros pass n st n' pass' st' H; [done|].
  rewrite processWorklist_S in H.
  destruct (pop_back_val (worklistAttrs st)) as [[attr rest]|] eqn:Hpop.
  - destruct (applyAnnotation pass attr (setWorklistAttrs st rest))
      as [[[r pass1] st1]|] eqn:Happly; [|done].
    destruct (IH _ _ _ _ _ _ H) as (trace & Hp & Hn & Hw).
    exists ((attr, r) :: trace). split; [by eapply processes_step|].
    split; [|done]. rewrite failures_cons, Hn. destruct r; simpl; lia.
  - injection H as <- <- <-. exists []. split; [|split].
    + constructor. by apply pop_back_val_None.
    + simpl. lia.
    + by apply pop_back_val_None.
Qed.


Lemma applyReturns_cons anno annotations :
  applyReturns (anno :: annotations) → applyReturns annotations.
Proof. intros H a pass st Ha. apply H. by constructor. Qed.

(** With appliers that enqueue nothing, a worklist holding the
    annotations in reverse is worked off from the first to the last. *)
Lemma processWorklist_in_order (Hext : externalsKeepWorklist) annotations :
  ∀ fuel pass n st,
  applyReturns annotations →
  worklistAttrs st = reverse annotations →
  length annotations < fuel →
  ∃ trace n' pass' st',
    processWorklist fuel pass n st = Ok ((n', pass'), st')
    ∧ processes trace pass st pass' st'
    ∧ trace.*1 = annotations
    ∧ n' = n + length (failures trace)
    ∧ worklistAttrs st' = [].
Proof.
  induction annotations as [|anno annotations IH]; intros fuel pass n st Hret Hwl Hfuel.
  - destruct fuel as [|fuel]; [simpl in Hfuel; lia|].
    rewrite processWorklist_S, Hwl. simpl.
    exists [], n, pass, st. split; [done|]. split; [by constructor|].
    split; [done|]. split; [simpl; lia|done].
  - destruct fuel as [|fuel]; [simpl in Hfuel; lia|].
    rewrite processWorklist_S, Hwl, reverse_cons.
    change (reverse annotations ++ [anno]) with (push_back (reverse annotations) anno).
    rewrite pop_back_val_push_back.
    destruct (Hret anno pass (setWorklistAttrs st (reverse annotations)))
      as ([r pass1] & st1 & Happly); [by constructor|].
    rewrite Happly.
    pose proof (keepsWorklist_applyAnnotation Hext _ _ _ _ _ Happly) as Hkeep.
    simpl in Hkeep.
    destruct (IH fuel pass1 (if failed r then n + 1 else n) st1)
      as (trace & n' & pass' & st' & Hrun & Hp & Htr & Hn & Hw).
    { by eapply applyReturns_cons. }
    { done. }
    { simpl in Hfuel. lia. }
    exists ((anno, r) :: trace), n', pass', st'. split; [done|]. split.
    { eapply processes_step; [|done..]. rewrite Hwl, reverse_cons.
      apply pop_back_val_push_back. }
    split; [by rewrite fmap_cons, Htr|]. split; [|done].
    rewrite failures_cons, Hn. destruct r; simpl; lia.
Qed.

(** ** LowerAnnotations: the fallback handler *)

Lemma getNamed_None_Forall anno name :
  getNamed anno name = None → Forall (fun na : NamedAttribute => na.1 ≠ name) anno.
Proof.
  induction anno as [|[k v] anno IH]; simpl; [by constructor|].
  case_decide; [done|]. intros Hrest. constructor; [done|by apply IH].
Qed.

Lemma copy_without_target
    (other : DictionaryAttr → NamedAttribute → ApplyM DictionaryAttr)
    (anno : DictionaryAttr) : ∀ acc st,
  Forall (fun na : NamedAttribute => na.1 ≠ "target") anno →
  foldlM (fun newAnnoAttrs (na : NamedAttribute) =>
            if decide (na.1 ≠ "target") then mret (push_back newAnnoAttrs na)
            else other newAnnoAttrs na)
         acc anno st
  = Ok (acc ++ anno, st).
Proof.
  induction anno as [|na anno IH]; intros acc st Hall; simpl.
  - by rewrite app_nil_r.
  - apply Forall_cons in Hall as [Hna Hall].
    erewrite applyM_bind_Ok by (by rewrite decide_True by done).
    rewrite IH by done. unfold push_back. by rewrite <- app_assoc.
Qed.

(** A local target, an annotation without a 'target' field: the annotation
    is put on the target operation. *)
Lemma applyWithoutTargetImpl_local target anno allowNonLocal op st :
  instances target = [] → ref target = OpAnnoTarget op → fieldIdx target = 0 →
  getNamed anno "target" = None →
  applyWithoutTargetImpl target anno allowNonLocal st
  = Ok (success, attached st op (DictionaryAttr_get anno)).
Proof.
  intros Hi Hr Hf Ht.
  assert (Hloc : isLocal target = true).
  { unfold isLocal. by rewrite bool_decide_true. }
  unfold applyWithoutTargetImpl. rewrite Hloc. simpl. rewrite andb_false_r.
  erewrite applyM_bind_Ok.
  2:{ apply (copy_without_target (fun acc _ => mret acc) anno [] st).
      by apply getNamed_None_Forall. }
  simpl. unfold addAnnotation. rewrite Hr, Hf. simpl. done.
Qed.

Lemma applyRecord_missing_no_target anno st :
  getNamed anno "target" = None →
  applyRecord missingRecord anno st
  = Ok (success, attached st (circuit st) (DictionaryAttr_get anno)).
Proof.
  intros Ht. unfold applyRecord, missingRecord, rec. simpl.
  unfold tryResolve. rewrite Ht.
  rewrite (applyM_bind_Ok _ _ st (Some (circuitTarget st)) st) by done.
  unfold applyWithoutTarget.
  erewrite applyM_bind_Ok by (by apply applyWithoutTargetImpl_local).
  done.
Qed.

Lemma applyRecord_noResolve_no_target allowNonLocal anno st :
  getNamed anno "target" = None →
  applyRecord (rec noResolve (applyWithoutTarget allowNonLocal)) anno st
  = Ok (success, attached st (circuit st) (DictionaryAttr_get anno)).
Proof.
  intros Ht. unfold applyRecord, rec. simpl.
  rewrite (applyM_bind_Ok _ _ st (Some (circuitTarget st)) st) by done.
  unfold applyWithoutTarget.
  erewrite applyM_bind_Ok by (by apply applyWithoutTargetImpl_local).
  done.
Qed.

Lemma findRecord_missing :
  findRecord annotationRecords "circt.missing" = Some missingRecord.
Proof. reflexivity. Qed.


(** ** LowerAnnotations: the driver *)

Lemma populateWorklist_spec annotations st :
  worklistAttrs st = [] →
  populateWorklist annotations st
  = Ok (tt, setWorklistAttrs st (reverse annotations)).
Proof.
  intros Hw. unfold populateWorklist, modifyState.
  by rewrite foldl_push_back, Hw.
Qed.

(** C8.  The worklist is filled with the input annotations in reverse
    and the loop takes one annotation at a time from its back: when the
    appliers of the other files enqueue nothing and no assertion stops an
    annotation, the loop ends and the annotations it has applied are the
    input annotations, from the first to the last. *)
Theorem worklist_in_input_order (annotations : list DictionaryAttr)
    (fuel : nat) (pass : LowerAnnotationsPass) (st : ApplyState) :
  externalsKeepWorklist →
  applyReturns annotations →
  worklistAttrs st = [] →
  length annotations < fuel →
  populateWorklist annotations st
    = Ok (tt, setWorklistAttrs st (reverse annotations))
  ∧ ∃ trace numFailures pass' st',
      (_ ← populateWorklist annotations; processWorklist fuel pass 0) st
        = Ok ((numFailures, pass'), st')
      ∧ processes trace pass (setWorklistAttrs st (reverse annotations)) pass' st'
      ∧ trace.*1 = annotations.
Proof.
  intros Hext Hret Hw Hfuel.
  pose proof (populateWorklist_spec annotations st Hw) as Hpop.
  split; [done|].
  destruct (processWorklist_in_order Hext annotations fuel pass 0
              (setWorklistAttrs st (reverse annotations)) Hret eq_refl Hfuel)
    as (trace & n' & pass' & st' & Hrun & Hp & Htr & Hn & Hwl).
  exists trace, n', pass', st'.
  split; [by erewrite applyM_bind_Ok by exact Hpop|]. done.
Qed.


End annotation_handlers.

(** ** The driver on the example design *)

#[local] Existing Instance exampleNamespaceOps.
#[local] Existing Instance exampleExternals.

Lemma exampleExternals_keepWorklist :
  @externalsKeepWorklist exampleNamespaceOps exampleExternals.
Proof.
  unfold externalsKeepWorklist. simpl. split_and!; intros; keeps.
Qed.

Lemma threeAnnotations_applyReturns :
  @applyReturns exampleNamespaceOps exampleExternals threeAnnotations.
Proof.
  intros anno pass st Hin. unfold threeAnnotations in Hin.
  repeat (apply elem_of_cons in Hin as [->|Hin]); [| | |by apply elem_of_nil in Hin].
  - erewrite applyAnnotation_known by reflexivity.
    erewrite applyM_bind_Ok by (by apply applyRecord_noResolve_no_target).
    eauto.
  - destruct (ignoreUnhandledAnno pass) eqn:Hi.
    + erewrite applyAnnotation_unknown_tolerated by (done || reflexivity).
      erewrite applyM_bind_Ok by (by apply applyRecord_missing_no_target).
      eauto.
    + erewrite applyAnnotation_unknown_strict by (done || reflexivity). eauto.
  - erewrite applyAnnotation_known by reflexivity.
    erewrite applyM_bind_Ok by (by apply applyRecord_noResolve_no_target).
    eauto.
Qed.

(** The batch example of the specification: three annotations, the second
    of an unknown class, strict mode.  One error, for the second; the first
    and the third are on the circuit; the pass is marked failed. *)
Example runOnOperation_three_annotations :
  (fun r => (passFailed r.1, numUnhandled r.1, diagnostics r.2,
             annotationsAttr (ir r.2) !! 100, worklistAttrs r.2))
    <$> @runOnOperation exampleNamespaceOps exampleExternals 5
          (createLowerFIRRTLAnnotationsPass false false) 100
          (designWith threeAnnotations) wiringGraph
  = Ok (true, 1,
        [UnhandledAnnotation (classAnno "foo.Unknown" "second")],
        Some [classAnno "circt.testNT" "first"; classAnno "circt.testNT" "third"],
        []).
Proof. vm_compute. reflexivity. Qed.

(** The same three annotations when unknown classes are tolerated: no
    error, and the second annotation is on the circuit with the others. *)
Example runOnOperation_three_annotations_tolerated :
  (fun r => (passFailed r.1, numUnhandled r.1, diagnostics r.2,
             annotationsAttr (ir r.2) !! 100))
    <$> @runOnOperation exampleNamespaceOps exampleExternals 5
          (createLowerFIRRTLAnnotationsPass true false) 100
          (designWith threeAnnotations) wiringGraph
  = Ok (false, 1, [],
        Some [classAnno "circt.testNT" "first"; classAnno "foo.Unknown" "second";
              classAnno "circt.testNT" "third"]).
Proof. vm_compute. reflexivity. Qed.

Lemma worklist_in_input_order_witness :
  populateWorklist threeAnnotations (exampleState wiringGraph)
    = Ok (tt, setWorklistAttrs (exampleState wiringGraph) (reverse threeAnnotations))
  ∧ ∃ trace numFailures pass' st',
      (_ ← populateWorklist threeAnnotations;
       @processWorklist exampleNamespaceOps exampleExternals 4 strictPass 0)
        (exampleState wiringGraph)
        = Ok ((numFailures, pass'), st')
      ∧ processes trace strictPass
          (setWorklistAttrs (exampleState wiringGraph) (reverse threeAnnotations))
          pass' st'
      ∧ trace.*1 = threeAnnotations.
Proof.
  apply (@worklist_in_input_order exampleNamespaceOps exampleExternals
           threeAnnotations 4 strictPass (exampleState wiringGraph)).
  - apply exampleExternals_keepWorklist.
  - apply threeAnnotations_applyReturns.
  - reflexivity.
  - simpl. lia.
Defined.




Example applyAnnotation_classless_strict :
  (fun r => (r.1.1, diagnostics r.2))
    <$> applyAnnotation strictPass classlessAnno (exampleState wiringGraph)
  = Ok (failure, [AnnotationWithoutClass classlessAnno]).
Proof. vm_compute. reflexivity. Qed.

Example applyAnnotation_classless_tolerated :
  (fun r => (r.1.1, numUnhandled r.1.2, diagnostics r.2, annotationsAttr (ir r.2) !! 100))
    <$> applyAnnotation tolerantPass classlessAnno (exampleState wiringGraph)
  = Ok (success, 0, [], Some [classlessAnno]).
Proof. vm_compute. reflexivity. Qed.

(** * Further properties of the instance graph and of the path cache *)

#[local] Remove Hints exampleNamespaceOps exampleExternals : typeclass_instances.

(** ** [allUnder]: the assertion in the loop *)

Lemma allUnder_loop_no_assert fuel g top : ∀ seen wl,
  top ∈ seen → top ∉ wl →
  allUnder_loop fuel g top seen wl ≠ Fail AssertionFailed.
Proof.
  induction fuel as [|fuel IH]; intros seen wl Hs Hw; [done|].
  simpl. destruct (pop_back_val wl) as [[node wl']|] eqn:Hpop; [|done].
  apply pop_back_val_Some in Hpop. subst wl.
  rewrite bool_decide_true.
  2:{ intros ->. apply Hw. unfold push_back. set_solver. }
  simpl. unfold uses. destruct (nodeMap g !! node) as [us|]; [|done]. simpl.
  destruct (noUses us); [done|].
  rewrite foldl_visit_parents.
  destruct (foldl_visit_spec (getParent <$> us) seen wl') as (new & -> & Hnew & _).
  simpl. apply IH; [set_solver|].
  intros Hin. apply elem_of_app in Hin as [Hin|Hin].
  - apply Hw. unfold push_back. set_solver.
  - apply Hnew in Hin as [_ Hin]. done.
Qed.

(** X1.  [assert(node != top)] holds whenever the loop of [allUnder] reaches it:
    [top] is marked as seen before the first node is pushed, and only
    unseen nodes are pushed.  So [allUnder] never stops on its assertion,
    on any graph, closed or not. *)
Theorem allUnder_never_asserts (fuel : nat) (g : InstanceGraph)
    (nodes : list InstanceRecord) (top : Node) :
  allUnder fuel g nodes top ≠ Fail AssertionFailed.
Proof.
  unfold allUnder. rewrite foldl_visit_parents.
  destruct (foldl_visit_spec (getParent <$> nodes) {[top]} []) as (new & -> & Hnew & _).
  simpl. apply allUnder_loop_no_assert; [set_solver|].
  intros Hin. apply Hnew in Hin as [_ Hin]. set_solver.
Qed.

(** ** [allUnder]: lists of nodes *)

Lemma allUnder_decides fuel g nodes top :
  graph_closed g → Forall (in_graph g) nodes → size (dom (nodeMap g)) < fuel →
  ∃ b, allUnder fuel g nodes top = Ok b ∧ (b = true ↔ dominates g top nodes).
Proof.
  intros Hclosed Hnodes Hfuel.
  pose proof (fun m us u => graph_closed_lookup g m us u Hclosed) as Hc.
  rewrite Forall_forall in Hnodes.
  destruct (loop_inv_init g top nodes Hc Hnodes) as [Hinv Hm].
  destruct (allUnder_loop_correct g top nodes Hc Hnodes fuel _ _ Hinv)
    as (b & Hrun & Hb); [simpl in *; lia|].
  exists b. split; [done|]. destruct b; [done|].
  split; [done|]. intros Hdom. destruct Hb as (n & l & Hn & Hp & Hl).
  destruct Hl. by eapply Hdom.
Qed.

Lemma dominates_app g top xs ys :
  dominates g top (xs ++ ys) ↔ dominates g top xs ∧ dominates g top ys.
Proof.
  unfold dominates. split.
  - intros H. split; intros n l Hn; apply H; set_solver.
  - intros [H1 H2] n l Hn. apply elem_of_app in Hn as [Hn|Hn]; eauto.
Qed.

(** X2.  Asking for two lists of instance records at once is asking for each
    and taking the conjunction: on a closed graph the answer for
    [xs ++ ys] is the [&&] of the answers for [xs] and for [ys].  In
    particular the answer does not depend on the order of the records. *)
Theorem allUnder_app (fuel : nat) (g : InstanceGraph)
    (xs ys : list InstanceRecord) (top : Node) :
  graph_closed g → Forall (in_graph g) (xs ++ ys) →
  size (dom (nodeMap g)) < fuel →
  ∃ b1 b2,
    allUnder fuel g xs top = Ok b1
    ∧ allUnder fuel g ys top = Ok b2
    ∧ allUnder fuel g (xs ++ ys) top = Ok (b1 && b2)
    ∧ allUnder fuel g (ys ++ xs) top = Ok (b1 && b2).
Proof.
  intros Hclosed Hnodes Hfuel.
  pose proof Hnodes as Hboth. apply Forall_app in Hboth as [Hxs Hys].
  destruct (allUnder_decides fuel g xs top) as (b1 & Hr1 & Hb1); [done..|].
  destruct (allUnder_decides fuel g ys top) as (b2 & Hr2 & Hb2); [done..|].
  destruct (allUnder_decides fuel g (xs ++ ys) top) as (b & Hr & Hb); [done..|].
  destruct (allUnder_decides fuel g (ys ++ xs) top) as (b' & Hr' & Hb');
    [done|by apply Forall_app|done|].
  exists b1, b2. split; [done|]. split; [done|].
  rewrite dominates_app in Hb, Hb'.
  assert (b = b1 && b2) as Eb.
  { destruct b, b1, b2; simpl; try done; naive_solver. }
  assert (b' = b1 && b2) as Eb'.
  { destruct b', b1, b2; simpl; try done; naive_solver. }
  split; congruence.
Qed.

Lemma allUnder_app_witness :
  ∃ b1 b2,
    allUnder 4 exampleGraph
      [ {| getInstance := 11; getParent := 1; getTarget := 2 |} ] 1 = Ok b1
    ∧ allUnder 4 exampleGraph
        [ {| getInstance := 12; getParent := 0; getTarget := 2 |} ] 1 = Ok b2
    ∧ allUnder 4 exampleGraph
        ([ {| getInstance := 11; getParent := 1; getTarget := 2 |} ]
         ++ [ {| getInstance := 12; getParent := 0; getTarget := 2 |} ]) 1
      = Ok (b1 && b2)
    ∧ allUnder 4 exampleGraph
        ([ {| getInstance := 12; getParent := 0; getTarget := 2 |} ]
         ++ [ {| getInstance := 11; getParent := 1; getTarget := 2 |} ]) 1
      = Ok (b1 && b2).
Proof.
  apply (allUnder_app 4 exampleGraph
           [ {| getInstance := 11; getParent := 1; getTarget := 2 |} ]
           [ {| getInstance := 12; getParent := 0; getTarget := 2 |} ] 1).
  - apply (bool_decide_unpack _). vm_compute. exact I.
  - apply (bool_decide_unpack _). vm_compute. exact I.
  - vm_compute. lia.
Defined.

(** ** [appendInstance] *)

(** X3.  The path [appendInstance] returns is one longer than the path it is
    given and shows the instances of that path followed by the new
    instance.  It lies in an array of its own, allocated by the call; every
    array that was in the allocator is still there with the same cells, so
    the path given and all cached paths read as before.  The graph and the
    cache map are not touched. *)
Theorem appendInstance_fresh_path (path : InstancePath) (inst : InstanceOp)
    (c : InstancePathCache) :
  valid_path (allocator c) path →
  let r := appendInstance path inst c in
  readPath (allocator r.2) r.1 = readPath (allocator c) path ++ [inst]
  ∧ pathSize r.1 = pathSize path + 1
  ∧ valid_path (allocator r.2) r.1
  ∧ pathData r.1 = Some (length (instArrays (allocator c)))
  ∧ extends (allocator c) (allocator r.2)
  ∧ readPath (allocator r.2) path = readPath (allocator c) path
  ∧ instanceGraph r.2 = instanceGraph c
  ∧ absolutePathsCache r.2 = absolutePathsCache c.
Proof.
  intros Hv.
  destruct (appendInstance_spec path inst c Hv) as (ptr & a' & Hrun & -> & Hinst & Hpath).
  cbv zeta. rewrite Hrun. cbn [fst snd allocator setAllocator pathData pathSize
                               instanceGraph absolutePathsCache].
  assert (He : extends (allocator c) a').
  { split; [rewrite Hinst; by apply prefix_app_r|by rewrite Hpath]. }
  assert (Hrd : readPath a' {| pathData := Some (length (instArrays (allocator c)));
                               pathSize := pathSize path + 1 |}
                = readPath (allocator c) path ++ [inst]).
  { unfold readPath at 1. cbn [pathData pathSize]. rewrite Hinst.
    rewrite lookup_app_r by lia. rewrite Nat.sub_diag. simpl.
    apply take_ge. rewrite length_app. simpl. unfold valid_path in Hv. lia. }
  split_and!; try done.
  - unfold valid_path. rewrite Hrd, length_app. simpl.
    unfold valid_path in Hv. lia.
  - by apply readPath_extends.
Qed.

Lemma appendInstance_fresh_path_witness :
  let path := {| pathData := Some 0; pathSize := 1 |} in
  let r := appendInstance path 55 exampleCache in
  readPath (allocator r.2) r.1 = readPath (allocator exampleCache) path ++ [55]
  ∧ pathSize r.1 = pathSize path + 1
  ∧ valid_path (allocator r.2) r.1
  ∧ pathData r.1 = Some (length (instArrays (allocator exampleCache)))
  ∧ extends (allocator exampleCache) (allocator r.2)
  ∧ readPath (allocator r.2) path = readPath (allocator exampleCache) path
  ∧ instanceGraph r.2 = instanceGraph exampleCache
  ∧ absolutePathsCache r.2 = absolutePathsCache exampleCache.
Proof.
  apply (appendInstance_fresh_path {| pathData := Some 0; pathSize := 1 |} 55 exampleCache).
  vm_compute. reflexivity.
Defined.

(** ** [getAbsolutePaths]: what the cache gains *)

Lemma appendInstance_frame path inst c :
  instanceGraph (appendInstance path inst c).2 = instanceGraph c
  ∧ absolutePathsCache (appendInstance path inst c).2 = absolutePathsCache c.
Proof. by unfold appendInstance, AllocateInstanceOp, Allocate. Qed.

Lemma appendInstance_loop_frame inst ps : ∀ ext c,
  let r := foldl (fun '(extendedPaths, c) path =>
                    let '(newPath, c) := appendInstance path inst c in
                    (push_back extendedPaths newPath, c)) (ext, c) ps in
  instanceGraph r.2 = instanceGraph c
  ∧ absolutePathsCache r.2 = absolutePathsCache c.
Proof.
  induction ps as [|p ps IH]; intros ext c; [done|].
  cbn [foldl]. cbv zeta.
  destruct (appendInstance_frame p inst c) as [Hg Hc].
  destruct (appendInstance p inst c) as [newPath c1]. cbn [snd] in *.
  destruct (IH (push_back ext newPath) c1) as [Hg' Hc']. cbv zeta in *.
  split; congruence.
Qed.

(** [getAbsolutePaths], unfolded once, for a module that is not the
    top-level one and is not cached. *)
Lemma getAbsolutePaths_uncached fuel op c :
  op ≠ getTopLevelNode (instanceGraph c) → absolutePathsCache c !! op = None →
  getAbsolutePaths (S fuel) op c
  = (us ← lookup_node (instanceGraph c) op;
     '(extendedPaths, c) ←
       foldlR (fun '(extendedPaths, c) inst =>
                 '(instPaths, c) ← getAbsolutePaths fuel (getParent inst) c;
                 Ok (foldl (fun '(extendedPaths, c) path =>
                              let '(newPath, c) :=
                                appendInstance path (getInstance inst) c in
                              (push_back extendedPaths newPath, c))
                           (extendedPaths, c)
                           (readPaths (allocator c) instPaths)))
              ([], c) us;
     let '(pathList, a) :=
       match extendedPaths with
       | [] => ({| listData := None; listSize := 0 |}, allocator c)
       | _ => moveToAllocator extendedPaths (allocator c)
       end in
     let c := setAllocator c a in
     let c :=
       match absolutePathsCache c !! op with
       | Some _ => c
       | None => setCache c (<[op := pathList]> (absolutePathsCache c))
       end in
     Ok (pathList, c)).
Proof.
  intros Hne Hc. cbn [getAbsolutePaths].
  rewrite decide_False by done. by rewrite Hc.
Qed.

Section cache_growth.
Variable g : InstanceGraph.
Variable rank : Node → nat.
Hypothesis Hrank : ∀ m us u,
  m ≠ getTopLevelNode g → nodeMap g !! m = Some us → u ∈ us →
  rank (getParent u) < rank m.

#[local] Abbreviation gained := (gainedEntries g rank).

Lemma uses_loop_gained fuel bound
    (IH : ∀ op c pl c', instanceGraph c = g →
            getAbsolutePaths fuel op c = Ok (pl, c') → gained (rank op) c c')
    (l : list InstanceRecord) : ∀ ext c ext' c',
  instanceGraph c = g →
  Forall (fun u => rank (getParent u) ≤ bound) l →
  foldlR (fun '(extendedPaths, c) inst =>
            '(instPaths, c) ← getAbsolutePaths fuel (getParent inst) c;
            Ok (foldl (fun '(extendedPaths, c) path =>
                         let '(newPath, c) :=
                           appendInstance path (getInstance inst) c in
                         (push_back extendedPaths newPath, c))
                      (extendedPaths, c)
                      (readPaths (allocator c) instPaths)))
         (ext, c) l = Ok (ext', c') →
  gained bound c c'.
Proof.
  induction l as [|u l IHl]; intros ext c ext' c' Hg Hl Hrun.
  - injection Hrun as <- <-. split; [done|]. auto.
  - apply Forall_cons in Hl as [Hu Hl]. cbn [foldlR] in Hrun.
    destruct (getAbsolutePaths fuel (getParent u) c) as [[pl c1]|] eqn:Hcall; [|done].
    rewrite bind_Ok in Hrun. cbn beta iota in Hrun.
    destruct (IH _ _ _ _ Hg Hcall) as [Hg1 Hdom1].
    pose proof (appendInstance_loop_frame (getInstance u)
                  (readPaths (allocator c1) pl) ext c1) as Hframe.
    cbv zeta in Hframe.
    destruct (foldl _ (ext, c1) (readPaths (allocator c1) pl)) as [ext2 c2].
    cbn [snd] in Hframe. destruct Hframe as [Hg2 Hc2].
    rewrite bind_Ok in Hrun.
    destruct (IHl ext2 c2 ext' c') as [Hg' Hdom']; [congruence|done|done|].
    split; [done|]. intros m Hm.
    destruct (Hdom' m Hm) as [Hm2|Hm2]; [|by right].
    rewrite Hc2 in Hm2. destruct (Hdom1 m Hm2) as [?|[? ?]]; [by left|].
    right. split; [lia|done].
Qed.

Lemma getAbsolutePaths_gained fuel : ∀ op c pl c',
  instanceGraph c = g →
  getAbsolutePaths fuel op c = Ok (pl, c') → gained (rank op) c c'.
Proof.
  induction fuel as [|fuel IH]; intros op c pl c' Hg Hrun; [done|].
  destruct (decide (op = getTopLevelNode g)) as [Htop|Hne].
  { cbn [getAbsolutePaths] in Hrun. rewrite Hg, decide_True in Hrun by done.
    injection Hrun as _ <-. split; auto. }
  destruct (absolutePathsCache c !! op) as [cached|] eqn:Ecache.
  { cbn [getAbsolutePaths] in Hrun. rewrite Hg, decide_False, Ecache in Hrun by done.
    injection Hrun as _ <-. split; auto. }
  rewrite getAbsolutePaths_uncached in Hrun by (by rewrite ?Hg).
  unfold lookup_node in Hrun. rewrite Hg in Hrun.
  destruct (nodeMap g !! op) as [us|] eqn:Hus; [|done].
  rewrite bind_Ok in Hrun.
  match type of Hrun with (?loop ≫= _) = _ =>
    destruct loop as [[ext c1]|] eqn:Hloop; [|done] end.
  rewrite bind_Ok in Hrun. cbn beta iota in Hrun.
  destruct (uses_loop_gained fuel (rank op) IH us [] c ext c1 Hg) as [Hg1 Hdom1].
  { apply Forall_forall. intros u Hu. specialize (Hrank op us u Hne Hus Hu). lia. }
  { done. }
  match type of Hrun with (let '(_, _) := ?x in _) = _ =>
    destruct x as [pathList a] end.
  cbn [absolutePathsCache setAllocator] in Hrun.
  destruct (absolutePathsCache c1 !! op) eqn:Ecache1.
  - injection Hrun as _ <-. split; [done|]. apply Hdom1.
  - injection Hrun as _ <-. split; [done|]. cbn. intros m Hm.
    destruct (decide (m = op)) as [->|Hmo]; [right; split; [lia|done]|].
    rewrite lookup_insert_ne in Hm by done. by apply Hdom1.
Qed.

(** After a call for a module that was not cached, the module is cached
    with the reference the call returned. *)
Lemma getAbsolutePaths_caches fuel op c pl c' :
  instanceGraph c = g → op ≠ getTopLevelNode g →
  getAbsolutePaths fuel op c = Ok (pl, c') →
  absolutePathsCache c' !! op = Some pl.
Proof.
  intros Hg Hne Hrun. destruct fuel as [|fuel]; [done|].
  destruct (absolutePathsCache c !! op) as [cached|] eqn:Ecache.
  { cbn [getAbsolutePaths] in Hrun. rewrite Hg, decide_False, Ecache in Hrun by done.
    by injection Hrun as <- <-. }
  rewrite getAbsolutePaths_uncached in Hrun by (by rewrite ?Hg).
  unfold lookup_node in Hrun. rewrite Hg in Hrun.
  destruct (nodeMap g !! op) as [us|] eqn:Hus; [|done].
  rewrite bind_Ok in Hrun.
  match type of Hrun with (?loop ≫= _) = _ =>
    destruct loop as [[ext c1]|] eqn:Hloop; [|done] end.
  rewrite bind_Ok in Hrun. cbn beta iota in Hrun.
  destruct (uses_loop_gained fuel (pred (rank op)) (getAbsolutePaths_gained fuel)
              us [] c ext c1 Hg) as [Hg1 Hdom1].
  { apply Forall_forall. intros u Hu. specialize (Hrank op us u Hne Hus Hu). lia. }
  { done. }
  match type of Hrun with (let '(_, _) := ?x in _) = _ =>
    destruct x as [pathList a] end.
  cbn [absolutePathsCache setAllocator] in Hrun.
  destruct (absolutePathsCache c1 !! op) eqn:Ecache1.
  - exfalso. destruct (Hdom1 op) as [Hin|[Hlt _]]; [by rewrite Ecache1| |].
    + rewrite Ecache in Hin. by destruct Hin.
    + destruct us as [|u us'].
      * cbn in Hloop. injection Hloop as _ <-. congruence.
      * assert (Hu : u ∈ u :: us') by (by constructor).
        specialize (Hrank op _ u Hne Hus Hu). lia.
  - injection Hrun as <- <-. cbn. by rewrite lookup_insert_eq.
Qed.

End cache_growth.

(** X4.  Memoisation.  On an acyclic graph, once [getAbsolutePaths] has
    returned for a module, asking again returns the very same reference and
    leaves the cache and the allocator exactly as they are, whatever the
    fuel.  The first call keeps every entry the cache had, and what it adds
    are entries of modules that are not the top-level module: the top-level
    module is answered without the cache and is never put into it. *)
Theorem getAbsolutePaths_memoized (g : InstanceGraph) (rank : Node → nat)
    (paths : Node → list (list InstanceOp))
    (fuel : nat) (op : Operation) (c : InstancePathCache) :
  graph_closed g → acyclic g rank → path_equations g paths →
  cache_ok g paths c →
  is_Some (nodeMap g !! op) → rank op < fuel →
  ∃ pl c',
    getAbsolutePaths fuel op c = Ok (pl, c')
    ∧ (∀ fuel', getAbsolutePaths (S fuel') op c' = Ok (pl, c'))
    ∧ absolutePathsCache c ⊆ absolutePathsCache c'
    ∧ (op ≠ getTopLevelNode g → absolutePathsCache c' !! op = Some pl)
    ∧ (absolutePathsCache c !! getTopLevelNode g = None →
       absolutePathsCache c' !! getTopLevelNode g = None).
Proof.
  intros Hclosed Hacyc [Hroot Heq] Hc Hin Hr.
  pose proof (fun m us u Hne Hm Hu => acyclic_lookup g rank m us u Hacyc Hne Hm Hu)
    as Hrank.
  destruct (getAbsolutePaths_returns g rank paths Hclosed Hrank
              Hroot (fun m us Hne Hus => Heq m us Hus Hne) fuel op c Hc Hin Hr)
    as (pl & c' & Hrun & Hc' & He & Hsub & Hv & Hp).
  pose proof (proj1 Hc) as Hg. pose proof (proj1 Hc') as Hg'.
  exists pl, c'. split; [done|].
  destruct (getAbsolutePaths_gained g rank Hrank fuel op c pl c' Hg Hrun) as [_ Hdom].
  split_and!; [|done| |].
  - intros fuel'. cbn [getAbsolutePaths]. rewrite Hg'.
    destruct (decide (op = getTopLevelNode g)) as [->|Hne].
    + destruct fuel as [|fuel]; [done|]. cbn [getAbsolutePaths] in Hrun.
      rewrite Hg, decide_True in Hrun by done. by injection Hrun as <- <-.
    + by rewrite (getAbsolutePaths_caches g rank Hrank fuel op c pl c' Hg Hne Hrun).
  - intros Hne.
    exact (getAbsolutePaths_caches g rank Hrank fuel op c pl c' Hg Hne Hrun).
  - intros Hnone. destruct (absolutePathsCache c' !! getTopLevelNode g) eqn:E; [|done].
    destruct (Hdom (getTopLevelNode g)) as [Hs|[_ Hs]]; [by rewrite E| |done].
    rewrite Hnone in Hs. by destruct Hs.
Qed.

Lemma getAbsolutePaths_memoized_witness :
  ∃ pl c',
    getAbsolutePaths 3 2 (newCache exampleGraph) = Ok (pl, c')
    ∧ (∀ fuel', getAbsolutePaths (S fuel') 2 c' = Ok (pl, c'))
    ∧ absolutePathsCache (newCache exampleGraph) ⊆ absolutePathsCache c'
    ∧ (2 ≠ getTopLevelNode exampleGraph → absolutePathsCache c' !! 2 = Some pl)
    ∧ (absolutePathsCache (newCache exampleGraph) !! getTopLevelNode exampleGraph = None →
       absolutePathsCache c' !! getTopLevelNode exampleGraph = None).
Proof.
  apply (getAbsolutePaths_memoized exampleGraph (fun m => m)
           (absolutePathsTo 2 exampleGraph) 3 2 (newCache exampleGraph)).
  - apply (bool_decide_unpack _). vm_compute. exact I.
  - apply (bool_decide_unpack _). vm_compute. exact I.
  - apply (bool_decide_unpack _). vm_compute. exact I.
  - split; [reflexivity|]. apply map_Forall_empty.
  - exists [ {| getInstance := 11; getParent := 1; getTarget := 2 |};
             {| getInstance := 12; getParent := 0; getTarget := 2 |} ].
    vm_compute. reflexivity.
  - lia.
Defined.


(** ** [getAbsolutePaths]: the paths are the instance chains *)

Lemma path_equations_chains g rank paths :
  graph_closed g → acyclic g rank → path_equations g paths →
  ∀ m p, is_Some (nodeMap g !! m) → p ∈ paths m ↔ instanceChain g m p.
Proof.
  intros Hclosed Hacyc [Hroot Heq].
  assert (Hstep : ∀ m us, m ≠ getTopLevelNode g → nodeMap g !! m = Some us →
    paths m = us ≫= (fun u => extendAll u (paths (getParent u)))).
  { intros m us Hne Hus. by apply (Heq m us Hus). }
  assert (Hsound : ∀ n m p, rank m < n → is_Some (nodeMap g !! m) →
    p ∈ paths m → instanceChain g m p).
  { induction n as [|n IH]; intros m p Hr Hin Hp; [lia|].
    destruct (decide (m = getTopLevelNode g)) as [->|Hne].
    - rewrite Hroot in Hp. apply list_elem_of_singleton in Hp as ->. constructor.
    - destruct Hin as [us Hus]. rewrite (Hstep m us Hne Hus) in Hp.
      apply list_elem_of_bind in Hp as (u & Hp & Hu).
      unfold extendAll in Hp. apply list_elem_of_fmap in Hp as (q & -> & Hq).
      eapply instanceChain_step; [done..|]. apply IH; [| |done].
      + pose proof (acyclic_lookup g rank m us u Hacyc Hne Hus Hu). lia.
      + by eapply graph_closed_lookup. }
  intros m p Hin. split; [by apply (Hsound (S (rank m))); [lia|]|].
  clear Hin. induction 1 as [|m us u p Hne Hus Hu Hch IH].
  - rewrite Hroot. by apply list_elem_of_singleton.
  - rewrite (Hstep m us Hne Hus). apply list_elem_of_bind. exists u. split; [|done].
    unfold extendAll. apply list_elem_of_fmap. by exists p.
Qed.

(** X5.  What [getAbsolutePaths] returns for a module are the instance chains
    from the top-level module down to it, all of them and nothing else: a
    list of instances is among the returned paths exactly when it is built
    from the empty list at the top-level module by appending, at each
    step down, the instance of a use of the module reached. *)
Theorem getAbsolutePaths_instance_chains (g : InstanceGraph) (rank : Node → nat)
    (paths : Node → list (list InstanceOp))
    (fuel : nat) (op : Operation) (c : InstancePathCache) :
  graph_closed g → acyclic g rank → path_equations g paths →
  cache_ok g paths c →
  is_Some (nodeMap g !! op) → rank op < fuel →
  ∃ pl c',
    getAbsolutePaths fuel op c = Ok (pl, c')
    ∧ ∀ p, p ∈ pathsValue (allocator c') pl ↔ instanceChain g op p.
Proof.
  intros Hclosed Hacyc Heqs Hc Hin Hr.
  pose proof Heqs as [Hroot Heq].
  destruct (getAbsolutePaths_returns g rank paths Hclosed
              (fun m us u Hne Hm Hu => acyclic_lookup g rank m us u Hacyc Hne Hm Hu)
              Hroot (fun m us Hne Hus => Heq m us Hus Hne) fuel op c Hc Hin Hr)
    as (pl & c' & Hrun & Hc' & He & Hsub & Hv & Hp).
  exists pl, c'. split; [done|]. intros p. rewrite Hp.
  by eapply path_equations_chains.
Qed.

Lemma getAbsolutePaths_instance_chains_witness :
  ∃ pl c',
    getAbsolutePaths 3 2 (newCache exampleGraph) = Ok (pl, c')
    ∧ ∀ p, p ∈ pathsValue (allocator c') pl ↔ instanceChain exampleGraph 2 p.
Proof.
  apply (getAbsolutePaths_instance_chains exampleGraph (fun m => m)
           (absolutePathsTo 2 exampleGraph) 3 2 (newCache exampleGraph)).
  - apply (bool_decide_unpack _). vm_compute. exact I.
  - apply (bool_decide_unpack _). vm_compute. exact I.
  - apply (bool_decide_unpack _). vm_compute. exact I.
  - split; [reflexivity|]. apply map_Forall_empty.
  - exists [ {| getInstance := 11; getParent := 1; getTarget := 2 |};
             {| getInstance := 12; getParent := 0; getTarget := 2 |} ].
    vm_compute. reflexivity.
  - lia.
Defined.

(** ** [getAbsolutePaths]: a module that instantiates itself *)

Section self_instantiation.
Variables (g : InstanceGraph) (m : Node).
Hypothesis Hm : m ≠ getTopLevelNode g.
Hypothesis Hself : selfInstantiating g m.

Lemma uses_loop_avoids fuel
    (IH : ∀ op c pl c', instanceGraph c = g → absolutePathsCache c !! m = None →
            getAbsolutePaths fuel op c = Ok (pl, c') →
            op ≠ m ∧ instanceGraph c' = g ∧ absolutePathsCache c' !! m = None)
    (l : list InstanceRecord) : ∀ ext c ext' c',
  instanceGraph c = g → absolutePathsCache c !! m = None →
  foldlR (fun '(extendedPaths, c) inst =>
            '(instPaths, c) ← getAbsolutePaths fuel (getParent inst) c;
            Ok (foldl (fun '(extendedPaths, c) path =>
                         let '(newPath, c) :=
                           appendInstance path (getInstance inst) c in
                         (push_back extendedPaths newPath, c))
                      (extendedPaths, c)
                      (readPaths (allocator c) instPaths)))
         (ext, c) l = Ok (ext', c') →
  Forall (fun u => getParent u ≠ m) l
  ∧ instanceGraph c' = g ∧ absolutePathsCache c' !! m = None.
Proof.
  induction l as [|u l IHl]; intros ext c ext' c' Hg Hc Hrun.
  - injection Hrun as <- <-. done.
  - cbn [foldlR] in Hrun.
    destruct (getAbsolutePaths fuel (getParent u) c) as [[pl c1]|] eqn:Hcall; [|done].
    rewrite bind_Ok in Hrun. cbn beta iota in Hrun.
    destruct (IH _ _ _ _ Hg Hc Hcall) as (Hu & Hg1 & Hc1).
    pose proof (appendInstance_loop_frame (getInstance u)
                  (readPaths (allocator c1) pl) ext c1) as Hframe.
    cbv zeta in Hframe.
    destruct (foldl _ (ext, c1) (readPaths (allocator c1) pl)) as [ext2 c2].
    cbn [snd] in Hframe. destruct Hframe as [Hg2 Hc2].
    rewrite bind_Ok in Hrun.
    destruct (IHl ext2 c2 ext' c') as (Hl & Hg' & Hc'); [congruence..|done|].
    split; [by constructor|done].
Qed.

Lemma getAbsolutePaths_avoids fuel : ∀ op c pl c',
  instanceGraph c = g → absolutePathsCache c !! m = None →
  getAbsolutePaths fuel op c = Ok (pl, c') →
  op ≠ m ∧ instanceGraph c' = g ∧ absolutePathsCache c' !! m = None.
Proof.
  induction fuel as [|fuel IH]; intros op c pl c' Hg Hc Hrun; [done|].
  destruct (decide (op = getTopLevelNode g)) as [Htop|Hne].
  { cbn [getAbsolutePaths] in Hrun. rewrite Hg, decide_True in Hrun by done.
    injection Hrun as _ <-. split; [congruence|done]. }
  destruct (absolutePathsCache c !! op) as [cached|] eqn:Ecache.
  { cbn [getAbsolutePaths] in Hrun. rewrite Hg, decide_False, Ecache in Hrun by done.
    injection Hrun as _ <-. split; [congruence|done]. }
  rewrite getAbsolutePaths_uncached in Hrun by (by rewrite ?Hg).
  unfold lookup_node in Hrun. rewrite Hg in Hrun.
  destruct (nodeMap g !! op) as [us|] eqn:Hus; [|done].
  rewrite bind_Ok in Hrun.
  match type of Hrun with (?loop ≫= _) = _ =>
    destruct loop as [[ext c1]|] eqn:Hloop; [|done] end.
  rewrite bind_Ok in Hrun. cbn beta iota in Hrun.
  destruct (uses_loop_avoids fuel IH us [] c ext c1 Hg Hc Hloop) as (Hall & Hg1 & Hc1).
  assert (Hop : op ≠ m).
  { intros ->. unfold selfInstantiating in Hself. rewrite Hus in Hself. simpl in Hself.
    apply Exists_exists in Hself as (u & Hu & Hpar).
    rewrite Forall_forall in Hall. by apply (Hall u Hu). }
  split; [done|].
  match type of Hrun with (let '(_, _) := ?x in _) = _ =>
    destruct x as [pathList a] end.
  cbn [absolutePathsCache setAllocator] in Hrun.
  destruct (absolutePathsCache c1 !! op) eqn:Ecache1.
  - by injection Hrun as _ <-.
  - injection Hrun as _ <-. cbn. split; [done|]. by rewrite lookup_insert_ne.
Qed.

End self_instantiation.

(** X6.  The recursion of [getAbsolutePaths] has no guard against a module that
    instantiates itself: for such a module, when it is not cached, the call
    goes from the module to the module again before anything is put into
    the cache, and returns for no amount of fuel. *)
Theorem getAbsolutePaths_self_instantiation (g : InstanceGraph) (m : Node)
    (c : InstancePathCache) :
  instanceGraph c = g →
  m ≠ getTopLevelNode g →
  selfInstantiating g m →
  absolutePathsCache c !! m = None →
  ¬ ∃ fuel r, getAbsolutePaths fuel m c = Ok r.
Proof.
  intros Hg Hm Hself Hc (fuel & [pl c'] & Hrun).
  by destruct (getAbsolutePaths_avoids g m Hm Hself fuel m c pl c' Hg Hc Hrun) as [? _].
Qed.

Lemma getAbsolutePaths_self_instantiation_witness :
  ¬ ∃ fuel r, getAbsolutePaths fuel 1 (newCache recursiveGraph) = Ok r.
Proof.
  apply (getAbsolutePaths_self_instantiation recursiveGraph 1 (newCache recursiveGraph)).
  - reflexivity.
  - vm_compute. lia.
  - apply (bool_decide_unpack _). vm_compute. exact I.
  - reflexivity.
Defined.

(** ** [replaceInstance]: more on what it does to the cached paths *)

Lemma substFirst_back oldOp newOp l :
  newOp ∉ l → substFirst newOp oldOp (substFirst oldOp newOp l) = l.
Proof.
  intros Hfresh. unfold substFirst at 2.
  destruct (list_find _ l) as [[i x]|] eqn:E.
  - apply list_find_Some in E as (Hi & -> & Hfirst).
    assert (Hlt : i < length l) by (by eapply lookup_lt_Some).
    assert (E2 : list_find (fun x => x = newOp) (<[i:=newOp]> l) = Some (i, newOp)).
    { apply list_find_Some. split; [by apply list_lookup_insert_eq|]. split; [done|].
      intros j y Hj Hji ->. rewrite list_lookup_insert_ne in Hj by lia.
      apply Hfresh. by eapply list_elem_of_lookup_2. }
    unfold substFirst. rewrite E2, list_insert_insert_eq. by apply list_insert_id.
  - by apply substFirst_absent.
Qed.

Lemma substFirst_removes oldOp newOp l :
  oldOp ≠ newOp → NoDup l → oldOp ∉ substFirst oldOp newOp l.
Proof.
  intros Hne Hnd. unfold substFirst.
  destruct (list_find _ l) as [[i x]|] eqn:E.
  - apply list_find_Some in E as (Hi & -> & Hfirst).
    intros Hin. apply list_elem_of_lookup in Hin as [j Hj].
    destruct (decide (j = i)) as [->|Hji].
    + rewrite list_lookup_insert_eq in Hj by (by eapply lookup_lt_Some). congruence.
    + rewrite list_lookup_insert_ne in Hj by done.
      apply Hji. by eapply NoDup_lookup.
  - apply list_find_None in E. rewrite Forall_forall in E.
    intros Hin. by apply (E oldOp).
Qed.

Lemma replaceInstance_entries oldOp newOp c :
  cache_valid c →
  extends (allocator c) (allocator (replaceInstance oldOp newOp c))
  ∧ (∀ op, absolutePathsCache c !! op = None →
           absolutePathsCache (replaceInstance oldOp newOp c) !! op = None)
  ∧ (∀ op pl, absolutePathsCache c !! op = Some pl →
       ∃ pl', absolutePathsCache (replaceInstance oldOp newOp c) !! op = Some pl'
              ∧ entry_replaced oldOp newOp (allocator c)
                  (allocator (replaceInstance oldOp newOp c)) pl pl').
Proof.
  intros Hvalid. unfold replaceInstance.
  destruct (replaceInEntry_loop oldOp newOp (allocator c)
              (map_to_list (absolutePathsCache c))
              (absolutePathsCache c) (allocator c))
    as (cache' & a' & -> & He & Hkeep & Hdone).
  { done. }
  { apply NoDup_fst_map_to_list. }
  { apply Forall_forall. intros [op pl] Hin. apply elem_of_map_to_list in Hin.
    simpl. split; [|done]. by apply (Hvalid op pl). }
  simpl. split; [done|]. split.
  - intros op Hnone. rewrite Hkeep; [done|]. intros Hin.
    apply list_elem_of_fmap in Hin as ([op' pl] & -> & Hin).
    apply elem_of_map_to_list in Hin. simpl in *. congruence.
  - intros op pl Hlk. apply Hdone. by apply elem_of_map_to_list.
Qed.

Lemma path_replaced_values oldOp newOp a a' ps qs :
  Forall2 (path_replaced oldOp newOp a a') ps qs →
  readPath a' <$> qs = substFirst oldOp newOp <$> (readPath a <$> ps).
Proof.
  induction 1 as [|p q ps qs Hpq _ IH]; [done|].
  rewrite !fmap_cons, IH. f_equal. by destruct Hpq as [-> _].
Qed.

(** The cached paths after the call, as lists of instances: those before
    the call, each with [newOp] over its first [oldOp]. *)
Lemma replaceInstance_values oldOp newOp c op :
  cache_valid c →
  cachedPaths (replaceInstance oldOp newOp c) op
  = fmap (M := option) (fmap (M := list) (substFirst oldOp newOp)) (cachedPaths c op).
Proof.
  intros Hvalid. destruct (replaceInstance_entries oldOp newOp c Hvalid)
    as (He & Hnone & Hsome).
  unfold cachedPaths. destruct (absolutePathsCache c !! op) as [pl|] eqn:E.
  - destruct (Hsome op pl E) as (pl' & -> & Hv & Hrep & _). simpl. f_equal.
    unfold pathsValue. by apply path_replaced_values.
  - by rewrite (Hnone op E).
Qed.

Lemma replaceInstance_valid oldOp newOp c :
  cache_valid c → cache_valid (replaceInstance oldOp newOp c).
Proof.
  intros Hvalid. destruct (replaceInstance_entries oldOp newOp c Hvalid)
    as (He & Hnone & Hsome).
  intros op pl' Hlk. simpl.
  destruct (absolutePathsCache c !! op) as [pl|] eqn:E.
  - destruct (Hsome op pl E) as (pl2 & Hlk2 & Hv & _). congruence.
  - rewrite (Hnone op E) in Hlk. done.
Qed.

Lemma replaceInstance_nothing_held oldOp newOp c :
  (∀ op pl, absolutePathsCache c !! op = Some pl →
            instanceExists (allocator c) oldOp pl = false) →
  absolutePathsCache (replaceInstance oldOp newOp c) = absolutePathsCache c
  ∧ allocator (replaceInstance oldOp newOp c) = allocator c.
Proof.
  intros Hfree. unfold replaceInstance.
  assert (Hloop : ∀ (l : list (Operation * PathList)) cache,
    Forall (fun e => instanceExists (allocator c) oldOp e.2 = false) l →
    foldl (replaceInEntry oldOp newOp) (cache, allocator c) l = (cache, allocator c)).
  { induction l as [|[op pl] l IH]; intros cache Hl; [done|].
    apply Forall_cons in Hl as [Hpl Hl]. cbn [foldl].
    unfold replaceInEntry at 2. simpl in Hpl. rewrite Hpl. simpl. by apply IH. }
  rewrite Hloop; [done|].
  apply Forall_forall. intros [op pl] Hin. apply elem_of_map_to_list in Hin.
  simpl. by eapply Hfree.
Qed.

Lemma instanceExists_cachedPaths c oldOp op pl :
  absolutePathsCache c !! op = Some pl →
  (∀ ps, cachedPaths c op = Some ps → Forall (fun p => oldOp ∉ p) ps) →
  instanceExists (allocator c) oldOp pl = false.
Proof.
  intros Hlk Hfree. apply not_true_is_false. intros Hex.
  apply instanceExists_holds in Hex as (p & Hp & Hin).
  specialize (Hfree (pathsValue (allocator c) pl)).
  unfold cachedPaths in Hfree. rewrite Hlk in Hfree. specialize (Hfree eq_refl).
  rewrite Forall_forall in Hfree. apply (Hfree (readPath (allocator c) p)); [|done].
  unfold pathsValue. apply list_elem_of_fmap. by exists p.
Qed.

(** X7.  Replacing an instance that no cached path holds changes nothing in the
    cache: every entry keeps its reference and the allocator is exactly as
    it was, no array is allocated. *)
Theorem replaceInstance_absent (oldOp newOp : InstanceOp) (c : InstancePathCache) :
  (∀ op ps, cachedPaths c op = Some ps → Forall (fun p => oldOp ∉ p) ps) →
  absolutePathsCache (replaceInstance oldOp newOp c) = absolutePathsCache c
  ∧ allocator (replaceInstance oldOp newOp c) = allocator c.
Proof.
  intros Hfree. apply replaceInstance_nothing_held.
  intros op pl Hlk. eapply instanceExists_cachedPaths; [done|]. apply Hfree.
Qed.

Lemma cachedPaths_all (P : list InstanceOp → Prop) `{∀ p, Decision (P p)}
    (c : InstancePathCache) :
  map_Forall (fun _ pl => Forall P (pathsValue (allocator c) pl)) (absolutePathsCache c) →
  ∀ op ps, cachedPaths c op = Some ps → Forall P ps.
Proof.
  intros Hall op ps Hlk. unfold cachedPaths in Hlk.
  destruct (absolutePathsCache c !! op) as [pl|] eqn:E; [|done].
  injection Hlk as <-. by apply (Hall op pl E).
Qed.

Lemma replaceInstance_absent_witness :
  absolutePathsCache (replaceInstance 77 99 exampleCache) = absolutePathsCache exampleCache
  ∧ allocator (replaceInstance 77 99 exampleCache) = allocator exampleCache.
Proof.
  apply (replaceInstance_absent 77 99 exampleCache).
  apply (cachedPaths_all (fun p => 77 ∉ p)).
  apply (bool_decide_unpack _). vm_compute. exact I.
Defined.

(** X8.  [replaceInstance] keeps the cache in range: when every cached reference
    shows as many paths, and every path as many instances, as its length
    says, the same holds after the call, so calls can follow one another;
    and the call neither adds nor drops a cached module. *)
Theorem replaceInstance_keeps_valid (oldOp newOp : InstanceOp) (c : InstancePathCache) :
  cache_valid c →
  cache_valid (replaceInstance oldOp newOp c)
  ∧ dom (absolutePathsCache (replaceInstance oldOp newOp c)) = dom (absolutePathsCache c).
Proof.
  intros Hvalid. split; [by apply replaceInstance_valid|].
  destruct (replaceInstance_entries oldOp newOp c Hvalid) as (He & Hnone & Hsome).
  apply set_eq. intros op. rewrite !elem_of_dom.
  destruct (absolutePathsCache c !! op) as [pl|] eqn:E.
  - destruct (Hsome op pl E) as (pl' & -> & _). split; eauto.
  - rewrite (Hnone op E). done.
Qed.

Lemma replaceInstance_keeps_valid_witness :
  cache_valid (replaceInstance 10 99 exampleCache)
  ∧ dom (absolutePathsCache (replaceInstance 10 99 exampleCache))
    = dom (absolutePathsCache exampleCache).
Proof.
  apply (replaceInstance_keeps_valid 10 99 exampleCache).
  apply (bool_decide_unpack _). vm_compute. exact I.
Defined.

(** X9.  Replacing [oldOp] by an instance [newOp] that no cached path holds and
    then [newOp] by [oldOp] gives back, for every cached module, the paths
    it had, instance by instance (in arrays of their own). *)
Theorem replaceInstance_round_trip (oldOp newOp : InstanceOp) (c : InstancePathCache)
    (op : Operation) :
  cache_valid c →
  (∀ op ps, cachedPaths c op = Some ps → Forall (fun p => newOp ∉ p) ps) →
  cachedPaths (replaceInstance newOp oldOp (replaceInstance oldOp newOp c)) op
  = cachedPaths c op.
Proof.
  intros Hvalid Hfresh.
  rewrite replaceInstance_values by (by apply replaceInstance_valid).
  rewrite replaceInstance_values by done.
  destruct (cachedPaths c op) as [ps|] eqn:E; [|done]. simpl. f_equal.
  rewrite <- list_fmap_compose. rewrite <- (list_fmap_id ps) at 2.
  apply Forall_fmap_ext. eapply Forall_impl; [by apply (Hfresh op)|].
  intros p Hp. by apply substFirst_back.
Qed.

Lemma replaceInstance_round_trip_witness :
  cachedPaths (replaceInstance 99 10 (replaceInstance 10 99 exampleCache)) 2
  = cachedPaths exampleCache 2.
Proof.
  apply (replaceInstance_round_trip 10 99 exampleCache 2).
  - apply (bool_decide_unpack _). vm_compute. exact I.
  - apply (cachedPaths_all (fun p => 99 ∉ p)).
    apply (bool_decide_unpack _). vm_compute. exact I.
Defined.

(** X10.  When no cached path holds an instance twice, [replaceInstance] leaves
    no cached path that holds [oldOp] (for [newOp] another instance), and a
    second call with the same arguments finds nothing to do: it changes
    neither the cache nor the allocator. *)
Theorem replaceInstance_removes_old (oldOp newOp : InstanceOp) (c : InstancePathCache) :
  cache_valid c → oldOp ≠ newOp →
  (∀ op ps, cachedPaths c op = Some ps → Forall NoDup ps) →
  let c' := replaceInstance oldOp newOp c in
  (∀ op ps, cachedPaths c' op = Some ps → Forall (fun p => oldOp ∉ p) ps)
  ∧ absolutePathsCache (replaceInstance oldOp newOp c') = absolutePathsCache c'
  ∧ allocator (replaceInstance oldOp newOp c') = allocator c'.
Proof.
  intros Hvalid Hne Hnd c'.
  assert (Hgone : ∀ op ps, cachedPaths c' op = Some ps →
    Forall (fun p => oldOp ∉ p) ps).
  { intros op ps Hlk. unfold c' in Hlk. rewrite replaceInstance_values in Hlk by done.
    destruct (cachedPaths c op) as [ps0|] eqn:E; [|done].
    injection Hlk as <-. apply Forall_fmap.
    eapply Forall_impl; [by apply (Hnd op)|].
    intros p Hp. simpl. by apply substFirst_removes. }
  split; [done|].
  apply replaceInstance_nothing_held.
  intros op pl Hlk. eapply instanceExists_cachedPaths; [done|]. apply Hgone.
Qed.

Lemma replaceInstance_removes_old_witness :
  let c' := replaceInstance 10 99 exampleCache in
  (∀ op ps, cachedPaths c' op = Some ps → Forall (fun p => 10 ∉ p) ps)
  ∧ absolutePathsCache (replaceInstance 10 99 c') = absolutePathsCache c'
  ∧ allocator (replaceInstance 10 99 c') = allocator c'.
Proof.
  apply (replaceInstance_removes_old 10 99 exampleCache).
  - apply (bool_decide_unpack _). vm_compute. exact I.
  - lia.
  - apply (cachedPaths_all NoDup).
    apply (bool_decide_unpack _). vm_compute. exact I.
Defined.

(** * Further properties of LowerAnnotations *)

(** ** Dictionaries *)

Lemma getNamed_insertNamed na sorted name :
  getNamed (insertNamed na sorted) name
  = if decide (na.1 = name) then Some na.2 else getNamed sorted name.
Proof.
  destruct na as [k v]. simpl.
  induction sorted as [|[k' v'] sorted IH]; simpl; [done|].
  destruct (String.leb k k') eqn:Hle; simpl; [done|].
  rewrite IH. destruct (decide (k = name)) as [->|Hne]; [|done].
  rewrite decide_False; [done|]. intros ->.
  destruct (String.leb_total name name); congruence.
Qed.

Lemma getNamed_DictionaryAttr_get attrs name :
  getNamed (DictionaryAttr_get attrs) name = getNamed attrs name.
Proof.
  unfold DictionaryAttr_get. induction attrs as [|[k v] attrs IH]; simpl; [done|].
  rewrite getNamed_insertNamed. simpl. by rewrite IH.
Qed.

Lemma getNamed_app l1 l2 name :
  getNamed (l1 ++ l2) name
  = match getNamed l1 name with Some v => Some v | None => getNamed l2 name end.
Proof.
  induction l1 as [|[k v] l1 IH]; simpl; [done|]. by case_decide.
Qed.

Lemma getNamed_withoutTarget anno name :
  getNamed (withoutTarget anno) name
  = if decide (name = "target") then None else getNamed anno name.
Proof.
  unfold withoutTarget. induction anno as [|[k v] anno IH]; simpl.
  { by case_decide. }
  rewrite filter_cons. simpl. destruct (decide (k ≠ "target")) as [Hk|Hk]; simpl.
  - rewrite IH. repeat case_decide; congruence.
  - apply dec_stable in Hk. rewrite IH. repeat case_decide; congruence.
Qed.

Lemma getNamed_annotationOf fieldIdx anno name :
  getNamed (annotationOf fieldIdx anno) name
  = match getNamed anno name with
    | Some v => Some v
    | None =>
      if decide (fieldIdx ≠ 0 ∧ name = "circt.fieldID")
      then Some (IntegerAttr (N.of_nat fieldIdx)) else None
    end.
Proof.
  unfold annotationOf. destruct (decide (fieldIdx ≠ 0)) as [Hf|Hf].
  - rewrite getNamed_DictionaryAttr_get. unfold push_back. rewrite getNamed_app.
    destruct (getNamed anno name); [done|]. simpl.
    repeat case_decide; naive_solver.
  - rewrite getNamed_DictionaryAttr_get. destruct (getNamed anno name); [done|].
    rewrite decide_False; [done|]. naive_solver.
Qed.

(** Runs the state monad on the state at hand. *)
Ltac runM :=
  unfold mbind, ApplyM_bind, emitError, modifyState, getState, liftResult,
    mret, ApplyM_ret, push_back;
  simpl.

Section more_annotation_handlers.
Context {namespaceOps : NamespaceOps} {externals : Externals}.

(** ** [addAnnotation] *)

Lemma addAnnotation_op op fieldIdx anno st :
  addAnnotation (OpAnnoTarget op) fieldIdx anno st
  = Ok (tt, attached st op (annotationOf fieldIdx anno)).
Proof. reflexivity. Qed.




(** ** [applyWithoutTarget]: the annotation that is put on the target *)

Lemma filter_target_loop
    (other : list NamedAttribute → NamedAttribute → ApplyM (list NamedAttribute))
    (Hother : ∀ acc na st, other acc na st = Ok (acc, st))
    (anno : DictionaryAttr) : ∀ acc st,
  foldlM (fun newAnnoAttrs (na : NamedAttribute) =>
            if decide (na.1 ≠ "target") then mret (push_back newAnnoAttrs na)
            else other newAnnoAttrs na)
         acc anno st
  = Ok (acc ++ withoutTarget anno, st).
Proof.
  unfold withoutTarget.
  induction anno as [|na anno IH]; intros acc st; simpl.
  - by rewrite app_nil_r.
  - rewrite filter_cons. destruct (decide (na.1 ≠ "target")) as [Hna|Hna].
    + erewrite applyM_bind_Ok by done.
      rewrite IH. unfold push_back. by rewrite <- app_assoc.
    + erewrite applyM_bind_Ok by apply Hother. by rewrite IH.
Qed.

Lemma applyWithoutTargetImpl_local_run target anno allowNonLocal st :
  instances target = [] →
  applyWithoutTargetImpl target anno allowNonLocal st
  = (_ ← addAnnotation (ref target) (fieldIdx target) (withoutTarget anno);
     mret success) st.
Proof.
  intros Hi.
  assert (Hloc : isLocal target = true).
  { unfold isLocal. by rewrite bool_decide_true. }
  unfold applyWithoutTargetImpl. rewrite Hloc. simpl. rewrite andb_false_r.
  erewrite applyM_bind_Ok.
  2:{ apply (filter_target_loop (fun acc _ => mret acc)). done. }
  done.
Qed.

(** X13.  A local target that is an operation: whatever the switch for non-local
    targets, the applier succeeds and the operation has one more
    annotation, the last of its list.  That annotation has no 'target';
    each other field of the given annotation is in it with its value; and it
    has a "circt.fieldID" with the field index of the target exactly when
    that index is not zero (for an annotation that does not bring a
    "circt.fieldID" of its own). *)
Theorem applyWithoutTarget_drops_target (target : AnnoPathValue)
    (anno : DictionaryAttr) (allowNonLocal : bool) (op : Operation) (st : ApplyState) :
  instances target = [] → ref target = OpAnnoTarget op →
  getNamed anno "circt.fieldID" = None →
  ∃ annotation,
    applyWithoutTargetImpl target anno allowNonLocal st
    = Ok (success, attached st op annotation)
    ∧ getAnnotationsFrom (ir (attached st op annotation)) op
      = getAnnotationsFrom (ir st) op ++ [annotation]
    ∧ getNamed annotation "target" = None
    ∧ (∀ name, name ≠ "target" → name ≠ "circt.fieldID" →
               getNamed annotation name = getNamed anno name)
    ∧ getNamed annotation "circt.fieldID"
      = if decide (fieldIdx target ≠ 0)
        then Some (IntegerAttr (N.of_nat (fieldIdx target))) else None.
Proof.
  intros Hi Hr Hfield.
  exists (annotationOf (fieldIdx target) (withoutTarget anno)).
  split.
  { rewrite applyWithoutTargetImpl_local_run by done. by rewrite Hr. }
  split.
  { unfold attached, getAnnotationsFrom at 1. cbn. by rewrite lookup_insert_eq. }
  split.
  { rewrite getNamed_annotationOf, getNamed_withoutTarget. simpl.
    rewrite decide_False; [done|]. intros [_ ?]. done. }
  split.
  - intros name Hn1 Hn2. rewrite getNamed_annotationOf, getNamed_withoutTarget.
    rewrite decide_False by done. destruct (getNamed anno name); [done|].
    rewrite decide_False; [done|]. naive_solver.
  - rewrite getNamed_annotationOf, getNamed_withoutTarget. simpl. rewrite Hfield.
    repeat case_decide; naive_solver.
Qed.

(** ** [applyWithoutTarget]: non-local targets *)



(** ** The record of annotations without target *)

(** X16.  An annotation handled by [NoTargetAnnotation] is put on the circuit,
    without its 'target' if it has one: the target is neither resolved nor
    looked at, and no error is sent. *)
Theorem NoTargetAnnotation_on_circuit (anno : DictionaryAttr) (st : ApplyState) :
  kindOf (ir st) (circuit st) = OpKind.CircuitOp →
  applyRecord NoTargetAnnotation anno st
  = Ok (success, attached st (circuit st) (DictionaryAttr_get (withoutTarget anno)))
  ∧ getNamed (DictionaryAttr_get (withoutTarget anno)) "target" = None
  ∧ (∀ name, name ≠ "target" →
       getNamed (DictionaryAttr_get (withoutTarget anno)) name = getNamed anno name).
Proof.
  intros Hkind. split; [|split].
  - assert (Happly :
      applyWithoutTargetOn false false [OpKind.CircuitOp] (circuitTarget st) anno st
      = Ok (success,
            attached st (circuit st) (DictionaryAttr_get (withoutTarget anno)))).
    { unfold applyWithoutTargetOn.
      rewrite (applyM_bind_Ok _ _ st st st) by done.
      cbn [ref circuitTarget]. unfold isOpOfType. cbn [ref circuitTarget].
      rewrite Hkind. rewrite bool_decide_true by set_solver. cbn [negb].
      by rewrite applyWithoutTargetImpl_local_run. }
    unfold applyRecord, NoTargetAnnotation. cbn [resolver applier].
    rewrite (applyM_bind_Ok _ _ st (Some (circuitTarget st)) st) by done.
    by erewrite applyM_bind_Ok by exact Happly.
  - rewrite getNamed_DictionaryAttr_get, getNamed_withoutTarget. done.
  - intros name Hne. rewrite getNamed_DictionaryAttr_get, getNamed_withoutTarget.
    by rewrite decide_False.
Qed.

(** ** [stdResolve] and [tryResolve] on a missing or ill-typed target *)

(** X17.  With a record that resolves by [stdResolve], an annotation that has no
    'target', or whose 'target' is not a string, or whose target string
    cannot be tokenized, fails with two errors, the resolver's and then
    "Unable to resolve target"; the applier is not called and nothing else
    in the state changes. *)
Theorem stdResolve_reports_bad_target (applier : Applier) (anno : DictionaryAttr)
    (st : ApplyState) :
  let fails_with d :=
    applyRecord (rec stdResolve applier) anno st
    = Ok (failure,
          setDiagnostics st (diagnostics st ++ [d; UnableToResolveTarget anno])) in
  (getNamed anno "target" = None → fails_with (NoTargetField anno))
  ∧ (∀ attr, getNamed anno "target" = Some attr → (∀ s, attr ≠ StringAttr s) →
       fails_with (TargetNotString anno))
  ∧ (∀ rawPath, getNamed anno "target" = Some (StringAttr rawPath) →
       tokenizePath (canonicalizeTarget rawPath) = None →
       fails_with (CannotTokenize rawPath)).
Proof.
  cbv zeta. unfold applyRecord, rec, stdResolve. cbn [resolver].
  split; [|split].
  - intros ->. runM. by rewrite <- app_assoc.
  - intros attr -> Hn. destruct attr; try (by destruct (Hn value)).
    all: runM; by rewrite <- app_assoc.
  - intros rawPath -> Htok. unfold stdResolveImpl. rewrite Htok.
    runM. by rewrite <- app_assoc.
Qed.

(** X18.  The two casts to [StringAttr] that nothing guards.  A 'class' that is
    not a string stops [applyAnnotation] on the cast, whatever the
    switches.  A 'target' that is not a string stops the fallback resolver
    [tryResolve] on the cast: an annotation without class or of an unknown
    class, tolerated by its switch, then ends the pass on an assertion
    where [stdResolve] would have sent "Target field in annotation doesn't
    contain string". *)
Theorem unchecked_string_casts (pass : LowerAnnotationsPass) (anno : DictionaryAttr)
    (st : ApplyState) :
  (∀ attr, getNamed anno "class" = Some attr → (∀ s, attr ≠ StringAttr s) →
     applyAnnotation pass anno st = Fail AssertionFailed)
  ∧ (∀ attr, getNamed anno "target" = Some attr → (∀ s, attr ≠ StringAttr s) →
     applyRecord missingRecord anno st = Fail AssertionFailed
     ∧ (getNamed anno "class" = None → ignoreClasslessAnno pass = true →
        applyAnnotation pass anno st = Fail AssertionFailed)
     ∧ (∀ cls, getNamed anno "class" = Some (StringAttr cls) →
        findRecord annotationRecords cls = None → ignoreUnhandledAnno pass = true →
        applyAnnotation pass anno st = Fail AssertionFailed)).
Proof.
  split.
  { intros attr Hc Hn. by eapply applyAnnotation_class_not_string. }
  intros attr Ht Hn.
  assert (Hrec : ∀ s0, applyRecord missingRecord anno s0 = Fail AssertionFailed).
  { intros s0. unfold applyRecord, missingRecord, rec, tryResolve. cbn [resolver].
    rewrite Ht. destruct attr; try done. by destruct (Hn value). }
  split; [apply Hrec|]. split.
  - intros Hc Hi. rewrite applyAnnotation_no_class_tolerated by done.
    apply applyM_bind_Fail, Hrec.
  - intros cls Hc Hr Hi. erewrite applyAnnotation_unknown_tolerated by done.
    apply applyM_bind_Fail, Hrec.
Qed.

(** ** [getAnnotationHandler] and [isAnnoClassLowered] *)

(** X19.  With the fallback asked for, [getAnnotationHandler] always has a
    record to return: the one of the class, or else the one of
    "circt.missing", which is in the table whatever the class names are.
    Without the fallback it returns a record exactly for the classes
    [isAnnoClassLowered] accepts, "circt.missing" among them. *)
Theorem getAnnotationHandler_fallback (annoStr : string) :
  getAnnotationHandler annoStr true
  = Some (default missingRecord (findRecord annotationRecords annoStr))
  ∧ (isAnnoClassLowered annoStr = true ↔ is_Some (getAnnotationHandler annoStr false))
  ∧ (isAnnoClassLowered annoStr = false ↔ getAnnotationHandler annoStr false = None)
  ∧ getAnnotationHandler "circt.missing" false = Some missingRecord.
Proof.
  unfold getAnnotationHandler, isAnnoClassLowered.
  rewrite findRecord_missing.
  destruct (findRecord annotationRecords annoStr) as [r|] eqn:E.
  - rewrite bool_decide_true by eauto. simpl. split_and!; try done; eauto.
  - rewrite bool_decide_false by (by intros [? ?]). simpl.
    split_and!; try done; try (by intros [? ?]).
Qed.

(** ** [applyAnnotation]: the count of unhandled annotations *)

(** X20.  Whenever [applyAnnotation] returns, it has counted the annotation as
    unhandled exactly when the annotation has a class for which the table
    has no record, with the fallback or without it; an annotation without
    class is never counted.  Nothing else in the pass object changes. *)
Theorem applyAnnotation_counts_unhandled (pass : LowerAnnotationsPass)
    (anno : DictionaryAttr) (st : ApplyState)
    (r : LogicalResult) (pass' : LowerAnnotationsPass) (st' : ApplyState) :
  applyAnnotation pass anno st = Ok ((r, pass'), st') →
  pass' = if unhandledClass anno then incrNumUnhandled pass else pass.
Proof.
  intros Hrun. unfold unhandledClass, isAnnoClassLowered.
  assert (Hrec : ∀ record p s0,
    (applyRecord record anno ≫= (fun r => mret (r, p))) s0 = Ok ((r, pass'), st') →
    pass' = p).
  { intros record p s0 H0. unfold mbind at 1, ApplyM_bind at 1 in H0.
    destruct (applyRecord record anno s0) as [[r0 s1]|]; [|done].
    by injection H0 as _ <- _. }
  destruct (getNamed anno "class") as [attr|] eqn:Hc.
  - destruct attr as [cls| | | |];
      try (by rewrite (applyAnnotation_class_not_string pass anno st _ Hc) in Hrun).
    destruct (findRecord annotationRecords cls) as [record|] eqn:Hf.
    + rewrite bool_decide_true by eauto. simpl.
      erewrite applyAnnotation_known in Hrun by done. by eapply Hrec.
    + rewrite bool_decide_false by (by intros [? ?]). simpl.
      destruct (ignoreUnhandledAnno pass) eqn:Hi.
      * erewrite applyAnnotation_unknown_tolerated in Hrun by done. by eapply Hrec.
      * erewrite applyAnnotation_unknown_strict in Hrun by done.
        by injection Hrun as _ <- _.
  - destruct (ignoreClasslessAnno pass) eqn:Hi.
    + rewrite applyAnnotation_no_class_tolerated in Hrun by done. by eapply Hrec.
    + rewrite applyAnnotation_no_class_strict in Hrun by done.
      by injection Hrun as _ <- _.
Qed.

End more_annotation_handlers.

(** ** [buildNLA]: one hierarchical path per name path *)

Section nla_reuse.
Context {namespaceOps : NamespaceOps} {externals : Externals}.
Variable refOf : InstanceOp → Attribute.
Variable nameOf : AnnoTarget → string.
Hypothesis Href : ∀ inst st, getNLAReference inst st = Ok (refOf inst, st).
Hypothesis Hname : ∀ ref st, moduleNameAttr ref st = Ok (nameOf ref, st).
Hypothesis Hsym : ∀ name st sym st',
  symTblInsert name st = Ok (sym, st') → instPathToNLAMap st' = instPathToNLAMap st.

Lemma findNLA_push_back map instAttr sym :
  findNLA (push_back map (instAttr, sym)) instAttr
  = Some (default sym (findNLA map instAttr)).
Proof.
  unfold push_back. induction map as [|[k s] map IH]; simpl.
  - by rewrite decide_True.
  - case_decide; [done|]. apply IH.
Qed.

Lemma references_loop (l : list InstanceOp) : ∀ acc st,
  foldlM (fun insts inst => r ← getNLAReference inst; mret (push_back insts r))
         acc l st
  = Ok (acc ++ (refOf <$> l), st).
Proof.
  induction l as [|inst l IH]; intros acc st; simpl.
  - by rewrite app_nil_r.
  - erewrite applyM_bind_Ok.
    2:{ erewrite applyM_bind_Ok by apply Href. reflexivity. }
    rewrite IH. unfold push_back. by rewrite <- app_assoc.
Qed.

Lemma buildNLA_run target st :
  buildNLA target st
  = match findNLA (instPathToNLAMap st) (namepathOf refOf nameOf target) with
    | Some sym =>
      Ok (sym, setNumReusedHierPaths st (numReusedHierPaths st + 1))
    | None =>
      match symTblInsert "nla" st with
      | Ok (sym, st1) =>
        Ok (sym,
            setInstPathToNLAMap
              (setIr st1 (addHierPathOp (ir st1) sym (namepathOf refOf nameOf target)))
              (push_back (instPathToNLAMap st1)
                 (namepathOf refOf nameOf target, sym)))
      | Fail f => Fail f
      end
    end.
Proof.
  unfold buildNLA.
  erewrite applyM_bind_Ok by apply references_loop.
  erewrite applyM_bind_Ok by apply Hname.
  rewrite (applyM_bind_Ok _ _ st st st) by done.
  cbn [app]. fold (namepathOf refOf nameOf target).
  destruct (findNLA (instPathToNLAMap st) (namepathOf refOf nameOf target))
    as [sym|] eqn:Efind; [done|].
  destruct (symTblInsert "nla" st) as [[sym st1]|f] eqn:Esym.
  - erewrite applyM_bind_Ok by exact Esym.
    runM. rewrite (Hsym _ _ _ _ Esym), Efind. done.
  - by apply applyM_bind_Fail.
Qed.

Lemma buildNLA_reuses_aux target st sym st1 :
  buildNLA target st = Ok (sym, st1) →
  findNLA (instPathToNLAMap st1) (namepathOf refOf nameOf target) = Some sym
  ∧ buildNLA target st1
    = Ok (sym, setNumReusedHierPaths st1 (numReusedHierPaths st1 + 1)).
Proof.
  intros Hrun. rewrite buildNLA_run in Hrun.
  assert (Hfound : findNLA (instPathToNLAMap st1) (namepathOf refOf nameOf target)
                   = Some sym).
  { destruct (findNLA (instPathToNLAMap st) (namepathOf refOf nameOf target))
      as [sym0|] eqn:Efind.
    - by injection Hrun as <- <-.
    - destruct (symTblInsert "nla" st) as [[sym1 st2]|f] eqn:Esym; [|done].
      injection Hrun as <- <-. cbn. rewrite findNLA_push_back.
      by rewrite (Hsym _ _ _ _ Esym), Efind. }
  split; [done|]. rewrite buildNLA_run. by rewrite Hfound.
Qed.

End nla_reuse.

(** X15.  When the references to the instances and the module names do not
    depend on the state, and inserting into the symbol table leaves the map
    of name paths alone: after [buildNLA] has returned a symbol for a
    target, the map holds that symbol for the name path of the target, and
    building the anchor of the same target again returns the same symbol,
    makes no second [HierPathOp] and adds one to the count of reused
    paths, changing nothing else. *)
Theorem buildNLA_reuses {namespaceOps : NamespaceOps} {externals : Externals}
    (refOf : InstanceOp → Attribute) (nameOf : AnnoTarget → string)
    (target : AnnoPathValue) (st : ApplyState) (sym : string) (st1 : ApplyState) :
  (∀ inst st, getNLAReference inst st = Ok (refOf inst, st)) →
  (∀ ref st, moduleNameAttr ref st = Ok (nameOf ref, st)) →
  (∀ name st sym st',
     symTblInsert name st = Ok (sym, st') →
     instPathToNLAMap st' = instPathToNLAMap st) →
  buildNLA target st = Ok (sym, st1) →
  findNLA (instPathToNLAMap st1) (namepathOf refOf nameOf target) = Some sym
  ∧ buildNLA target st1
    = Ok (sym, setNumReusedHierPaths st1 (numReusedHierPaths st1 + 1))
  ∧ hierPathOps (ir (setNumReusedHierPaths st1 (numReusedHierPaths st1 + 1)))
    = hierPathOps (ir st1).
Proof.
  intros Href Hname Hsym Hrun.
  destruct (buildNLA_reuses_aux refOf nameOf Href Hname Hsym target st sym st1 Hrun)
    as [Hfound Hagain].
  done.
Qed.

(** ** The LCA loop, case by case *)

Section more_wiring.
Context {namespaceOps : NamespaceOps} {externals : Externals}.

Lemma lcaLoop_sink_prefix design common : ∀ lca rest,
  Forall (isFModule design) common →
  lcaLoop design lca (common ++ rest) common = Fail InvalidAccess.
Proof.
  induction common as [|c common IH]; intros lca rest Hk.
  - simpl. by destruct rest.
  - apply Forall_cons in Hk as [Hc Hk].
    simpl. rewrite bool_decide_false by (by intros ?).
    unfold castFModuleOp. rewrite decide_True by done. simpl. by apply IH.
Qed.

Lemma common_prefix_split (xs ys : list InstanceOp) :
  ∃ common s k,
    xs = common ++ s ∧ ys = common ++ k ∧ (k = [] ∨ head s ≠ head k).
Proof.
  revert ys. induction xs as [|x xs IH]; intros ys.
  - exists [], [], ys. split; [done|]. split; [done|]. destruct ys; [by left|by right].
  - destruct ys as [|y ys].
    + exists [], (x :: xs), []. auto.
    + destruct (decide (x = y)) as [->|Hne].
      * destruct (IH ys) as (common & s & k & -> & -> & Hd).
        exists (y :: common), s, k. done.
      * exists [], (x :: xs), (y :: ys). split; [done|]. split; [done|].
        right. simpl. congruence.
Qed.

(** X21.  What the loop does with any two paths, when the instances of the
    source path are instances of [FModuleOp]s.  Split the paths into their
    longest common prefix and what is left of each.  If something is left
    of the sink path, the loop returns the module of the last common
    instance (the module it started with, for an empty prefix) and the two
    rests.  If nothing is left of the sink path, the loop reads out of
    range.  There is no third case. *)
Theorem lcaLoop_outcome (design : IR) (lca : Operation)
    (sources sinks : list InstanceOp) :
  Forall (isFModule design) sources →
  ∃ common s k,
    sources = common ++ s ∧ sinks = common ++ k
    ∧ (k = [] ∨ head s ≠ head k)
    ∧ lcaLoop design lca sources sinks
      = match k with
        | [] => Fail InvalidAccess
        | _ :: _ => Ok (lcaOf design lca common, s, k)
        end.
Proof.
  intros Hk. destruct (common_prefix_split sources sinks)
    as (common & s & k & -> & -> & Hd).
  exists common, s, k. split; [done|]. split; [done|]. split; [done|].
  apply Forall_app in Hk as [Hc _].
  destruct k as [|k0 k].
  - rewrite app_nil_r. by apply lcaLoop_sink_prefix.
  - apply lcaLoop_diverging; [done|].
    destruct Hd as [?|Hd]; [done|]. destruct s; [done|]. simpl in Hd. congruence.
Qed.

(** ** The last phase when there is nothing to wire *)

Lemma updateModules_nothing_loop (l : list Node) (st : ApplyState) :
  foldlM (fun (mods : gmap Operation ModuleModifications) op =>
            st ← getState;
            fmodule ← liftResult (castFModuleOp (ir st) op);
            match mods !! fmodule with
            | None => mret mods
            | Some _ => updateModule fmodule mods
            end)
         ∅ l st
  = if decide (Forall (fun op => kindOf (ir st) op = OpKind.FModuleOp) l)
    then Ok (∅, st) else Fail AssertionFailed.
Proof.
  induction l as [|op l IH]; cbn [foldlM].
  { by rewrite decide_True by constructor. }
  destruct (decide (kindOf (ir st) op = OpKind.FModuleOp)) as [Hop|Hop].
  - erewrite applyM_bind_Ok.
    2:{ rewrite (applyM_bind_Ok _ _ st st st) by done.
        unfold castFModuleOp. rewrite decide_True by done.
        rewrite (applyM_bind_Ok _ _ st op st) by done.
        rewrite lookup_empty. reflexivity. }
    rewrite IH. destruct (decide (Forall _ l)) as [Hl|Hl].
    + by rewrite decide_True by (by constructor).
    + rewrite decide_False; [done|]. intros Hall. by apply Forall_cons in Hall as [_ ?].
  - rewrite decide_False by (intros Hall; by apply Forall_cons in Hall as [? _]).
    apply applyM_bind_Fail.
    rewrite (applyM_bind_Ok _ _ st st st) by done.
    apply applyM_bind_Fail. unfold castFModuleOp. by rewrite decide_False.
Qed.

Lemma updateModules_nothing (st : ApplyState) :
  updateModules ∅ st
  = if decide (allFModules (ir st) (instanceGraph (instancePathCache st)))
    then Ok (∅, st) else Fail AssertionFailed.
Proof.
  unfold updateModules. rewrite (applyM_bind_Ok _ _ st st st) by done.
  apply updateModules_nothing_loop.
Qed.

(** X23.  A run in which the appliers have found no wiring problem.  After the
    worklist loop nothing is planned and no module is rewritten, yet the
    loop over the modules still casts every node of the instance graph to
    [FModuleOp]: the pass returns, with the state the worklist loop left
    and the statistics brought up to date, when all of them are
    [FModuleOp]s, and stops on the cast when one is not (an external
    module, say). *)
Theorem runOnOperation_without_wiring (fuel : nat) (pass : LowerAnnotationsPass)
    (circuitOp : Operation) (design : IR) (graph : InstanceGraph)
    (annotations : list DictionaryAttr)
    (numFailures : nat) (pass1 : LowerAnnotationsPass) (st1 : ApplyState) :
  rawAnnotations design = Some annotations →
  (_ ← populateWorklist annotations; processWorklist fuel pass 0)
    (initialState circuitOp (removeRawAnnotations design) graph)
  = Ok ((numFailures, pass1), st1) →
  wiringProblems st1 = [] →
  runOnOperation fuel pass circuitOp design graph
  = if decide (allFModules (ir st1) (instanceGraph (instancePathCache st1)))
    then Ok (updateStatistics pass1 annotations st1 numFailures, st1)
    else Fail AssertionFailed.
Proof.
  intros Hraw Hrun Hnone. unfold runOnOperation. rewrite Hraw.
  set (st0 := initialState circuitOp (removeRawAnnotations design) graph) in *.
  unfold mbind at 1, ApplyM_bind at 1 in Hrun.
  destruct (populateWorklist annotations st0) as [[[] st0']|] eqn:Hpop; [|done].
  erewrite applyM_bind_Ok by exact Hpop.
  erewrite applyM_bind_Ok by exact Hrun. cbn beta iota.
  rewrite (applyM_bind_Ok _ _ st1 st1 st1) by done.
  rewrite Hnone. cbn [enumerate imap foldlM].
  rewrite (applyM_bind_Ok _ _ st1 ∅ st1) by done.
  pose proof (updateModules_nothing st1) as Hupd.
  destruct (decide (allFModules (ir st1) (instanceGraph (instancePathCache st1)))).
  - erewrite applyM_bind_Ok by exact Hupd.
    by rewrite (applyM_bind_Ok _ _ st1 st1 st1) by done.
  - by erewrite applyM_bind_Fail by exact Hupd.
Qed.

(** ** The connections a wiring problem starts with *)

Lemma modificationsOf_setConnection mods module index v m :
  modificationsOf (setConnection mods module index v) m
  = if decide (m = module)
    then {| portsToAdd := portsToAdd (modificationsOf mods m);
            connectionMap := <[index := v]> (connectionMap (modificationsOf mods m));
            uturns := uturns (modificationsOf mods m) |}
    else modificationsOf mods m.
Proof.
  unfold modificationsOf, setConnection. destruct (decide (m = module)) as [->|Hne].
  - by rewrite lookup_insert_eq.
  - by rewrite lookup_insert_ne.
Qed.


Lemma recordPort_connections dir problem index mods inst st mods' st' :
  recordPort dir problem index mods inst st = Ok (mods', st') →
  ∀ m, connectionMap (modificationsOf mods' m) = connectionMap (modificationsOf mods m)
       ∧ uturns (modificationsOf mods' m) = uturns (modificationsOf mods m).
Proof.
  intros Hrun m. unfold recordPort in Hrun.
  unfold mbind at 1, ApplyM_bind at 1 in Hrun. cbn [getState] in Hrun.
  unfold mbind at 1, ApplyM_bind at 1 in Hrun.
  destruct (liftResult (castFModuleOp _ _) st) as [[module s1]|]; [|done].
  unfold mbind at 1, ApplyM_bind at 1 in Hrun.
  destruct (liftResult (wiringPortType problem) s1) as [[tpe s2]|]; [|done].
  unfold mbind at 1, ApplyM_bind at 1 in Hrun.
  destruct (getNamespace_newName module (newNameHint problem) s2) as [[name s3]|];
    [|done].
  injection Hrun as <- <-. rewrite modificationsOf_pushPort. by case_decide.
Qed.

Lemma recordPort_loop_connections dir problem index (chain : list InstanceOp) :
  ∀ mods st mods' st',
  foldlM (recordPort dir problem index) mods chain st = Ok (mods', st') →
  ∀ m, connectionMap (modificationsOf mods' m) = connectionMap (modificationsOf mods m)
       ∧ uturns (modificationsOf mods' m) = uturns (modificationsOf mods m).
Proof.
  induction chain as [|inst chain IH]; intros mods st mods' st' Hrun m.
  - by injection Hrun as <- <-.
  - cbn [foldlM] in Hrun. unfold mbind at 1, ApplyM_bind at 1 in Hrun.
    destruct (recordPort dir problem index mods inst st) as [[mods1 st1]|] eqn:Hstep;
      [|done].
    destruct (IH _ _ _ _ Hrun m) as [-> ->].
    by apply (recordPort_connections _ _ _ _ _ _ _ _ Hstep).
Qed.

(** X22.  Whenever the planning of a problem returns, the module of the sink
    has the sink as its connection for the problem and the module of the
    source the source (the sink, were the two the same module: it is
    written last); no other connection and no u-turn has changed.  These
    are the connections the rewriting of the two modules starts from. *)
Theorem groupProblem_connections (fuel : nat)
    (mods : gmap Operation ModuleModifications) (index : nat)
    (problem : WiringProblem) (st : ApplyState)
    (mods' : gmap Operation ModuleModifications) (st' : ApplyState)
    (sourceModule sinkModule : Operation) :
  parentModule (source problem) = Some sourceModule →
  parentModule (sink problem) = Some sinkModule →
  groupProblem fuel mods (index, problem) st = Ok (mods', st') →
  connectionOf mods' sinkModule index = Some (sink problem)
  ∧ connectionOf mods' sourceModule index
    = Some (if decide (sourceModule = sinkModule) then sink problem
            else source problem)
  ∧ (∀ m i, (m ≠ sourceModule ∧ m ≠ sinkModule) ∨ i ≠ index →
            connectionOf mods' m i = connectionOf mods m i)
  ∧ (∀ m, uturns (modificationsOf mods' m) = uturns (modificationsOf mods m)).
Proof.
  intros Hsrc Hsnk Hrun. unfold groupProblem, getParentModule in Hrun.
  rewrite Hsrc, Hsnk in Hrun.
  rewrite (applyM_bind_Ok _ _ st sourceModule st) in Hrun by done.
  rewrite (applyM_bind_Ok _ _ st sinkModule st) in Hrun by done.
  set (mods2 := setConnection (setConnection mods sourceModule index (source problem))
                  sinkModule index (sink problem)) in *.
  unfold mbind at 1, ApplyM_bind at 1 in Hrun.
  destruct (cacheGetAbsolutePaths fuel sourceModule st) as [[sourcePaths s1]|]; [|done].
  unfold mbind at 1, ApplyM_bind at 1 in Hrun.
  destruct (liftResult (assert _) s1) as [[[] s2]|]; [|done].
  unfold mbind at 1, ApplyM_bind at 1 in Hrun.
  destruct (cacheGetAbsolutePaths fuel sinkModule s2) as [[sinkPaths s3]|]; [|done].
  unfold mbind at 1, ApplyM_bind at 1 in Hrun.
  destruct (liftResult (assert _) s3) as [[[] s4]|]; [|done].
  unfold mbind at 1, ApplyM_bind at 1 in Hrun. cbn [getState] in Hrun.
  unfold mbind at 1, ApplyM_bind at 1 in Hrun.
  destruct (liftResult (castFModuleOp _ _) s4) as [[lca s5]|]; [|done].
  unfold mbind at 1, ApplyM_bind at 1 in Hrun.
  destruct (liftResult (elementAt _ 0) s5) as [[sources s6]|]; [|done].
  unfold mbind at 1, ApplyM_bind at 1 in Hrun.
  destruct (liftResult (elementAt _ 0) s6) as [[sinks s7]|]; [|done].
  unfold mbind at 1, ApplyM_bind at 1 in Hrun.
  destruct (liftResult (lcaLoop _ _ _ _) s7) as [[[[lca' srcs] snks] s8]|]; [|done].
  unfold recordPorts in Hrun. unfold mbind at 1, ApplyM_bind at 1 in Hrun.
  destruct (foldlM (recordPort Out problem index) mods2 srcs s8)
    as [[mods3 s9]|] eqn:Hout; [|done].
  pose proof (recordPort_loop_connections _ _ _ _ _ _ _ _ Hout) as H3.
  pose proof (recordPort_loop_connections _ _ _ _ _ _ _ _ Hrun) as H4.
  assert (Hconn : ∀ m, connectionMap (modificationsOf mods' m)
                       = connectionMap (modificationsOf mods2 m)).
  { intros m. destruct (H4 m) as [-> _]. by destruct (H3 m) as [-> _]. }
  assert (Hut : ∀ m, uturns (modificationsOf mods' m) = uturns (modificationsOf mods2 m)).
  { intros m. destruct (H4 m) as [_ ->]. by destruct (H3 m) as [_ ->]. }
  unfold connectionOf. split_and!.
  - rewrite Hconn. unfold mods2. rewrite modificationsOf_setConnection.
    rewrite decide_True by done. cbn. by rewrite lookup_insert_eq.
  - rewrite Hconn. unfold mods2. rewrite !modificationsOf_setConnection.
    destruct (decide (sourceModule = sinkModule)) as [->|Hne]; cbn.
    + by rewrite lookup_insert_eq.
    + rewrite decide_True by done. cbn. by rewrite lookup_insert_eq.
  - intros m i Hmi. rewrite Hconn. unfold mods2.
    rewrite !modificationsOf_setConnection.
    repeat case_decide; cbn; subst;
      rewrite ?lookup_insert_ne by naive_solver; try done; naive_solver.
  - intros m. rewrite Hut. unfold mods2. rewrite !modificationsOf_setConnection.
    by repeat case_decide.
Qed.

(** ** The statistics of a run *)

Lemma processes_statistics trace pass st pass' st' :
  processes trace pass st pass' st' →
  ignoreUnhandledAnno pass' = ignoreUnhandledAnno pass
  ∧ ignoreClasslessAnno pass' = ignoreClasslessAnno pass
  ∧ numRawAnnotations pass' = numRawAnnotations pass
  ∧ numAddedAnnos pass' = numAddedAnnos pass
  ∧ numAnnos pass' = numAnnos pass
  ∧ numReusedHierPathOps pass' = numReusedHierPathOps pass
  ∧ passFailed pass' = passFailed pass
  ∧ numUnhandled pass ≤ numUnhandled pass'.
Proof.
  induction 1 as [|attr rest r trace pass pass1 pass' st st1 st' Hpop Happly _ IH];
    [by split_and!|].
  destruct IH as (-> & -> & -> & -> & -> & -> & -> & Hle).
  destruct (applyAnnotation_pass _ _ _ _ _ _ Happly) as [->| ->]; [by split_and!|].
  cbn in *. split_and!; try done. lia.
Qed.

(** X24.  Whenever the pass returns on a circuit that has raw annotations: the
    count of raw annotations has grown by their number, the count of added
    annotations by the number the appliers have enqueued, the count of all
    annotations by the sum of the two, the count of reused hierarchical
    paths by those the run reused; the count of unhandled annotations has
    not gone down; the two switches are as they were, and a pass object
    that was marked failed stays marked. *)
Theorem runOnOperation_statistics (fuel : nat) (pass : LowerAnnotationsPass)
    (circuitOp : Operation) (design : IR) (graph : InstanceGraph)
    (annotations : list DictionaryAttr)
    (pass' : LowerAnnotationsPass) (st' : ApplyState) :
  rawAnnotations design = Some annotations →
  runOnOperation fuel pass circuitOp design graph = Ok (pass', st') →
  numRawAnnotations pass' = numRawAnnotations pass + length annotations
  ∧ numAddedAnnos pass' = numAddedAnnos pass + numAdded st'
  ∧ numAnnos pass' = numAnnos pass + (numAdded st' + length annotations)
  ∧ numReusedHierPathOps pass'
    = numReusedHierPathOps pass + numReusedHierPaths st'
  ∧ numUnhandled pass ≤ numUnhandled pass'
  ∧ ignoreUnhandledAnno pass' = ignoreUnhandledAnno pass
  ∧ ignoreClasslessAnno pass' = ignoreClasslessAnno pass
  ∧ (passFailed pass = true → passFailed pass' = true).
Proof.
  intros Hraw Hrun. unfold runOnOperation in Hrun. rewrite Hraw in Hrun.
  set (st0 := initialState circuitOp (removeRawAnnotations design) graph) in *.
  unfold mbind at 1, Result_bind at 1 in Hrun.
  match type of Hrun with match ?m with _ => _ end = _ =>
    destruct m as [[p s]|] eqn:Hbody; [|done] end.
  injection Hrun as -> ->.
  unfold mbind at 1, ApplyM_bind at 1 in Hbody.
  destruct (populateWorklist annotations st0) as [[[] sa]|]; [|done].
  unfold mbind at 1, ApplyM_bind at 1 in Hbody.
  destruct (processWorklist fuel pass 0 sa) as [[[n pass1] sb]|] eqn:Hloop; [|done].
  cbn beta iota in Hbody.
  unfold mbind at 1, ApplyM_bind at 1 in Hbody. cbn [getState] in Hbody.
  unfold mbind at 1, ApplyM_bind at 1 in Hbody.
  destruct (foldlM (groupProblem fuel) ∅ (enumerate (wiringProblems sb)) sb)
    as [[mods sc]|]; [|done].
  unfold mbind at 1, ApplyM_bind at 1 in Hbody.
  destruct (updateModules mods sc) as [[mods' sd]|]; [|done].
  unfold mbind at 1, ApplyM_bind at 1 in Hbody. cbn [getState] in Hbody.
  injection Hbody as <- <-.
  destruct (processWorklist_processes _ _ _ _ _ _ _ Hloop) as (trace & Hp & _ & _).
  destruct (processes_statistics _ _ _ _ _ Hp)
    as (Hu & Hc & Hr & Ha & Hn & Hh & Hf & Hle).
  cbn [updateStatistics numRawAnnotations numAddedAnnos numAnnos
       numReusedHierPathOps numUnhandled ignoreUnhandledAnno ignoreClasslessAnno
       passFailed].
  rewrite Hr, Ha, Hn, Hh, Hf. split_and!; try done; try lia.
  intros ->. by case_decide.
Qed.

End more_wiring.

(** * [findCircuitOp] *)

(** X11.  [findCircuitOp] returns a circuit or stops on its cast.  Given a
    circuit, it returns that circuit.  Given a builtin module, it returns
    the first circuit of the body, whatever follows it; a builtin module
    without a circuit in its body, like any operation that is neither, ends
    on the [cast<CircuitOp>] of the last line. *)
Theorem findCircuitOp_outcome (design : IR)
    (bodyOf : Operation → option (list Operation)) (operation : Operation) :
  (is_Some (bodyOf operation) → kindOf design operation ≠ OpKind.CircuitOp) →
  match findCircuitOp design bodyOf operation with
  | Ok circuit =>
    kindOf design circuit = OpKind.CircuitOp
    ∧ match bodyOf operation with
      | None => circuit = operation
      | Some body =>
        ∃ i, body !! i = Some circuit
             ∧ ∀ j op, body !! j = Some op → j < i →
                       kindOf design op ≠ OpKind.CircuitOp
      end
  | Fail f =>
    f = AssertionFailed
    ∧ kindOf design operation ≠ OpKind.CircuitOp
    ∧ ∀ body, bodyOf operation = Some body →
              Forall (fun op => kindOf design op ≠ OpKind.CircuitOp) body
  end.
Proof.
  intros Hmod. unfold findCircuitOp, castCircuitOp.
  destruct (bodyOf operation) as [body|] eqn:Ebody.
  - destruct (list_find _ body) as [[i circuit]|] eqn:Efind.
    + apply list_find_Some in Efind as (Hi & Hk & Hfirst). split; [done|].
      exists i. split; [done|]. intros j op Hj Hlt. by eapply Hfirst.
    + rewrite decide_False by (apply Hmod; eauto).
      split; [done|]. split; [apply Hmod; eauto|].
      intros body' [= <-]. apply list_find_None in Efind. exact Efind.
  - case_decide as Hk; [done|]. split; [done|]. split; [done|]. by intros body' ?.
Qed.

Lemma findCircuitOp_outcome_witness :
  match findCircuitOp exampleDesign exampleBodyOf 200 with
  | Ok circuit =>
    kindOf exampleDesign circuit = OpKind.CircuitOp
    ∧ match exampleBodyOf 200 with
      | None => circuit = 200
      | Some body =>
        ∃ i, body !! i = Some circuit
             ∧ ∀ j op, body !! j = Some op → j < i →
                       kindOf exampleDesign op ≠ OpKind.CircuitOp
      end
  | Fail f =>
    f = AssertionFailed
    ∧ kindOf exampleDesign 200 ≠ OpKind.CircuitOp
    ∧ ∀ body, exampleBodyOf 200 = Some body →
              Forall (fun op => kindOf exampleDesign op ≠ OpKind.CircuitOp) body
  end.
Proof.
  apply (findCircuitOp_outcome exampleDesign exampleBodyOf 200).
  intros _. vm_compute. discriminate.
Defined.

Example findCircuitOp_example :
  findCircuitOp exampleDesign exampleBodyOf 200 = Ok 100
  ∧ findCircuitOp exampleDesign exampleBodyOf 100 = Ok 100
  ∧ findCircuitOp exampleDesign exampleBodyOf 3 = Fail AssertionFailed.
Proof. vm_compute. done. Qed.

(** * Rewriting one module *)

Section update_module.
Context {editor : ModuleEditor}.

Lemma modificationsOf_pushUturn mods module v index m :
  modificationsOf (pushUturn mods module v index) m
  = if decide (m = module)
    then {| portsToAdd := portsToAdd (modificationsOf mods m);
            connectionMap := connectionMap (modificationsOf mods m);
            uturns := push_back (uturns (modificationsOf mods m)) (v, index) |}
    else modificationsOf mods m.
Proof.
  unfold modificationsOf, pushUturn. destruct (decide (m = module)) as [->|Hne].
  - by rewrite lookup_insert_eq.
  - by rewrite lookup_insert_ne.
Qed.

(** ** The loop that records the results of a cloned instance *)

Lemma recordResult_loop_aux d clonedInst n enclosing (pairs : list (nat * nat)) :
  ∀ mods,
  let old := modificationsOf mods enclosing in
  let new := modificationsOf
               (foldl (recordResult d clonedInst n enclosing) mods pairs) enclosing in
  portsToAdd new = portsToAdd old
  ∧ uturns new
    = uturns old
      ++ ((fun p : nat * nat => (getResult d clonedInst (p.1 + n), p.2))
            <$> uturnPositions (dom (connectionMap old)) pairs)
  ∧ (∀ index,
       connectionMap new !! index
       = match connectionMap old !! index with
         | Some v => Some v
         | None =>
           (fun r : nat * (nat * nat) => getResult d clonedInst (r.2.1 + n))
             <$> list_find (fun p : nat * nat => p.2 = index) pairs
         end)
  ∧ (∀ m, m ≠ enclosing →
       foldl (recordResult d clonedInst n enclosing) mods pairs !! m = mods !! m).
Proof.
  induction pairs as [|[i index] pairs IH]; intros mods; cbv zeta.
  { simpl. rewrite app_nil_r. split_and!; try done.
    intros index. by destruct (connectionMap _ !! index). }
  cbn [foldl uturnPositions].
  set (mods1 := recordResult d clonedInst n enclosing mods (i, index)).
  destruct (IH mods1) as (Hports & Huturns & Hconn & Hother).
  assert (Hstep :
    (is_Some (connectionMap (modificationsOf mods enclosing) !! index)
     ∧ mods1 = pushUturn mods enclosing (getResult d clonedInst (i + n)) index)
    ∨ (connectionMap (modificationsOf mods enclosing) !! index = None
       ∧ mods1 = setConnection mods enclosing index (getResult d clonedInst (i + n)))).
  { unfold mods1, recordResult, connectionOf. case_decide as Hc; [by left|].
    right. split; [|done].
    destruct (connectionMap _ !! index) eqn:E; [|done]. destruct Hc. eauto. }
  clearbody mods1. destruct Hstep as [[Hin ->]|[Hout ->]].
  - rewrite modificationsOf_pushUturn, decide_True in Hports, Huturns, Hconn by done.
    cbn [portsToAdd uturns connectionMap] in *.
    rewrite decide_True by (by apply elem_of_dom).
    split; [done|]. split.
    { rewrite Huturns. unfold push_back. rewrite <- app_assoc. done. }
    split.
    { intros index'. rewrite Hconn.
      destruct (connectionMap (modificationsOf mods enclosing) !! index') eqn:E; [done|].
      cbn [list_find]. rewrite decide_False.
      2:{ simpl. intros ->. rewrite E in Hin. by destruct Hin. }
      destruct (list_find _ pairs) as [[j [i' x]]|]; done. }
    intros m Hne. rewrite Hother by done. unfold pushUturn. by rewrite lookup_insert_ne.
  - rewrite modificationsOf_setConnection, decide_True in Hports, Huturns, Hconn by done.
    cbn [portsToAdd uturns connectionMap] in *.
    rewrite decide_False by (rewrite elem_of_dom, Hout; by intros [? ?]).
    split; [done|]. split.
    { rewrite Huturns. f_equal. f_equal. f_equal.
      rewrite dom_insert_L. done. }
    split.
    { intros index'. rewrite Hconn. cbn [list_find].
      destruct (decide (index = index')) as [<-|Hne].
      - rewrite lookup_insert_eq. rewrite decide_True by done.
        by rewrite Hout.
      - rewrite lookup_insert_ne by done.
        destruct (connectionMap (modificationsOf mods enclosing) !! index'); [done|].
        rewrite decide_False by done.
        destruct (list_find _ pairs) as [[j [i' x]]|]; done. }
    intros m Hne. rewrite Hother by done. unfold setConnection. by rewrite lookup_insert_ne.
Qed.

(** X25.  What the instantiating module learns from a cloned instance.  For each
    new port of the instance, in order: if the module has no connection for
    the problem of the port, the result of the instance at that port
    becomes the connection; if it has one (from before the loop, or from an
    earlier port of the same loop), the connection stays and the result is
    recorded as a u-turn.  So a connection is never overwritten, after the
    loop every problem of the new ports has a connection in the module, the
    ports to add are not touched, and no other module's record changes. *)
Theorem recordResult_loop (d : Design) (clonedInst : InstanceOp)
    (originalNumPorts : nat) (enclosingModule : Operation)
    (problemIndex : list nat) (mods : gmap Operation ModuleModifications) :
  let mods' :=
    foldl (recordResult d clonedInst originalNumPorts enclosingModule)
          mods (enumerate problemIndex) in
  let old := modificationsOf mods enclosingModule in
  let new := modificationsOf mods' enclosingModule in
  let result i := getResult d clonedInst (i + originalNumPorts) in
  portsToAdd new = portsToAdd old
  ∧ uturns new
    = uturns old
      ++ ((fun p : nat * nat => (result p.1, p.2))
            <$> uturnPositions (dom (connectionMap old)) (enumerate problemIndex))
  ∧ (∀ index v, connectionMap old !! index = Some v →
                connectionMap new !! index = Some v)
  ∧ (∀ index, connectionMap old !! index = None →
       connectionMap new !! index
       = (fun r : nat * nat => result r.1)
           <$> list_find (fun index' => index' = index) problemIndex)
  ∧ (∀ index, index ∈ problemIndex → is_Some (connectionMap new !! index))
  ∧ (∀ m, m ≠ enclosingModule → mods' !! m = mods !! m).
Proof.
  cbv zeta.
  destruct (recordResult_loop_aux d clonedInst originalNumPorts enclosingModule
              (enumerate problemIndex) mods) as (Hports & Huturns & Hconn & Hother).
  assert (Hfind : ∀ index,
    (fun r : nat * (nat * nat) => getResult d clonedInst (r.2.1 + originalNumPorts))
      <$> list_find (fun p : nat * nat => p.2 = index) (enumerate problemIndex)
    = (fun r : nat * nat => getResult d clonedInst (r.1 + originalNumPorts))
        <$> list_find (fun index' => index' = index) problemIndex).
  { intros index. unfold enumerate.
    destruct (list_find (fun index' => index' = index) problemIndex)
      as [[i x]|] eqn:E.
    - apply list_find_Some in E as (Hi & -> & Hfirst).
      assert (list_find (fun p : nat * nat => p.2 = index)
                (imap (fun i x => (i, x)) problemIndex) = Some (i, (i, index))) as ->.
      { apply list_find_Some. split; [by rewrite list_lookup_imap, Hi|].
        split; [done|]. intros j [j' y] Hj Hlt.
        rewrite list_lookup_imap in Hj.
        destruct (problemIndex !! j) as [z|] eqn:Ez; [|done].
        injection Hj as <- <-. simpl. by eapply Hfirst. }
      done.
    - apply list_find_None in E.
      assert (list_find (fun p : nat * nat => p.2 = index)
                (imap (fun i x => (i, x)) problemIndex) = None) as ->; [|done].
      apply list_find_None. apply Forall_forall. intros [j y] Hin.
      apply list_elem_of_lookup in Hin as [k Hk]. rewrite list_lookup_imap in Hk.
      destruct (problemIndex !! k) as [z|] eqn:Ez; [|done].
      injection Hk as <- <-. simpl. rewrite Forall_forall in E.
      apply E. by eapply list_elem_of_lookup_2. }
  split; [done|]. split; [done|]. split.
  { intros index v Hv. by rewrite Hconn, Hv. }
  split.
  { intros index Hnone. by rewrite Hconn, Hnone, Hfind. }
  split; [|done].
  intros index Hin. rewrite Hconn.
  destruct (connectionMap (modificationsOf mods enclosingModule) !! index); [eauto|].
  rewrite Hfind.
  destruct (list_find (fun index' => index' = index) problemIndex) as [r|] eqn:E;
    [eauto|].
  apply list_find_None in E. rewrite Forall_forall in E. by destruct (E index Hin).
Qed.

(** ** What the rewriting of a module keeps *)

Lemma uturnsConnected_lookup mods m :
  uturnsConnected mods →
  Forall (fun uturn : Value * nat =>
            is_Some (connectionMap (modificationsOf mods m) !! uturn.2))
         (uturns (modificationsOf mods m)).
Proof.
  intros Hinv. unfold modificationsOf.
  destruct (mods !! m) as [x|] eqn:E; [|by constructor].
  by apply (Hinv m x E).
Qed.

Lemma uturnsConnected_intro mods :
  (∀ m, Forall (fun uturn : Value * nat =>
                  is_Some (connectionMap (modificationsOf mods m) !! uturn.2))
               (uturns (modificationsOf mods m))) →
  uturnsConnected mods.
Proof.
  intros H m x E. specialize (H m). unfold modificationsOf in H. by rewrite E in H.
Qed.

Lemma grown_refl mods : grown mods mods.
Proof. intros m. done. Qed.

Lemma grown_trans mods1 mods2 mods3 :
  grown mods1 mods2 → grown mods2 mods3 → grown mods1 mods3.
Proof.
  intros H1 H2 m. destruct (H1 m) as (? & ? & ?), (H2 m) as (? & ? & ?).
  split; [congruence|]. split; by etrans.
Qed.

Lemma recordResult_keeps d clonedInst n enclosing mods pair :
  uturnsConnected mods →
  uturnsConnected (recordResult d clonedInst n enclosing mods pair)
  ∧ grown mods (recordResult d clonedInst n enclosing mods pair).
Proof.
  intros Hinv. destruct pair as [i index]. unfold recordResult, connectionOf.
  destruct (decide (is_Some (connectionMap (modificationsOf mods enclosing) !! index)))
    as [Hin|Hout].
  - split.
    + apply uturnsConnected_intro. intros m.
      rewrite modificationsOf_pushUturn. case_decide as Hm.
      * subst m. cbn. unfold push_back. apply Forall_app. split.
        -- by apply uturnsConnected_lookup.
        -- by apply Forall_singleton.
      * by apply uturnsConnected_lookup.
    + intros m. rewrite modificationsOf_pushUturn. case_decide as Hm; [|done].
      subst m. cbn. split; [done|]. split; [done|]. by apply prefix_app_r.
  - assert (Hnone : connectionMap (modificationsOf mods enclosing) !! index = None).
    { destruct (connectionMap _ !! index) eqn:E; [|done]. destruct Hout. eauto. }
    split.
    + apply uturnsConnected_intro. intros m.
      rewrite modificationsOf_setConnection. case_decide as Hm.
      * subst m. cbn. eapply Forall_impl; [by apply uturnsConnected_lookup|].
        intros [v k] [w Hw]. simpl in *.
        destruct (decide (index = k)) as [->|Hne].
        -- rewrite lookup_insert_eq. eauto.
        -- rewrite lookup_insert_ne by done. eauto.
      * by apply uturnsConnected_lookup.
    + intros m. rewrite modificationsOf_setConnection. case_decide as Hm; [|done].
      subst m. cbn. split; [done|]. split; [|done]. by apply insert_subseteq.
Qed.

Lemma recordResult_loop_keeps d clonedInst n enclosing (pairs : list (nat * nat)) :
  ∀ mods, uturnsConnected mods →
  uturnsConnected (foldl (recordResult d clonedInst n enclosing) mods pairs)
  ∧ grown mods (foldl (recordResult d clonedInst n enclosing) mods pairs).
Proof.
  induction pairs as [|pair pairs IH]; intros mods Hinv; cbn [foldl].
  { split; [done|apply grown_refl]. }
  destruct (recordResult_keeps d clonedInst n enclosing mods pair Hinv) as [Hinv1 Hg1].
  destruct (IH _ Hinv1) as [Hinv2 Hg2].
  split; [done|]. by eapply grown_trans.
Qed.

Lemma updateUse_keeps newPorts problemIndex n (us : list InstanceRecord) :
  ∀ mods d cache, uturnsConnected mods →
  let r := foldl (updateUse newPorts problemIndex n) (mods, d, cache) us in
  uturnsConnected r.1.1 ∧ grown mods r.1.1.
Proof.
  induction us as [|u us IH]; intros mods d cache Hinv; cbv zeta; cbn [foldl].
  { split; [done|apply grown_refl]. }
  unfold updateUse at 2 4.
  destruct (cloneAndInsertPorts (getInstance u) newPorts d) as [clonedInst d1].
  match goal with |- context [foldl (recordResult ?d2 ?c ?k ?e) mods ?ps] =>
    destruct (recordResult_loop_keeps d2 c k e ps mods Hinv) as [Hinv1 Hg1]
  end.
  match goal with |- context [foldl _ (?mods1, ?d2, ?cache1) us] =>
    destruct (IH mods1 d2 cache1 Hinv1) as [Hinv2 Hg2]
  end.
  cbv zeta in Hinv2, Hg2. split; [done|]. by eapply grown_trans.
Qed.

(** The wiring loops read [moduleModifications] and do not write it. *)
Lemma wirePort_step fmodule mods acc (tuple : (nat * PortInfo) * nat) :
  match connectionOf mods fmodule tuple.2 with
  | Some _ => ∃ acc', wirePort fmodule mods acc tuple = Ok acc'
  | None => wirePort fmodule mods acc tuple = Fail AssertionFailed
  end.
Proof.
  destruct acc as [portIdx d], tuple as [portPair index]. unfold wirePort. simpl.
  destruct (connectionOf mods fmodule index) as [src|]; [|done].
  repeat case_match; eauto.
Qed.

Lemma wirePort_loop fmodule mods (l : list ((nat * PortInfo) * nat)) : ∀ acc,
  (Forall (fun tuple => is_Some (connectionOf mods fmodule tuple.2)) l →
   ∃ r, foldlR (wirePort fmodule mods) acc l = Ok r)
  ∧ (¬ Forall (fun tuple => is_Some (connectionOf mods fmodule tuple.2)) l →
     foldlR (wirePort fmodule mods) acc l = Fail AssertionFailed).
Proof.
  induction l as [|tuple l IH]; intros acc; cbn [foldlR].
  { split; [eauto|]. intros Hn. destruct Hn. constructor. }
  pose proof (wirePort_step fmodule mods acc tuple) as Hstep.
  destruct (connectionOf mods fmodule tuple.2) as [src|] eqn:Esrc.
  - destruct Hstep as [acc' ->]. rewrite bind_Ok.
    destruct (IH acc') as [Hok Hfail]. split.
    + intros Hall. apply Forall_cons in Hall as [_ Hall]. by apply Hok.
    + intros Hn. apply Hfail. intros Hall. apply Hn.
      constructor; [rewrite Esrc; eauto|done].
  - rewrite Hstep. split; [|done]. intros Hall.
    apply Forall_cons in Hall as [[? Hsome] _]. congruence.
Qed.

Lemma wireUturn_loop fmodule mods (l : list (Value * nat)) : ∀ d,
  Forall (fun uturn => is_Some (connectionOf mods fmodule uturn.2)) l →
  ∃ d', foldlR (wireUturn fmodule mods) d l = Ok d'.
Proof.
  induction l as [|[src index] l IH]; intros d Hall; cbn [foldlR]; [eauto|].
  apply Forall_cons in Hall as [[dest Hdest] Hall]. cbn [snd] in Hdest.
  assert (wireUturn fmodule mods d (src, index)
          = Ok (createStrictConnect fmodule src dest d)) as ->.
  { unfold wireUturn. by rewrite Hdest. }
  rewrite bind_Ok. by apply IH.
Qed.

Lemma zip_newPorts_problemIndex d fmodule modifications :
  (zip (newPortsOf d fmodule modifications) (problemIndexOf modifications)).*2
  = problemIndexOf modifications.
Proof.
  apply snd_zip. unfold newPortsOf, problemIndexOf. by rewrite !length_fmap.
Qed.

(** X26.  Rewriting a module leaves the plan intact.  Whenever the rewriting of
    a module returns, the ports to add are the same for every module as
    before it, every connection that was recorded is still recorded with
    the same value, and the u-turns that were recorded are still there, in
    order, before the new ones.  And the property that every recorded u-turn
    is for a problem with a connection in the same module is kept, so the
    loop over the u-turns of a module never has to connect to a null
    value. *)
Theorem updateModuleBody_keeps (fmodule : Operation)
    (mods : gmap Operation ModuleModifications) (d : Design) (cache : InstancePathCache)
    (mods' : gmap Operation ModuleModifications) (d' : Design)
    (cache' : InstancePathCache) :
  uturnsConnected mods →
  updateModuleBody fmodule (mods, d, cache) = Ok (mods', d', cache') →
  uturnsConnected mods'
  ∧ ∀ m,
      portsToAdd (modificationsOf mods' m) = portsToAdd (modificationsOf mods m)
      ∧ connectionMap (modificationsOf mods m) ⊆ connectionMap (modificationsOf mods' m)
      ∧ uturns (modificationsOf mods m) `prefix_of` uturns (modificationsOf mods' m).
Proof.
  intros Hinv Hrun. unfold updateModuleBody in Hrun.
  destruct (foldlR (wirePort fmodule mods) _ _) as [[portIdx d1]|]; [|done].
  rewrite bind_Ok in Hrun. cbn beta iota in Hrun.
  destruct (foldlR (wireUturn fmodule mods) _ _) as [d2|]; [|done].
  rewrite bind_Ok in Hrun.
  destruct (lookup_node (instanceGraph cache) fmodule) as [us|]; [|done].
  rewrite bind_Ok in Hrun.
  match type of Hrun with Ok (foldl (updateUse ?np ?pi ?n) (mods, ?dd, cache) us) = _ =>
    pose proof (updateUse_keeps np pi n us mods dd cache Hinv) as Hkeep
  end.
  cbv zeta in Hkeep. injection Hrun as Hrun. rewrite Hrun in Hkeep. apply Hkeep.
Qed.

(** ** When the rewriting of a module returns *)

(** X27.  The rewriting of a module that is in the instance graph returns
    exactly when each port to add is for a problem that has a connection
    in the module; if one is not, it stops on
    [assert(src && "need to have an actual value")].  (The u-turns are
    taken to be for connected problems, which the rewriting keeps.) *)
Theorem updateModuleBody_returns (fmodule : Operation)
    (mods : gmap Operation ModuleModifications) (d : Design) (cache : InstancePathCache) :
  uturnsConnected mods →
  is_Some (nodeMap (instanceGraph cache) !! fmodule) →
  (portsConnected mods fmodule →
   ∃ r, updateModuleBody fmodule (mods, d, cache) = Ok r)
  ∧ (¬ portsConnected mods fmodule →
     updateModuleBody fmodule (mods, d, cache) = Fail AssertionFailed).
Proof.
  intros Hinv [us Hus]. unfold updateModuleBody, portsConnected.
  set (modifications := modificationsOf mods fmodule).
  destruct (wirePort_loop fmodule mods
              (zip (newPortsOf d fmodule modifications) (problemIndexOf modifications))
              (numPorts d fmodule,
               insertPorts fmodule (newPortsOf d fmodule modifications) d))
    as [Hok Hfail].
  assert (Hiff :
    Forall (fun tuple : (nat * PortInfo) * nat =>
              is_Some (connectionOf mods fmodule tuple.2))
           (zip (newPortsOf d fmodule modifications) (problemIndexOf modifications))
    ↔ Forall (fun index => is_Some (connectionOf mods fmodule index))
             (problemIndexOf modifications)).
  { etrans; [|by rewrite <- (zip_newPorts_problemIndex d fmodule modifications)].
    by rewrite Forall_fmap. }
  rewrite Hiff in Hok, Hfail. clear Hiff. subst modifications.
  split.
  - intros Hall. destruct (Hok Hall) as [[portIdx d1] ->].
    rewrite bind_Ok. cbn beta iota.
    destruct (wireUturn_loop fmodule mods (uturns (modificationsOf mods fmodule)) d1)
      as [d2 ->]; [by apply uturnsConnected_lookup|].
    rewrite bind_Ok. unfold lookup_node. rewrite Hus, bind_Ok. eauto.
  - intros Hn. by rewrite (Hfail Hn).
Qed.

(** ** What the instantiating modules are handed *)

Lemma grown_connected mods mods' m index :
  grown mods mods' → is_Some (connectionOf mods m index) →
  is_Some (connectionOf mods' m index).
Proof.
  intros Hg [v Hv]. destruct (Hg m) as (_ & Hsub & _). exists v.
  unfold connectionOf in *. by eapply lookup_weaken.
Qed.

Lemma recordResult_loop_connects d clonedInst n enclosing problemIndex mods index :
  index ∈ problemIndex →
  is_Some (connectionOf
             (foldl (recordResult d clonedInst n enclosing) mods
                (enumerate problemIndex)) enclosing index).
Proof.
  intros Hin.
  destruct (recordResult_loop_aux d clonedInst n enclosing (enumerate problemIndex) mods)
    as (_ & _ & Hconn & _).
  unfold connectionOf. rewrite Hconn.
  destruct (connectionMap (modificationsOf mods enclosing) !! index); [eauto|].
  destruct (list_find (fun p : nat * nat => p.2 = index) (enumerate problemIndex))
    as [r|] eqn:E; [simpl; eauto|].
  apply list_find_None in E. rewrite Forall_forall in E.
  apply list_elem_of_lookup in Hin as [i Hi].
  destruct (E (i, index)); [|done].
  apply list_elem_of_lookup. exists i. unfold enumerate.
  by rewrite list_lookup_imap, Hi.
Qed.

Section hand_over.
Variable parentOf : InstanceOp → Operation.
Hypothesis Hparent : ∀ d inst, enclosingModuleOf d inst = parentOf inst.

Lemma updateUse_loop_hands_over newPorts problemIndex n (us : list InstanceRecord) :
  ∀ mods d cache, uturnsConnected mods →
  let r := foldl (updateUse newPorts problemIndex n) (mods, d, cache) us in
  ∀ u index, u ∈ us → index ∈ problemIndex →
    is_Some (connectionOf r.1.1 (parentOf (getInstance u)) index).
Proof.
  induction us as [|u0 us IH]; intros mods d cache Hinv; cbv zeta.
  { intros u index Hu. by apply elem_of_nil in Hu. }
  cbn [foldl]. unfold updateUse at 2.
  destruct (cloneAndInsertPorts (getInstance u0) newPorts d) as [clonedInst d1] eqn:Ec.
  rewrite Hparent.
  match goal with |- context [foldl (recordResult ?d2 ?c ?k ?e) mods ?ps] =>
    destruct (recordResult_loop_keeps d2 c k e ps mods Hinv) as [Hinv1 Hg1];
    pose proof (fun index => recordResult_loop_connects d2 c k e problemIndex mods index)
      as Hnow
  end.
  match goal with |- context [foldl _ (?mods1, ?d2, ?cache1) us] =>
    pose proof (IH mods1 d2 cache1 Hinv1) as Hlater;
    destruct (updateUse_keeps newPorts problemIndex n us mods1 d2 cache1 Hinv1)
      as [_ Hg2]
  end.
  cbv zeta in Hlater, Hg2.
  intros u index Hu Hindex. apply elem_of_cons in Hu as [->|Hu].
  - eapply grown_connected; [exact Hg2|]. by apply Hnow.
  - by apply Hlater.
Qed.

End hand_over.

(** X28.  After a module has been rewritten, every module that instantiates it
    has a connection for each problem for which the module got a port: the
    result of the cloned instance at the new port, or the connection it had
    already.  So when the turn of an instantiating module comes, after those
    of the modules it instantiates, the ports it adds for these problems
    find their values.  (The module around an instance is taken not to
    change while modules are rewritten.) *)
Theorem updateModuleBody_hands_over (parentOf : InstanceOp → Operation)
    (fmodule : Operation) (mods : gmap Operation ModuleModifications)
    (d : Design) (cache : InstancePathCache) (us : list InstanceRecord)
    (mods' : gmap Operation ModuleModifications) (d' : Design)
    (cache' : InstancePathCache) (u : InstanceRecord) (index : nat) :
  (∀ d inst, enclosingModuleOf d inst = parentOf inst) →
  uturnsConnected mods →
  nodeMap (instanceGraph cache) !! fmodule = Some us →
  updateModuleBody fmodule (mods, d, cache) = Ok (mods', d', cache') →
  u ∈ us → index ∈ problemIndexOf (modificationsOf mods fmodule) →
  is_Some (connectionOf mods' (parentOf (getInstance u)) index).
Proof.
  intros Hparent Hinv Hus Hrun. revert u index. unfold updateModuleBody in Hrun.
  destruct (foldlR (wirePort fmodule mods) _ _) as [[portIdx d1]|]; [|done].
  rewrite bind_Ok in Hrun. cbn beta iota in Hrun.
  destruct (foldlR (wireUturn fmodule mods) _ _) as [d2|]; [|done].
  rewrite bind_Ok in Hrun. unfold lookup_node in Hrun. rewrite Hus, bind_Ok in Hrun.
  match type of Hrun with Ok (foldl (updateUse ?np ?pi ?n) (mods, ?dd, cache) us) = _ =>
    pose proof (updateUse_loop_hands_over parentOf Hparent np pi n us mods dd cache Hinv)
      as Hhand
  end.
  cbv zeta in Hhand. injection Hrun as Hrun. rewrite Hrun in Hhand. apply Hhand.
Qed.

(** ** Which way a u-turn is connected *)

(** X29.  Two cloned instances hand a port of the same problem to the module
    that instantiates them, which had no connection for the problem.  The
    result of the instance that comes first becomes the connection, the
    result of the second the u-turn, and the loop over the u-turns makes
    one connect, into the result of the second from the result of the
    first.  Neither the directions of the two ports nor which of the two
    is on the side of the source play a part: the order in which the two
    instantiated modules are rewritten decides the direction. *)
Theorem uturn_connects_by_arrival (d1 d2 d : Design) (first second : InstanceOp)
    (n1 n2 : nat) (enclosingModule : Operation) (index : nat)
    (mods : gmap Operation ModuleModifications) :
  connectionOf mods enclosingModule index = None →
  uturns (modificationsOf mods enclosingModule) = [] →
  let mods1 :=
    foldl (recordResult d1 first n1 enclosingModule) mods (enumerate [index]) in
  let mods2 :=
    foldl (recordResult d2 second n2 enclosingModule) mods1 (enumerate [index]) in
  connectionOf mods2 enclosingModule index = Some (getResult d1 first n1)
  ∧ uturns (modificationsOf mods2 enclosingModule) = [(getResult d2 second n2, index)]
  ∧ foldlR (wireUturn enclosingModule mods2) d
      (uturns (modificationsOf mods2 enclosingModule))
    = Ok (createStrictConnect enclosingModule
            (getResult d2 second n2) (getResult d1 first n1) d).
Proof.
  intros Hnone Hno. cbv zeta. unfold enumerate. cbn [imap foldl].
  assert (H1 : recordResult d1 first n1 enclosingModule mods (0, index)
               = setConnection mods enclosingModule index (getResult d1 first n1)).
  { unfold recordResult. rewrite Hnone. rewrite decide_False; [done|]. by intros [? ?]. }
  rewrite H1.
  assert (Hc1 : connectionOf (setConnection mods enclosingModule index
                                (getResult d1 first n1)) enclosingModule index
                = Some (getResult d1 first n1)).
  { unfold connectionOf. rewrite modificationsOf_setConnection, decide_True by done.
    cbn. by rewrite lookup_insert_eq. }
  assert (H2 : recordResult d2 second n2 enclosingModule
                 (setConnection mods enclosingModule index (getResult d1 first n1))
                 (0, index)
               = pushUturn (setConnection mods enclosingModule index
                              (getResult d1 first n1))
                   enclosingModule (getResult d2 second n2) index).
  { unfold recordResult. rewrite Hc1. by rewrite decide_True by eauto. }
  rewrite H2.
  assert (Hc2 : connectionOf
                  (pushUturn (setConnection mods enclosingModule index
                                (getResult d1 first n1))
                     enclosingModule (getResult d2 second n2) index)
                  enclosingModule index
                = Some (getResult d1 first n1)).
  { unfold connectionOf. rewrite modificationsOf_pushUturn, decide_True by done.
    cbn. exact Hc1. }
  split; [done|].
  assert (Hu : uturns (modificationsOf
                         (pushUturn (setConnection mods enclosingModule index
                                       (getResult d1 first n1))
                            enclosingModule (getResult d2 second n2) index)
                         enclosingModule)
               = [(getResult d2 second n2, index)]).
  { rewrite modificationsOf_pushUturn, decide_True by done. cbn.
    rewrite modificationsOf_setConnection, decide_True by done. cbn.
    by rewrite Hno. }
  split; [done|]. rewrite Hu. cbn [foldlR]. unfold wireUturn. by rewrite Hc2.
Qed.

End update_module.


(** * The further properties on the example designs *)

#[local] Existing Instance exampleNamespaceOps.
#[local] Existing Instance exampleExternals.
#[local] Existing Instance exampleEditor.

Lemma lcaLoop_outcome_witness :
  ∃ common s k,
    [20; 21; 22] = common ++ s ∧ [20; 21] = common ++ k
    ∧ (k = [] ∨ head s ≠ head k)
    ∧ lcaLoop exampleDesign 0 [20; 21; 22] [20; 21]
      = match k with
        | [] => Fail InvalidAccess
        | _ :: _ => Ok (lcaOf exampleDesign 0 common, s, k)
        end.
Proof.
  apply (lcaLoop_outcome exampleDesign 0 [20; 21; 22] [20; 21]).
  apply (bool_decide_unpack _). vm_compute. exact I.
Defined.

Lemma applyWithoutTarget_drops_target_witness :
  ∃ annotation,
    applyWithoutTargetImpl localTarget targetedAnno false (exampleState wiringGraph)
    = Ok (success, attached (exampleState wiringGraph) 1 annotation)
    ∧ getAnnotationsFrom (ir (attached (exampleState wiringGraph) 1 annotation)) 1
      = getAnnotationsFrom (ir (exampleState wiringGraph)) 1 ++ [annotation]
    ∧ getNamed annotation "target" = None
    ∧ (∀ name, name ≠ "target" → name ≠ "circt.fieldID" →
               getNamed annotation name = getNamed targetedAnno name)
    ∧ getNamed annotation "circt.fieldID"
      = if decide (fieldIdx localTarget ≠ 0)
        then Some (IntegerAttr (N.of_nat (fieldIdx localTarget))) else None.
Proof.
  apply (applyWithoutTarget_drops_target localTarget targetedAnno false 1
           (exampleState wiringGraph)); reflexivity.
Defined.

Example applyWithoutTarget_example :
  (fun r => annotationsAttr (ir r.2) !! 1)
    <$> applyWithoutTargetImpl localTarget targetedAnno false (exampleState wiringGraph)
  = Ok (Some [ [("circt.fieldID", IntegerAttr 2); ("class", StringAttr "circt.test");
                ("name", StringAttr "probe")] ]).
Proof. vm_compute. reflexivity. Qed.

Lemma NoTargetAnnotation_on_circuit_witness :
  applyRecord NoTargetAnnotation targetedAnno (exampleState wiringGraph)
  = Ok (success,
        attached (exampleState wiringGraph) (circuit (exampleState wiringGraph))
          (DictionaryAttr_get (withoutTarget targetedAnno)))
  ∧ getNamed (DictionaryAttr_get (withoutTarget targetedAnno)) "target" = None
  ∧ (∀ name, name ≠ "target" →
       getNamed (DictionaryAttr_get (withoutTarget targetedAnno)) name
       = getNamed targetedAnno name).
Proof.
  apply (NoTargetAnnotation_on_circuit targetedAnno (exampleState wiringGraph)).
  reflexivity.
Defined.

Lemma applyAnnotation_counts_unhandled_witness :
  incrNumUnhandled tolerantPass
  = if unhandledClass unknownAnno then incrNumUnhandled tolerantPass else tolerantPass.
Proof.
  apply (applyAnnotation_counts_unhandled tolerantPass unknownAnno
           (exampleState wiringGraph) success (incrNumUnhandled tolerantPass)
           (attached (exampleState wiringGraph) 100 (DictionaryAttr_get unknownAnno))).
  vm_compute. reflexivity.
Defined.

Example unchecked_string_casts_example :
  applyAnnotation tolerantPass numberTargetAnno (exampleState wiringGraph)
  = Fail AssertionFailed
  ∧ (fun r => (r.1, diagnostics r.2))
      <$> applyRecord (rec stdResolve (applyWithoutTarget true)) numberTargetAnno
            (exampleState wiringGraph)
    = Ok (failure, [TargetNotString numberTargetAnno;
                    UnableToResolveTarget numberTargetAnno]).
Proof. vm_compute. done. Qed.

Lemma buildNLA_reuses_witness :
  findNLA (instPathToNLAMap stateWithNLA)
    (namepathOf (fun _ => InnerRefAttr "Top" "inst") (fun _ => "Top") nonLocalTarget)
  = Some "nla"
  ∧ buildNLA nonLocalTarget stateWithNLA
    = Ok ("nla",
          setNumReusedHierPaths stateWithNLA (numReusedHierPaths stateWithNLA + 1))
  ∧ hierPathOps
      (ir (setNumReusedHierPaths stateWithNLA (numReusedHierPaths stateWithNLA + 1)))
    = hierPathOps (ir stateWithNLA).
Proof.
  apply (buildNLA_reuses (fun _ => InnerRefAttr "Top" "inst") (fun _ => "Top")
           nonLocalTarget (exampleState wiringGraph) "nla" stateWithNLA).
  - intros inst st. reflexivity.
  - intros ref st. reflexivity.
  - intros name st sym st' Hrun. injection Hrun as _ <-. reflexivity.
  - vm_compute. reflexivity.
Defined.

Example buildNLA_example :
  hierPathOps (ir stateWithNLA)
  = [("nla", [InnerRefAttr "Top" "inst"; FlatSymbolRefAttr "Top"])]
  ∧ (fun r => (hierPathOps (ir r.2), numReusedHierPaths r.2))
      <$> buildNLA nonLocalTarget stateWithNLA
    = Ok ([("nla", [InnerRefAttr "Top" "inst"; FlatSymbolRefAttr "Top"])], 1).
Proof. vm_compute. done. Qed.

Lemma runOnOperation_without_wiring_witness :
  runOnOperation 5 strictPass 100 (designWith threeAnnotations) wiringGraph
  = if decide (allFModules (ir afterWorklist.2)
                 (instanceGraph (instancePathCache afterWorklist.2)))
    then Ok (updateStatistics afterWorklist.1.2 threeAnnotations afterWorklist.2
               afterWorklist.1.1,
             afterWorklist.2)
    else Fail AssertionFailed.
Proof.
  apply (runOnOperation_without_wiring 5 strictPass 100 (designWith threeAnnotations)
           wiringGraph threeAnnotations afterWorklist.1.1 afterWorklist.1.2
           afterWorklist.2).
  - reflexivity.
  - vm_compute. reflexivity.
  - vm_compute. reflexivity.
Defined.

(** No annotation at all, and an external module in the instance graph. *)
Example runOnOperation_external_module :
  fst <$> runOnOperation 5 strictPass 100 extDesign extGraph = Fail AssertionFailed
  ∧ fst <$> runOnOperation 5 strictPass 100 extDesign exampleGraph = Ok strictPass.
Proof. vm_compute. done. Qed.

Lemma updateModuleBody_keeps_witness :
  uturnsConnected afterUpdate.1.1
  ∧ ∀ m,
      portsToAdd (modificationsOf afterUpdate.1.1 m)
      = portsToAdd (modificationsOf exampleMods m)
      ∧ connectionMap (modificationsOf exampleMods m)
        ⊆ connectionMap (modificationsOf afterUpdate.1.1 m)
      ∧ uturns (modificationsOf exampleMods m)
        `prefix_of` uturns (modificationsOf afterUpdate.1.1 m).
Proof.
  apply (@updateModuleBody_keeps exampleEditor 3 exampleMods exampleIR wiringCache
           afterUpdate.1.1 afterUpdate.1.2 afterUpdate.2).
  - apply (bool_decide_unpack _). vm_compute. exact I.
  - vm_compute. reflexivity.
Defined.

Lemma updateModuleBody_returns_witness :
  (portsConnected exampleMods 3 →
   ∃ r, @updateModuleBody exampleEditor 3 (exampleMods, exampleIR, wiringCache) = Ok r)
  ∧ (¬ portsConnected exampleMods 3 →
     @updateModuleBody exampleEditor 3 (exampleMods, exampleIR, wiringCache)
     = Fail AssertionFailed).
Proof.
  apply (@updateModuleBody_returns exampleEditor 3 exampleMods exampleIR wiringCache).
  - apply (bool_decide_unpack _). vm_compute. exact I.
  - vm_compute. eauto.
Defined.

Example updateModuleBody_example :
  (fun r => (connectionMap (modificationsOf r.1.1 2) !! 7,
             examplePortsOf r.1.2 3, bodyOps r.1.2,
             cachedPaths r.2 3))
    <$> @updateModuleBody exampleEditor 3 (exampleMods, exampleIR, wiringCache)
  = Ok (Some {| valueId := 1620; getType := RefType 0; parentModule := None |},
        [ {| portName := "tap"; portType := RefType 0; direction := Out |} ],
        [ RefSendOp 3 (exampleValue 1 3);
          StrictConnectOp 3
            {| valueId := 300; getType := RefType 0; parentModule := Some 3 |}
            {| valueId := 3000; getType := RefType 0; parentModule := Some 3 |} ],
        Some [[20; 21; 62]]).
Proof. vm_compute. reflexivity. Qed.

(** A problem from module 3 to module 4, both instantiated in module 2.
    When module 3, of the source, is rewritten first, its new output port
    on the instance (value 1620) is the connection of module 2 and the
    input port of the instance of module 4 (value 1630) the u-turn, and
    module 2 connects the input port from the output port. *)
Example update_example_source_first :
  (fun r => (connectionMap (modificationsOf r.1.1 2) !! 7,
             uturns (modificationsOf r.1.1 2),
             r.1.1 !! 1,
             bodyOps r.1.2))
    <$> afterLeaves 3 4
  = Ok (Some {| valueId := 1620; getType := RefType 0; parentModule := None |},
        [ ({| valueId := 1630; getType := RefType 0; parentModule := None |}, 7) ],
        None,
        [ RefSendOp 3 (exampleValue 1 3);
          StrictConnectOp 3
            {| valueId := 300; getType := RefType 0; parentModule := Some 3 |}
            {| valueId := 3000; getType := RefType 0; parentModule := Some 3 |};
          RefResolveOp 4
            {| valueId := 400; getType := RefType 0; parentModule := Some 4 |};
          StrictConnectOp 4
            (exampleValue 2 4)
            {| valueId := 3002; getType := BaseType 0; parentModule := Some 4 |};
          StrictConnectOp 2
            {| valueId := 1630; getType := RefType 0; parentModule := None |}
            {| valueId := 1620; getType := RefType 0; parentModule := None |} ]).
Proof. vm_compute. reflexivity. Qed.

(** The same problem when module 4, of the sink, is rewritten first: the
    connect in module 2 goes the other way, into the output port of the
    instance of module 3 from the input port of the instance of module 4. *)
Example update_example_sink_first :
  (fun r => (connectionMap (modificationsOf r.1.1 2) !! 7,
             uturns (modificationsOf r.1.1 2),
             last (bodyOps r.1.2)))
    <$> afterLeaves 4 3
  = Ok (Some {| valueId := 1630; getType := RefType 0; parentModule := None |},
        [ ({| valueId := 1620; getType := RefType 0; parentModule := None |}, 7) ],
        Some (StrictConnectOp 2
                {| valueId := 1620; getType := RefType 0; parentModule := None |}
                {| valueId := 1630; getType := RefType 0; parentModule := None |})).
Proof. vm_compute. reflexivity. Qed.

Lemma uturn_connects_by_arrival_witness :
  let mods1 :=
    foldl (@recordResult exampleEditor exampleIR 63 0 2) ∅ (enumerate [7]) in
  let mods2 :=
    foldl (@recordResult exampleEditor exampleIR 62 0 2) mods1 (enumerate [7]) in
  connectionOf mods2 2 7 = Some (@getResult exampleEditor exampleIR 63 0)
  ∧ uturns (modificationsOf mods2 2) = [(@getResult exampleEditor exampleIR 62 0, 7)]
  ∧ foldlR (@wireUturn exampleEditor 2 mods2) exampleIR (uturns (modificationsOf mods2 2))
    = Ok (@createStrictConnect exampleEditor 2
            (@getResult exampleEditor exampleIR 62 0)
            (@getResult exampleEditor exampleIR 63 0) exampleIR).
Proof.
  apply (@uturn_connects_by_arrival exampleEditor exampleIR exampleIR exampleIR
           63 62 0 0 2 7 ∅); reflexivity.
Defined.


Example applyWithoutTarget_non_local_example :
  (fun r => (annotationsAttr (ir r.2) !! 2, hierPathOps (ir r.2)))
    <$> applyWithoutTargetImpl nonLocalTarget targetedAnno true (exampleState wiringGraph)
  = Ok (Some [ [("circt.nonlocal", FlatSymbolRefAttr "nla");
                ("class", StringAttr "circt.test"); ("name", StringAttr "probe")] ],
        [("nla", [InnerRefAttr "Top" "inst"; FlatSymbolRefAttr "Top"])]).
Proof. vm_compute. reflexivity. Qed.

Lemma runOnOperation_statistics_witness :
  let r := match runOnOperation 5 strictPass 100 (designWith threeAnnotations)
                   wiringGraph with
           | Ok r => r
           | Fail _ => (strictPass, exampleState wiringGraph)
           end in
  numRawAnnotations r.1 = numRawAnnotations strictPass + length threeAnnotations
  ∧ numAddedAnnos r.1 = numAddedAnnos strictPass + numAdded r.2
  ∧ numAnnos r.1 = numAnnos strictPass + (numAdded r.2 + length threeAnnotations)
  ∧ numReusedHierPathOps r.1
    = numReusedHierPathOps strictPass + numReusedHierPaths r.2
  ∧ numUnhandled strictPass ≤ numUnhandled r.1
  ∧ ignoreUnhandledAnno r.1 = ignoreUnhandledAnno strictPass
  ∧ ignoreClasslessAnno r.1 = ignoreClasslessAnno strictPass
  ∧ (passFailed strictPass = true → passFailed r.1 = true).
Proof.
  apply (runOnOperation_statistics 5 strictPass 100 (designWith threeAnnotations)
           wiringGraph threeAnnotations).
  - reflexivity.
  - vm_compute. reflexivity.
Defined.

Lemma updateModuleBody_hands_over_witness :
  is_Some (connectionOf afterUpdate.1.1 2 7).
Proof.
  apply (@updateModuleBody_hands_over exampleEditor
           (fun inst => match inst with 20 => 0 | 21 => 1 | 22 => 2 | 23 => 2 | _ => 0 end)
           3 exampleMods exampleIR wiringCache
           [ {| getInstance := 22; getParent := 2; getTarget := 3 |} ]
           afterUpdate.1.1 afterUpdate.1.2 afterUpdate.2
           {| getInstance := 22; getParent := 2; getTarget := 3 |} 7).
  - intros d inst. reflexivity.
  - apply (bool_decide_unpack _). vm_compute. exact I.
  - vm_compute. reflexivity.
  - vm_compute. reflexivity.
  - apply (bool_decide_unpack _). vm_compute. exact I.
  - apply (bool_decide_unpack _). vm_compute. exact I.
Defined.

Lemma groupProblem_connections_witness :
  connectionOf plannedMods 4 7 = Some (sink (exampleProblem 3 4))
  ∧ connectionOf plannedMods 3 7
    = Some (if decide (3 = 4) then sink (exampleProblem 3 4)
            else source (exampleProblem 3 4))
  ∧ (∀ m i, (m ≠ 3 ∧ m ≠ 4) ∨ i ≠ 7 →
            connectionOf plannedMods m i = connectionOf ∅ m i)
  ∧ (∀ m, uturns (modificationsOf plannedMods m) = uturns (modificationsOf ∅ m)).
Proof.
  apply (@groupProblem_connections exampleNamespaceOps 5 ∅ 7 (exampleProblem 3 4)
           (exampleState wiringGraph) plannedMods
           (match @groupProblem exampleNamespaceOps 5 ∅ (7, exampleProblem 3 4)
                    (exampleState wiringGraph) with
            | Ok (_, st) => st
            | Fail _ => exampleState wiringGraph
            end) 3 4).
  - reflexivity.
  - reflexivity.
  - vm_compute. reflexivity.
Defined.
